(** * The agent loop of mini-swe-agent ([minisweagent/agents/default.py])

    A shallow embedding of [DefaultAgent]: Python values as an inductive
    type, binary64 floats through the Standard Library's [SpecFloat],
    exceptions as data, and the methods of the class as computations in a
    state-and-exception monad in which the state survives a raise (as the
    attributes of a Python object do).  The model, the environment and the
    file system are collaborators behind type classes. *)

From Stdlib Require Import ZArith List String Ascii Bool Lia.
From Stdlib Require Import Floats.SpecFloat.
Import ListNotations.
Set Warnings "-register-all".
Local Open Scope string_scope.
Local Open Scope list_scope.
Local Open Scope Z_scope.

(** ** Python values *)

Module Py.

(** The values that flow through the agent.  A string is the sequence
    of its code points, one [ascii] each (code points below 256).  A dict
    keeps insertion order
    and, as everywhere in this code, has string keys.  [VObj] is an object
    that is neither of the above: all the source ever asks of one is
    whether it has a [model_dump] method (and what that returns) and
    whether it has a [__dict__]. *)
Inductive value : Type :=
| VNone
| VBool (b : bool)
| VInt (z : Z)
| VFloat (f : spec_float)
| VStr (s : string)
| VList (l : list value)
| VDict (d : list (string * value))
| VObj (model_dump : option value) (dunder_dict : option value).

Definition dict := list (string * value).

(** Instances of [Exception].  [InterruptAgentFlow] stands for that class
    and its subclasses, [cls] being the name of the actual class.

    Modelled from the spec: [minisweagent/exceptions.py] is not among the
    sources.  An [InterruptAgentFlow] carries the messages it was
    constructed with, and [LimitsExceeded] is one of its subclasses (the
    "flow-interrupt" and "limits" signals of the loop). *)
Inductive exn : Type :=
| InterruptAgentFlow (cls : string) (messages : list value)
| Exception (cls : string) (text : string).

Definition LimitsExceeded (message : value) : exn :=
  InterruptAgentFlow "LimitsExceeded" [message].

Definition exn_class (e : exn) : string :=
  match e with
  | InterruptAgentFlow cls _ => cls
  | Exception cls _ => cls
  end.

(** [str(e)] *)
Definition exn_str (e : exn) : string :=
  match e with
  | InterruptAgentFlow _ _ => ""
  | Exception _ text => text
  end.

Inductive outcome (A : Type) : Type :=
| Ok (a : A)
| Raise (e : exn).
Arguments Ok {A} a.
Arguments Raise {A} e.

Definition type_name (v : value) : string :=
  match v with
  | VNone => "NoneType"
  | VBool _ => "bool"
  | VInt _ => "int"
  | VFloat _ => "float"
  | VStr _ => "str"
  | VList _ => "list"
  | VDict _ => "dict"
  | VObj _ _ => "object"
  end.

Definition AttributeError (v : value) (attr : string) : exn :=
  Exception "AttributeError"
    ("'" ++ type_name v ++ "' object has no attribute '" ++ attr ++ "'")%string.

Definition TypeError (text : string) : exn := Exception "TypeError" text.

(** Truth value testing: [bool(v)]. *)
Definition truthy (v : value) : bool :=
  match v with
  | VNone => false
  | VBool b => b
  | VInt z => negb (z =? 0)
  | VFloat (S754_zero _) => false
  | VFloat _ => true
  | VStr s => negb (String.eqb s "")
  | VList l => match l with [] => false | _ => true end
  | VDict d => match d with [] => false | _ => true end
  | VObj _ _ => true
  end.

Definition is_none (v : value) : bool :=
  match v with VNone => true | _ => false end.

(** [isinstance(v, dict)] and [isinstance(v, int)]; [bool] is a subclass
    of [int]. *)
Definition is_dict (v : value) : bool :=
  match v with VDict _ => true | _ => false end.

Definition is_int (v : value) : bool :=
  match v with VInt _ | VBool _ => true | _ => false end.

Definition int_value (v : value) : option Z :=
  match v with
  | VInt z => Some z
  | VBool b => Some (Z.b2z b)
  | _ => None
  end.

(** [v == "s"] for a string literal. *)
Definition eq_str (v : value) (s : string) : bool :=
  match v with VStr t => String.eqb t s | _ => false end.

Fixpoint lookup (k : string) (d : dict) : option value :=
  match d with
  | [] => None
  | (k', v) :: rest => if String.eqb k' k then Some v else lookup k rest
  end.

(** [d[k] = v]: an existing key keeps its place, a new one goes last. *)
Fixpoint store (k : string) (v : value) (d : dict) : dict :=
  match d with
  | [] => [(k, v)]
  | (k', v') :: rest =>
      if String.eqb k' k then (k, v) :: rest else (k', v') :: store k v rest
  end.

(** [d |= other] *)
Definition update (d other : dict) : dict :=
  fold_left (fun acc kv => store (fst kv) (snd kv) acc) other d.

(** [d.get(k, default)] on a dict. *)
Definition dict_get (d : dict) (k : string) (default : value) : value :=
  match lookup k d with Some v => v | None => default end.

(** [v.get(k, default)] on any value: only a dict has the method. *)
Definition get (v : value) (k : string) (default : value) : outcome value :=
  match v with
  | VDict d => Ok (dict_get d k default)
  | _ => Raise (AttributeError v "get")
  end.

(** [hasattr(v, "model_dump")] and [hasattr(v, "__dict__")]. *)
Definition has_model_dump (v : value) : bool :=
  match v with VObj (Some _) _ => true | _ => false end.

Definition has_dunder_dict (v : value) : bool :=
  match v with VObj _ (Some _) => true | _ => false end.

(** What [for x in v] goes through. *)
Definition iterate (v : value) : outcome (list value) :=
  match v with
  | VList l => Ok l
  | VDict d => Ok (map (fun kv => VStr (fst kv)) d)
  | VStr s => Ok (map (fun c => VStr (String c EmptyString)) (list_ascii_of_string s))
  | _ => Raise (TypeError ("'" ++ type_name v ++ "' object is not iterable")%string)
  end.

(** [s.strip()].  A string is the sequence of its code points, one
    [ascii] each, so the strings of the embedding are those whose code
    points are below 256.  Among these, the white space that [strip]
    removes (the characters for which [str.isspace] holds) is: tab to
    carriage return (9 to 13), the four separators (28 to 31), the space
    (32), next line (133) and the no-break space (160). *)
Definition is_space (c : ascii) : bool :=
  let n := nat_of_ascii c in
  ((Nat.leb 9 n && Nat.leb n 13) || (Nat.leb 28 n && Nat.leb n 32)
   || Nat.eqb n 133 || Nat.eqb n 160)%bool.

Fixpoint lstrip (s : string) : string :=
  match s with
  | String c rest => if is_space c then lstrip rest else s
  | EmptyString => EmptyString
  end.

Fixpoint rstrip (s : string) : string :=
  match s with
  | EmptyString => EmptyString
  | String c rest =>
      match rstrip rest with
      | EmptyString => if is_space c then EmptyString else String c EmptyString
      | t => String c t
      end
  end.

Definition strip (s : string) : string := rstrip (lstrip s).

End Py.
Export Py.

(** ** Floats: IEEE 754 binary64 *)

Module F64.

Definition prec : Z := 53.
Definition emax : Z := 1024.

Definition float := spec_float.

Definition zero : float := S754_zero false.

Definition add : float -> float -> float := SFadd prec emax.
Definition sub : float -> float -> float := SFsub prec emax.
Definition mul : float -> float -> float := SFmul prec emax.
Definition ltb : float -> float -> bool := SFltb.
Definition leb : float -> float -> bool := SFleb.
Definition eqb : float -> float -> bool := SFeqb.

Definition is_finite (f : float) : bool :=
  match f with
  | S754_zero _ | S754_finite _ _ _ => true
  | _ => false
  end.

Definition OverflowError (text : string) : exn := Exception "OverflowError" text.

(** The nearest float of an integer, where there is a finite one. *)
Definition of_Z (z : Z) : float := binary_normalize prec emax z 0 false.

(** [float(z)], as an [int] operand of float arithmetic is converted. *)
Definition of_int (z : Z) : outcome float :=
  let f := of_Z z in
  if is_finite f then Ok f
  else Raise (OverflowError "int too large to convert to float").

(** [a / b] on two [int]s: the quotient rounded once, to nearest. *)
Definition truediv (a b : Z) : outcome float :=
  match a, b with
  | _, Z0 => Raise (Exception "ZeroDivisionError" "division by zero")
  | Z0, Zpos _ => Ok (S754_zero false)
  | Z0, Zneg _ => Ok (S754_zero true)
  | _, _ =>
      let q := SFdiv prec emax
                 (S754_finite (a <? 0) (Z.to_pos (Z.abs a)) 0)
                 (S754_finite (b <? 0) (Z.to_pos (Z.abs b)) 0) in
      if is_finite q then Ok q
      else Raise (OverflowError "integer division result too large for a float")
  end.

(** [int(f)]: truncation towards zero. *)
Definition trunc (f : float) : outcome Z :=
  match f with
  | S754_zero _ => Ok 0
  | S754_finite s m e =>
      let n := if 0 <=? e then Z.shiftl (Zpos m) e else Z.shiftr (Zpos m) (- e) in
      Ok (if s then - n else n)
  | S754_infinity _ => Raise (OverflowError "cannot convert float infinity to integer")
  | S754_nan => Raise (Exception "ValueError" "cannot convert float NaN to integer")
  end.

(** [round(f)]: to the nearest integer, ties to the even one. *)
Definition round (f : float) : outcome Z :=
  match f with
  | S754_zero _ => Ok 0
  | S754_finite s m e =>
      let n :=
        if 0 <=? e then Z.shiftl (Zpos m) e
        else
          let q := Z.shiftr (Zpos m) (- e) in
          let r := Zpos m - Z.shiftl q (- e) in
          let half := Z.shiftl 1 (- e - 1) in
          match r ?= half with
          | Lt => q
          | Gt => q + 1
          | Eq => if Z.even q then q else q + 1
          end in
      Ok (if s then - n else n)
  | S754_infinity _ => Raise (OverflowError "cannot convert float infinity to integer")
  | S754_nan => Raise (Exception "ValueError" "cannot convert float NaN to integer")
  end.

(** The order of the values: a finite float [(s, m, e)] is
    [(-1)^s * m * 2^e].  Two finite floats are compared after scaling to
    the smaller exponent. *)
Definition exponent (f : float) : Z :=
  match f with S754_finite _ _ e => e | _ => 0 end.

Definition scaled (f : float) (e0 : Z) : Z :=
  match f with
  | S754_finite s m e => let n := Zpos m * 2 ^ (e - e0) in if s then - n else n
  | _ => 0
  end.

Definition le (x y : float) : Prop :=
  match x, y with
  | S754_nan, _ | _, S754_nan => False
  | S754_infinity true, _ => True
  | _, S754_infinity false => True
  | S754_infinity false, _ => False
  | _, S754_infinity true => False
  | _, _ =>
      let e0 := Z.min (exponent x) (exponent y) in
      scaled x e0 <= scaled y e0
  end.

(** A float that is not negative and, if finite, fits the format: at
    most [prec] digits and an exponent not below the least one.  Every
    non-negative Python float is such a value. *)
Definition payable (f : float) : Prop :=
  match f with
  | S754_zero _ => True
  | S754_infinity s => s = false
  | S754_finite s m e =>
      s = false /\ Zpos (digits2_pos m) <= prec /\ emin prec emax <= e
  | S754_nan => False
  end.

End F64.

(** ** The agent, its collaborators and the monad *)

(** [AgentConfig] *)
Record AgentConfig : Type := {
  system_template : string;
  instance_template : string;
  step_limit : Z;
  cost_limit : F64.float;
  output_path : option string
}.

Definition opt_str (p : option string) : value :=
  match p with Some s => VStr s | None => VNone end.

(** [config.model_dump()]; a path is shown as its string. *)
Definition model_dump (c : AgentConfig) : dict :=
  [ ("system_template", VStr (system_template c));
    ("instance_template", VStr (instance_template c));
    ("step_limit", VInt (step_limit c));
    ("cost_limit", VFloat (cost_limit c));
    ("output_path", opt_str (output_path c)) ].

(** What the agent does to the outside, in the order it does it: kept in
    the state as a ghost log so that "called once", "in this order" and
    "nothing was touched" can be stated. *)
Inductive event : Type :=
| EvQuery (history : list value) (r : outcome value)
| EvExecute (action : value) (r : outcome value)
| EvLiveWrite (path : string) (lines : list value) (r : outcome unit)
| EvSnapshotWrite (path : string) (data : value) (r : outcome unit)
| EvUnlink (path : string) (r : outcome unit)
| EvMapLoad (r : outcome (list (string * Z)))
| EvMapUpdate (model_name : string) (size : Z) (r : outcome unit)
| EvWarning (text : string) (e : exn).

(** The attributes of a [DefaultAgent], with the state of everything
    outside the agent ([world]) and the ghost log ([trace]). *)
Record agent (W : Type) : Type := mkAgent {
  config : AgentConfig;
  messages : list value;
  extra_template_vars : dict;
  cost : F64.float;
  n_calls : Z;
  _live_trajectory_path : option string;
  context_window_mode : string;
  context_window_max : option Z;
  context_window_prompt_tokens : value;
  context_left_percent : option Z;
  world : W;
  trace : list event
}.
Arguments mkAgent {W}.
Arguments config {W}.
Arguments messages {W}.
Arguments extra_template_vars {W}.
Arguments cost {W}.
Arguments n_calls {W}.
Arguments _live_trajectory_path {W}.
Arguments context_window_mode {W}.
Arguments context_window_max {W}.
Arguments context_window_prompt_tokens {W}.
Arguments context_left_percent {W}.
Arguments world {W}.
Arguments trace {W}.

(** The [Model] protocol, over the state of the outside world. *)
Class Model (W : Type) : Type := {
  model_query : list value -> W -> outcome value * W;
  model_format_message : dict -> W -> outcome value * W;
  model_format_observation_messages :
    value -> list value -> value -> W -> outcome (list value) * W;
  model_get_template_vars : W -> outcome value * W;
  model_serialize : W -> outcome value * W;
  (** [getattr(getattr(model, "config", None), "model_name", None)] *)
  model_config_model_name : W -> value
}.

(** The [Environment] protocol. *)
Class Environment (W : Type) : Type := {
  env_execute : value -> W -> outcome value * W;
  env_get_template_vars : W -> outcome value * W;
  env_serialize : W -> outcome value * W
}.

(** Files.  [append_lines p ms] is what [add_messages] does to the live
    log (create the parent directory, open for appending, write one JSON
    line per message); [write_text p data] is what [save] does (create the
    parent directory, write the JSON text of [data]); [unlink p] is what
    [set_live_trajectory_path] does.  The two map functions are those of
    [minisweagent.models.context_window]. *)
Class Storage (W : Type) : Type := {
  append_lines : string -> list value -> W -> outcome unit * W;
  write_text : string -> value -> W -> outcome unit * W;
  unlink : string -> W -> outcome unit * W;
  load_context_window_map : W -> outcome (list (string * Z)) * W;
  update_context_window_map : string -> Z -> W -> outcome unit * W
}.

(** Pure functions the agent imports: [jinja2]'s rendering with
    [StrictUndefined], [recursive_merge] of [minisweagent.utils.serialize],
    [traceback.format_exc], the lookup and the normalisation of
    [minisweagent.models.context_window], and [__version__]. *)
Class Library : Type := {
  render : string -> value -> outcome string;
  recursive_merge : list value -> value;
  format_exc : exn -> string;
  lookup_context_window : string -> list (string * Z) -> option Z;
  normalize_model_name : string -> string;
  version : string
}.

Module Monad.

(** A computation reads and changes the agent and returns or raises; the
    agent is there after a raise as well. *)
Definition M (W A : Type) : Type := agent W -> outcome A * agent W.

Section Ops.
Context {W : Type}.

Definition ret {A} (a : A) : M W A := fun s => (Ok a, s).

Definition bind {A B} (c : M W A) (k : A -> M W B) : M W B :=
  fun s =>
    match c s with
    | (Ok a, s') => k a s'
    | (Raise e, s') => (Raise e, s')
    end.

Definition raise {A} (e : exn) : M W A := fun s => (Raise e, s).

Definition lift {A} (o : outcome A) : M W A := fun s => (o, s).

Definition gets {A} (f : agent W -> A) : M W A := fun s => (Ok (f s), s).

Definition modify (f : agent W -> agent W) : M W unit := fun s => (Ok tt, f s).

(** [try: c  except Exception as e: h e] *)
Definition catch {A} (c : M W A) (h : exn -> M W A) : M W A :=
  fun s =>
    match c s with
    | (Ok a, s') => (Ok a, s')
    | (Raise e, s') => h e s'
    end.

(** [try: c  finally: f]: an exception of [f] replaces the outcome of [c]. *)
Definition finally {A B} (c : M W A) (f : M W B) : M W A :=
  fun s =>
    match c s with
    | (r, s') =>
        match f s' with
        | (Ok _, s'') => (r, s'')
        | (Raise e, s'') => (Raise e, s'')
        end
    end.

End Ops.
End Monad.
Import Monad.

Notation "x <- c ;; k" := (bind c (fun x => k))
  (at level 61, c at next level, right associativity).
Notation "c ;; k" := (bind c (fun _ => k))
  (at level 61, right associativity).

(** Sequencing for pure code that may raise. *)
Definition obind {A B} (o : outcome A) (k : A -> outcome B) : outcome B :=
  match o with Ok a => k a | Raise e => Raise e end.

Notation "x <~ o ;; k" := (obind o (fun x => k))
  (at level 61, o at next level, right associativity).

(** ** [DefaultAgent] *)

Section DefaultAgent.
Context {W : Type} `{MW : Model W} `{EW : Environment W} `{SW : Storage W} `{L : Library}.

Definition set_messages (v : list value) (s : agent W) : agent W :=
  mkAgent (config s) v (extra_template_vars s) (cost s) (n_calls s)
    (_live_trajectory_path s) (context_window_mode s) (context_window_max s)
    (context_window_prompt_tokens s) (context_left_percent s) (world s) (trace s).

Definition set_extra_template_vars (v : dict) (s : agent W) : agent W :=
  mkAgent (config s) (messages s) v (cost s) (n_calls s)
    (_live_trajectory_path s) (context_window_mode s) (context_window_max s)
    (context_window_prompt_tokens s) (context_left_percent s) (world s) (trace s).

Definition set_cost (v : F64.float) (s : agent W) : agent W :=
  mkAgent (config s) (messages s) (extra_template_vars s) v (n_calls s)
    (_live_trajectory_path s) (context_window_mode s) (context_window_max s)
    (context_window_prompt_tokens s) (context_left_percent s) (world s) (trace s).

Definition set_n_calls (v : Z) (s : agent W) : agent W :=
  mkAgent (config s) (messages s) (extra_template_vars s) (cost s) v
    (_live_trajectory_path s) (context_window_mode s) (context_window_max s)
    (context_window_prompt_tokens s) (context_left_percent s) (world s) (trace s).

Definition set__live_trajectory_path (v : option string) (s : agent W) : agent W :=
  mkAgent (config s) (messages s) (extra_template_vars s) (cost s) (n_calls s)
    v (context_window_mode s) (context_window_max s)
    (context_window_prompt_tokens s) (context_left_percent s) (world s) (trace s).

Definition set_context_window_max (v : option Z) (s : agent W) : agent W :=
  mkAgent (config s) (messages s) (extra_template_vars s) (cost s) (n_calls s)
    (_live_trajectory_path s) (context_window_mode s) v
    (context_window_prompt_tokens s) (context_left_percent s) (world s) (trace s).

Definition set_context_window_prompt_tokens (v : value) (s : agent W) : agent W :=
  mkAgent (config s) (messages s) (extra_template_vars s) (cost s) (n_calls s)
    (_live_trajectory_path s) (context_window_mode s) (context_window_max s)
    v (context_left_percent s) (world s) (trace s).

Definition set_context_left_percent (v : option Z) (s : agent W) : agent W :=
  mkAgent (config s) (messages s) (extra_template_vars s) (cost s) (n_calls s)
    (_live_trajectory_path s) (context_window_mode s) (context_window_max s)
    (context_window_prompt_tokens s) v (world s) (trace s).

Definition set_world (v : W) (s : agent W) : agent W :=
  mkAgent (config s) (messages s) (extra_template_vars s) (cost s) (n_calls s)
    (_live_trajectory_path s) (context_window_mode s) (context_window_max s)
    (context_window_prompt_tokens s) (context_left_percent s) v (trace s).

Definition set_trace (v : list event) (s : agent W) : agent W :=
  mkAgent (config s) (messages s) (extra_template_vars s) (cost s) (n_calls s)
    (_live_trajectory_path s) (context_window_mode s) (context_window_max s)
    (context_window_prompt_tokens s) (context_left_percent s) (world s) v.

(** A call of a collaborator that leaves no entry in the log. *)
Definition call {A} (f : W -> outcome A * W) : M W A :=
  fun s => let (r, w) := f (world s) in (r, set_world w s).

(** A call of a collaborator that is logged with its outcome. *)
Definition call_logged {A} (f : W -> outcome A * W) (ev : outcome A -> event) : M W A :=
  fun s =>
    let (r, w) := f (world s) in
    (r, set_trace (trace s ++ [ev r]) (set_world w s)).

(** [self.logger.warning(text, ..., exc)] *)
Definition warning (text : string) (exc : exn) : M W unit :=
  modify (fun s => set_trace (trace s ++ [EvWarning text exc]) s).

(** [__init__]: a fresh agent. *)
Definition init (cfg : AgentConfig) (w : W) : agent W :=
  mkAgent cfg [] [] F64.zero 0 None "auto" None VNone None w [].

Definition set_live_trajectory_path (path : option string) : M W unit :=
  modify (set__live_trajectory_path path) ;;
  match path with
  | None => ret tt
  | Some p =>
      catch (call_logged (unlink p) (EvUnlink p))
            (warning "Failed to initialize live trajectory file")
  end.

Definition get_template_vars (kwargs : dict) : M W value :=
  cfg <- gets config ;;
  ev <- call env_get_template_vars ;;
  mv <- call model_get_template_vars ;;
  s <- gets (fun s => s) ;;
  ret (recursive_merge
         [ VDict (model_dump cfg); ev; mv;
           VDict [ ("n_model_calls", VInt (n_calls s));
                   ("model_cost", VFloat (cost s));
                   ("context_window_max",
                     match context_window_max s with Some n => VInt n | None => VNone end);
                   ("context_window_prompt_tokens", context_window_prompt_tokens s);
                   ("context_left_percent",
                     match context_left_percent s with Some n => VInt n | None => VNone end) ];
           VDict (extra_template_vars s);
           VDict kwargs ]).

Definition _render_template (template : string) : M W string :=
  vars <- get_template_vars [] ;;
  lift (render template vars).

(** [add_messages]: the in-memory sequence first, then the
    live log inside [try ... except Exception]. *)
Definition add_messages (msgs : list value) : M W (list value) :=
  modify (fun s => set_messages (messages s ++ msgs) s) ;;
  path <- gets _live_trajectory_path ;;
  match path with
  | Some p =>
      catch (call_logged (append_lines p msgs) (EvLiveWrite p msgs))
            (warning "Failed to write live trajectory")
  | None => ret tt
  end ;;
  ret msgs.

Definition exit_kwargs (e : exn) : dict :=
  [ ("role", VStr "exit");
    ("content", VStr (exn_str e));
    ("extra", VDict [ ("exit_status", VStr (exn_class e));
                      ("submission", VStr "");
                      ("exception_str", VStr (exn_str e));
                      ("traceback", VStr (format_exc e)) ]) ].

Definition handle_uncaught_exception (e : exn) : M W (list value) :=
  m <- call (model_format_message (exit_kwargs e)) ;;
  add_messages [m].

(** [DefaultAgent._prompt_for_context_window] *)
Definition _prompt_for_context_window (model_name : string) : M W (option Z) :=
  ret None.

Definition _resolve_context_window_max : M W unit :=
  known <- gets context_window_max ;;
  match known with
  | Some _ => ret tt
  | None =>
      name <- gets (fun s => model_config_model_name (world s)) ;;
      match name with
      | VStr raw =>
          if String.eqb raw "" then ret tt
          else
            let model_name := strip raw in
            if String.eqb model_name "" then ret tt
            else
              context_map <- call_logged load_context_window_map EvMapLoad ;;
              let resolved := lookup_context_window model_name context_map in
              let normalized_name := normalize_model_name model_name in
              let normalized_keys :=
                map (fun kv => normalize_model_name (fst kv)) context_map in
              mode <- gets context_window_mode ;;
              resolved <-
                match resolved with
                | None =>
                    if String.eqb mode "interactive" then
                      r <- _prompt_for_context_window model_name ;;
                      match r with
                      | Some n =>
                          call_logged (update_context_window_map model_name n)
                                      (EvMapUpdate model_name n)
                      | None => ret tt
                      end ;;
                      ret r
                    else ret None
                | Some n => ret (Some n)
                end ;;
              match resolved with
              | Some n =>
                  modify (set_context_window_max (Some n)) ;;
                  if existsb (String.eqb normalized_name) normalized_keys then ret tt
                  else call_logged (update_context_window_map model_name n)
                                   (EvMapUpdate model_name n)
              | None => ret tt
              end
      | _ => ret tt
      end
  end.

(** [_extract_prompt_tokens(message)]; [None] is [VNone]. *)
Definition resolve_usage (message : value) : outcome value :=
  extra0 <~ get message "extra" VNone ;;
  let extra := if truthy extra0 then extra0 else VDict [] in
  response <~ get extra "response" VNone ;;
  usage <~ (if truthy response && is_dict response
            then get response "usage" VNone else Ok VNone) ;;
  top <~ get message "usage" VNone ;;
  let usage := if is_none usage && is_dict top then top else usage in
  let usage :=
    if is_none usage && has_model_dump top
    then match top with VObj (Some r) _ => r | _ => usage end
    else usage in
  let usage :=
    if is_none usage && has_dunder_dict top
    then match top with VObj _ (Some r) => r | _ => usage end
    else usage in
  Ok usage.

Definition _extract_prompt_tokens (message : value) : outcome value :=
  usage <~ resolve_usage message ;;
  match usage with
  | VDict d =>
      let prompt_tokens := dict_get d "prompt_tokens" VNone in
      Ok (if is_int prompt_tokens then prompt_tokens else VNone)
  | _ => Ok VNone
  end.

(** [int(100 * (1 - (prompt_tokens / context_window_max)))] *)
Definition left_of (prompt_tokens context_window_max : Z) : outcome Z :=
  q <~ F64.truediv prompt_tokens context_window_max ;;
  F64.trunc (F64.mul (F64.of_Z 100) (F64.sub (F64.of_Z 1) q)).

Definition clamp_percent (left : Z) : Z := Z.max 0 (Z.min 100 left).

(** [_update_context_window_stats(message)].  The method changes the
    message it is given in place; here it returns the message as it is
    afterwards, and the caller goes on with that one. *)
Definition _update_context_window_stats (message : value) : M W value :=
  prompt_tokens <- lift (_extract_prompt_tokens message) ;;
  if is_none prompt_tokens then ret message
  else
    modify (set_context_window_prompt_tokens prompt_tokens) ;;
    known <- gets context_window_max ;;
    match known with
    | None => ret message
    | Some size =>
        if size =? 0 then ret message
        else
          left <- lift (match int_value prompt_tokens with
                        | Some p => left_of p size
                        | None => Raise (TypeError "unsupported operand type(s) for /")
                        end) ;;
          let percent := clamp_percent left in
          modify (set_context_left_percent (Some percent)) ;;
          match message with
          | VDict d => ret (VDict (store "context_left_percent" (VInt percent) d))
          | _ => raise (TypeError "object does not support item assignment")
          end
    end.

(** [self.cost + v] *)
Definition float_plus (c : F64.float) (v : value) : outcome F64.float :=
  match v with
  | VFloat f => Ok (F64.add c f)
  | VInt z => f <~ F64.of_int z ;; Ok (F64.add c f)
  | VBool b => Ok (F64.add c (F64.of_Z (Z.b2z b)))
  | _ => Raise (TypeError ("unsupported operand type(s) for +=: 'float' and '"
                            ++ type_name v ++ "'")%string)
  end.

Definition limits_exceeded (s : agent W) : bool :=
  ((0 <? step_limit (config s)) && (step_limit (config s) <=? n_calls s))
  || (F64.ltb F64.zero (cost_limit (config s)) && F64.leb (cost_limit (config s)) (cost s)).

Definition limits_message : value :=
  VDict [ ("role", VStr "exit");
          ("content", VStr "LimitsExceeded");
          ("extra", VDict [ ("exit_status", VStr "LimitsExceeded");
                            ("submission", VStr "") ]) ].

Definition query : M W value :=
  over <- gets limits_exceeded ;;
  if over then raise (LimitsExceeded limits_message)
  else
    known <- gets context_window_max ;;
    match known with
    | None => _resolve_context_window_max
    | Some _ => ret tt
    end ;;
    modify (fun s => set_n_calls (n_calls s + 1) s) ;;
    history <- gets messages ;;
    message <- call_logged (model_query history) (EvQuery history) ;;
    message <- _update_context_window_stats message ;;
    extra <- lift (get message "extra" (VDict [])) ;;
    declared <- lift (get extra "cost" (VFloat F64.zero)) ;;
    c <- gets cost ;;
    c' <- lift (float_plus c declared) ;;
    modify (set_cost c') ;;
    add_messages [message] ;;
    ret message.

(** The list comprehension of [execute_actions]. *)
Fixpoint execute_all (actions : list value) : M W (list value) :=
  match actions with
  | [] => ret []
  | action :: rest =>
      output <- call_logged (env_execute action) (EvExecute action) ;;
      outputs <- execute_all rest ;;
      ret (output :: outputs)
  end.

Definition execute_actions (message : value) : M W (list value) :=
  extra <- lift (get message "extra" (VDict [])) ;;
  declared <- lift (get extra "actions" (VList [])) ;;
  actions <- lift (iterate declared) ;;
  outputs <- execute_all actions ;;
  vars <- get_template_vars [] ;;
  observations <- call (model_format_observation_messages message outputs vars) ;;
  add_messages observations.

Definition step : M W (list value) :=
  message <- query ;;
  execute_actions message.

Definition agent_type : string := "minisweagent.agents.default.DefaultAgent".

Definition serialize (extra_dicts : list value) : M W value :=
  msgs <- gets messages ;;
  let last_message := last msgs (VDict []) in
  last_extra <- lift (get last_message "extra" (VDict [])) ;;
  s <- gets (fun s => s) ;;
  exit_status <- lift (get last_extra "exit_status" (VStr "")) ;;
  submission <- lift (get last_extra "submission" (VStr "")) ;;
  let agent_data :=
    VDict [ ("info",
              VDict [ ("model_stats",
                        VDict [ ("instance_cost", VFloat (cost s));
                                ("api_calls", VInt (n_calls s)) ]);
                      ("config",
                        VDict [ ("agent", VDict (model_dump (config s)));
                                ("agent_type", VStr agent_type) ]);
                      ("mini_version", VStr version);
                      ("exit_status", exit_status);
                      ("submission", submission) ]);
            ("messages", VList msgs);
            ("trajectory_format", VStr "mini-swe-agent-1.1") ] in
  ms <- call model_serialize ;;
  es <- call env_serialize ;;
  ret (recursive_merge (agent_data :: ms :: es :: extra_dicts)).

Definition save (path : option string) (extra_dicts : list value) : M W value :=
  data <- serialize extra_dicts ;;
  match path with
  | Some p => call_logged (write_text p data) (EvSnapshotWrite p data)
  | None => ret tt
  end ;;
  ret data.

(** [self.messages[-1]] *)
Definition last_message : M W value :=
  msgs <- gets messages ;;
  match msgs with
  | [] => raise (Exception "IndexError" "list index out of range")
  | _ => ret (last msgs VNone)
  end.

(** The handlers of the loop's [try]. *)
Definition on_exception (e : exn) : M W unit :=
  match e with
  | InterruptAgentFlow _ msgs => add_messages msgs ;; ret tt
  | Exception _ _ => handle_uncaught_exception e ;; raise e
  end.

(** One turn of [while True], up to and including the test of [break]:
    [true] when the loop is left. *)
Definition turn : M W bool :=
  finally (catch (step ;; ret tt) on_exception)
          (path <- gets (fun s => output_path (config s)) ;; save path []) ;;
  m <- last_message ;;
  role <- lift (get m "role" VNone) ;;
  ret (eq_str role "exit").

(** [return self.messages[-1].get("extra", {})] *)
Definition result : M W value :=
  m <- last_message ;;
  lift (get m "extra" (VDict [])).

(** The loop, with [fuel] turns at most: [None] when they do not suffice. *)
Fixpoint run_loop (fuel : nat) (s : agent W) : option (outcome value * agent W) :=
  match fuel with
  | O => None
  | S fuel' =>
      match turn s with
      | (Raise e, s') => Some (Raise e, s')
      | (Ok true, s') => Some (result s')
      | (Ok false, s') => run_loop fuel' s'
      end
  end.

(** What [run] does before the loop. *)
Definition start (task : string) (kwargs : dict) : M W unit :=
  modify (fun s =>
    set_extra_template_vars
      (update (extra_template_vars s) (("task", VStr task) :: kwargs)) s) ;;
  modify (set_messages []) ;;
  _resolve_context_window_max ;;
  cfg <- gets config ;;
  system_content <- _render_template (system_template cfg) ;;
  system <- call (model_format_message
                    [("role", VStr "system"); ("content", VStr system_content)]) ;;
  user_content <- _render_template (instance_template cfg) ;;
  user <- call (model_format_message
                  [("role", VStr "user"); ("content", VStr user_content)]) ;;
  add_messages [system; user] ;;
  ret tt.

Definition run (fuel : nat) (task : string) (kwargs : dict) (s : agent W)
  : option (outcome value * agent W) :=
  match start task kwargs s with
  | (Raise e, s') => Some (Raise e, s')
  | (Ok _, s') => run_loop fuel s'
  end.

End DefaultAgent.

Definition is_query (ev : event) : bool :=
  match ev with EvQuery _ _ => true | _ => false end.

(** ** What the specification says, where it is compared with the code *)

(** The remaining share as the specification computes it:
    [clamp(round(100 * (1 - prompt_tokens / context_window_max)), 0, 100)],
    in the same binary64 arithmetic as the code. *)
Definition spec_left_percent (prompt_tokens context_window_max : Z) : outcome Z :=
  q <~ F64.truediv prompt_tokens context_window_max ;;
  rounded <~ F64.round (F64.mul (F64.of_Z 100) (F64.sub (F64.of_Z 1) q)) ;;
  Ok (clamp_percent rounded).

(** The same with exact rational arithmetic, for a positive window: the
    integer nearest to [100 * (max - tokens) / max], halves upwards. *)
Definition spec_left_percent_exact (prompt_tokens context_window_max : Z) : Z :=
  clamp_percent
    ((2 * (100 * (context_window_max - prompt_tokens)) + context_window_max)
       / (2 * context_window_max)).

(** The message the examples use: [{"usage": {"prompt_tokens": n}}]. *)
Definition usage_message (n : Z) : dict :=
  [("usage", VDict [("prompt_tokens", VInt n)])].

(** The entries of the log that are calls of the model, all of them and
    those that returned. *)
Definition queries_issued (evs : list event) : Z :=
  Z.of_nat (List.length (filter is_query evs)).

Definition is_completed_query (ev : event) : bool :=
  match ev with EvQuery _ (Ok _) => true | _ => false end.

Definition queries_completed (evs : list event) : Z :=
  Z.of_nat (List.length (filter is_completed_query evs)).

(** A declared cost that is not negative: what a model that charges
    can declare. *)
Definition payable_value (v : value) : Prop :=
  match v with
  | VFloat f => F64.payable f
  | VInt z => 0 <= z
  | _ => True
  end.

Definition declares_payable_cost (m : value) : Prop :=
  forall extra c,
    get m "extra" (VDict []) = Ok extra ->
    get extra "cost" (VFloat F64.zero) = Ok c ->
    payable_value c.

(** The calls of the environment in the log, in order. *)
Fixpoint executions (evs : list event) : list (value * outcome value) :=
  match evs with
  | [] => []
  | EvExecute action r :: rest => (action, r) :: executions rest
  | _ :: rest => executions rest
  end.

(** The actions a message declares: [message.get("extra", {}).get("actions", [])]. *)
Definition declared_actions (message : value) : outcome (list value) :=
  extra <~ get message "extra" (VDict []) ;;
  declared <~ get extra "actions" (VList []) ;;
  iterate declared.

(** The environment called on [actions] in order, once for each and for
    nothing in between, from the world [w]: the calls returned [outputs],
    one for each action, and left the world [w']. *)
Inductive env_calls {W : Type} `{Environment W}
  : list value -> W -> list value -> W -> Prop :=
| env_calls_nil (w : W) : env_calls [] w [] w
| env_calls_cons (action : value) (rest : list value) (w : W)
    (output : value) (w1 : W) (outputs : list value) (w' : W) :
    env_execute action w = (Ok output, w1) ->
    env_calls rest w1 outputs w' ->
    env_calls (action :: rest) w (output :: outputs) w'.

(** A message as the data model has it: one of role ["exit"] carries an
    [extra] mapping with [exit_status] and [submission]. *)
Definition terminal_extra (extra : dict) : Prop :=
  lookup "exit_status" extra <> None /\ lookup "submission" extra <> None.

Definition well_formed (m : value) : Prop :=
  forall d, m = VDict d ->
    eq_str (dict_get d "role" VNone) "exit" = true ->
    exists extra, lookup "extra" d = Some (VDict extra) /\ terminal_extra extra.

Definition well_formed_exn (e : exn) : Prop :=
  match e with
  | InterruptAgentFlow _ ms => Forall well_formed ms
  | Exception _ _ => True
  end.

(** Two pieces of [query], named for the proofs: what it does with the
    answer of the model, and in that the addition to [cost]. *)
Section QueryPieces.
Context {W : Type} `{SW : Storage W}.

Definition account_cost (message : value) : M W unit :=
  extra <- lift (get message "extra" (VDict [])) ;;
  declared <- lift (get extra "cost" (VFloat F64.zero)) ;;
  c <- gets cost ;;
  c' <- lift (float_plus c declared) ;;
  modify (set_cost c').

Definition record_response (message : value) : M W value :=
  message <- _update_context_window_stats message ;;
  extra <- lift (get message "extra" (VDict [])) ;;
  declared <- lift (get extra "cost" (VFloat F64.zero)) ;;
  c <- gets cost ;;
  c' <- lift (float_plus c declared) ;;
  modify (set_cost c') ;;
  add_messages [message] ;;
  ret message.

End QueryPieces.

(** ** A scripted world

    Collaborators simple enough to run: the model answers from a script,
    the environment echoes an action, ends the run on ["submit"] and
    breaks on ["crash"]; the disk can be full. *)

Module Demo.

(** What the scripted model can be told to do on a query: answer with
    actions, a declared cost or none and a reported token count or none;
    reject its own output (a flow interrupt that carries a user message);
    or break. *)
Inductive price : Type := Half | Quarter.

Inductive reply : Type :=
| Say (actions : list value) (declared : option price) (prompt_tokens : option value)
| Malformed
| Broken.

Record sandbox : Type := {
  script : list reply;
  disk_full : bool;
  files : list (string * list value)
}.

Definition set_script (v : list reply) (w : sandbox) : sandbox :=
  {| script := v; disk_full := disk_full w; files := files w |}.

Definition set_files (v : list (string * list value)) (w : sandbox) : sandbox :=
  {| script := script w; disk_full := disk_full w; files := v |}.

Definition OSError : exn := Exception "OSError" "No space left on device".

(** 0.5 and 0.25 *)
Definition price_float (p : price) : F64.float :=
  match p with
  | Half => S754_finite false 4503599627370496 (-53)
  | Quarter => S754_finite false 4503599627370496 (-54)
  end.

(** A model answer declaring [actions], with a declared [cost] or none and
    a prompt-token count in [extra.response.usage] or none. *)
Definition answer (actions : list value) (declared : option price)
    (prompt_tokens : option value) : value :=
  VDict [ ("role", VStr "assistant"); ("content", VStr "ok");
          ("extra",
            VDict (("actions", VList actions)
                   :: match declared with
                      | Some p => [("cost", VFloat (price_float p))]
                      | None => []
                      end
                   ++ match prompt_tokens with
                      | Some n =>
                          [("response", VDict [("usage", VDict [("prompt_tokens", n)])])]
                      | None => []
                      end)) ].

Definition format_error : exn :=
  InterruptAgentFlow "FormatError"
    [VDict [("role", VStr "user"); ("content", VStr "Please give exactly one action.")]].

Definition submitted (text : string) : value :=
  VDict [ ("role", VStr "exit"); ("content", VStr text);
          ("extra", VDict [ ("exit_status", VStr "Submitted");
                            ("submission", VStr text) ]) ].

Definition observation (output : value) : value :=
  VDict [ ("role", VStr "user"); ("content", output) ].

#[export] Instance demo_model : Model sandbox := {
  model_query _ w :=
    match script w with
    | [] => (Raise (Exception "RuntimeError" "no answer left"), w)
    | Say actions declared prompt_tokens :: rest =>
        (Ok (answer actions declared prompt_tokens), set_script rest w)
    | Malformed :: rest => (Raise format_error, set_script rest w)
    | Broken :: rest => (Raise (Exception "RuntimeError" "model broke"), set_script rest w)
    end;
  model_format_message kwargs w := (Ok (VDict kwargs), w);
  model_format_observation_messages _ outputs _ w := (Ok (map observation outputs), w);
  model_get_template_vars w := (Ok (VDict []), w);
  model_serialize w := (Ok (VDict []), w);
  model_config_model_name _ := VStr " demo-model "
}.

#[export] Instance demo_env : Environment sandbox := {
  env_execute action w :=
    if eq_str action "submit" then
      (Raise (InterruptAgentFlow "Submitted" [submitted "done"]), w)
    else if eq_str action "crash" then
      (Raise (Exception "RuntimeError" "environment crashed"), w)
    else (Ok (VList [VStr "ran"; action]), w);
  env_get_template_vars w := (Ok (VDict []), w);
  env_serialize w := (Ok (VDict []), w)
}.

Fixpoint file_append (p : string) (ls : list value) (fs : list (string * list value))
  : list (string * list value) :=
  match fs with
  | [] => [(p, ls)]
  | (q, old) :: rest =>
      if String.eqb q p then (q, old ++ ls) :: rest else (q, old) :: file_append p ls rest
  end.

Fixpoint file_remove (p : string) (fs : list (string * list value))
  : list (string * list value) :=
  match fs with
  | [] => []
  | (q, old) :: rest =>
      if String.eqb q p then file_remove p rest else (q, old) :: file_remove p rest
  end.

Fixpoint assoc (k : string) (m : list (string * Z)) : option Z :=
  match m with
  | [] => None
  | (k', v) :: rest => if String.eqb k' k then Some v else assoc k rest
  end.

(** The context-window table of the demonstration is read-only and does
    not know the demonstration's model. *)
Definition table : list (string * Z) := [("gpt-4o", 128000); ("claude-3", 200000)].

#[export] Instance demo_storage : Storage sandbox := {
  append_lines p ls w :=
    if disk_full w then (Raise OSError, w)
    else (Ok tt, set_files (file_append p ls (files w)) w);
  write_text p data w :=
    if disk_full w then (Raise OSError, w)
    else (Ok tt, set_files ((p, [data]) :: file_remove p (files w)) w);
  unlink p w := (Ok tt, set_files (file_remove p (files w)) w);
  load_context_window_map w := (Ok table, w);
  update_context_window_map name size w := (Ok tt, w)
}.

(** Modelled from the spec: [recursive_merge] of
    [minisweagent/utils/serialize.py] is not among the sources.  "Mapping
    keys combine recursively; non-mapping leaf values from later arguments
    override earlier ones." *)
Fixpoint merge (a b : value) {struct a} : value :=
  match a, b with
  | VDict da, VDict db =>
      VDict ((fix go (entries : dict) : dict :=
                match entries with
                | [] => []
                | (k, va) :: rest =>
                    (k, match lookup k db with
                        | Some vb => merge va vb
                        | None => va
                        end) :: go rest
                end) da
             ++ filter (fun kv => match lookup (fst kv) da with
                                  | Some _ => false
                                  | None => true
                                  end) db)
  | _, _ => b
  end.

Definition merge_all (ds : list value) : value :=
  fold_left (fun acc d => if is_none d then acc else merge acc d) ds (VDict []).

#[export] Instance demo_library : Library := {
  render template _ := Ok template;
  recursive_merge := merge_all;
  format_exc e := "Traceback (most recent call last): ...";
  lookup_context_window := assoc;
  normalize_model_name name := name;
  version := "demo"
}.

Definition demo_config (steps : Z) (out : option string) : AgentConfig :=
  {| system_template := "You are an agent.";
     instance_template := "Do the task.";
     step_limit := steps;
     cost_limit := F64.zero;
     output_path := out |}.

Definition demo_world (answers : list reply) (full : bool) : sandbox :=
  {| script := answers; disk_full := full; files := [] |}.

(** A fresh agent that saves to [out/traj.json]. *)
Definition fresh (steps : Z) (answers : list reply) (full : bool) : agent sandbox :=
  init (demo_config steps (Some "out/traj.json")) (demo_world answers full).

(** The same agent once its context window is known to be 1000. *)
Definition windowed (answers : list reply) : agent sandbox :=
  set_context_window_max (Some 1000) (fresh 0 answers false).

(** An agent after the part of [run] that precedes the loop. *)
Definition started (a : agent sandbox) : agent sandbox := snd (start "task" [] a).

(** An agent that also writes a live log. *)
Definition logging (a : agent sandbox) : agent sandbox :=
  snd (set_live_trajectory_path (Some "out/live.jsonl") a).

End Demo.

(** ** Facts about binary64 arithmetic *)

Module F64Facts.
Import F64.

Lemma digits2_bounds (p : positive) :
  2 ^ (Zpos (digits2_pos p) - 1) <= Zpos p < 2 ^ Zpos (digits2_pos p).
Proof.
  induction p as [p IH | p IH | ]; simpl digits2_pos.
  - rewrite Pos2Z.inj_succ.
    replace (Z.succ (Zpos (digits2_pos p)) - 1) with (Z.succ (Zpos (digits2_pos p) - 1)) by lia.
    rewrite !Z.pow_succ_r by lia. lia.
  - rewrite Pos2Z.inj_succ.
    replace (Z.succ (Zpos (digits2_pos p)) - 1) with (Z.succ (Zpos (digits2_pos p) - 1)) by lia.
    rewrite !Z.pow_succ_r by lia. lia.
  - simpl. lia.
Qed.

Lemma Zdigits2_nonneg (m : Z) : 0 <= Zdigits2 m.
Proof. destruct m; simpl; lia. Qed.

Lemma Zdigits2_bounds (m : Z) :
  0 < m -> 2 ^ (Zdigits2 m - 1) <= m < 2 ^ Zdigits2 m.
Proof. destruct m; try lia. intros _. apply digits2_bounds. Qed.

Lemma Zdigits2_le_of_lt_pow (m k : Z) : 0 <= k -> 0 <= m < 2 ^ k -> Zdigits2 m <= k.
Proof.
  intros Hk [H0 Hm]. destruct (Z.eq_dec m 0) as [-> | Hne]; [ simpl; lia | ].
  destruct (Zdigits2_bounds m ltac:(lia)) as [Hlo _].
  destruct (Z_le_gt_dec (Zdigits2 m) k) as [ | Hgt ]; [ assumption | exfalso ].
  assert (2 ^ k <= 2 ^ (Zdigits2 m - 1)) by (apply Z.pow_le_mono_r; lia). lia.
Qed.

Lemma Zdigits2_mono (m n : Z) : 0 < m <= n -> Zdigits2 m <= Zdigits2 n.
Proof.
  intros [Hm Hmn].
  destruct (Zdigits2_bounds m Hm) as [Hlo _].
  destruct (Zdigits2_bounds n ltac:(lia)) as [_ Hhi].
  apply Zdigits2_le_of_lt_pow; [ apply Zdigits2_nonneg | ].
  lia.
Qed.

(** Iterating as [SpecFloat] does is iterating that many times. *)
Lemma iter_pos_nat {A} (f : A -> A) (p : positive) : forall x,
  iter_pos f p x = Nat.iter (Pos.to_nat p) f x.
Proof.
  induction p as [p IH | p IH | ]; intros x; simpl iter_pos.
  - rewrite !IH, Pos2Nat.inj_xI.
    replace (S (2 * Pos.to_nat p)) with (Pos.to_nat p + (Pos.to_nat p + 1))%nat by lia.
    rewrite !Nat.iter_add. reflexivity.
  - rewrite !IH, Pos2Nat.inj_xO.
    replace (2 * Pos.to_nat p)%nat with (Pos.to_nat p + Pos.to_nat p)%nat by lia.
    rewrite Nat.iter_add. reflexivity.
  - reflexivity.
Qed.

Lemma shr_1_m (mrs : shr_record) :
  0 <= shr_m mrs -> shr_m (shr_1 mrs) = shr_m mrs / 2.
Proof.
  destruct mrs as [m r s]. simpl. intros Hm.
  destruct m as [ | [p | p | ] | p ]; simpl; try lia.
  - reflexivity.
  - apply Z.div_unique with (r := 1); lia.
  - apply Z.div_unique with (r := 0); lia.
  - reflexivity.
Qed.

Lemma shr_iter_m (k : nat) : forall mrs,
  0 <= shr_m mrs ->
  shr_m (Nat.iter k shr_1 mrs) = shr_m mrs / 2 ^ Z.of_nat k.
Proof.
  induction k as [ | k IH ]; intros mrs Hm.
  - simpl. rewrite Z.div_1_r. reflexivity.
  - rewrite Nat.iter_succ_r, IH.
    + rewrite shr_1_m by assumption.
      rewrite Nat2Z.inj_succ, Z.pow_succ_r by lia.
      rewrite Z.div_div by (try apply Z.pow_pos_nonneg; lia). reflexivity.
    + rewrite shr_1_m by assumption. apply Z.div_pos; lia.
Qed.

(** What [shr] gives: the mantissa divided by the power of two, the
    exponent raised as much; nothing for a shift that is not positive. *)
Lemma shr_spec (mrs : shr_record) (e n : Z) :
  0 <= shr_m mrs ->
  shr_m (fst (shr mrs e n)) = shr_m mrs / 2 ^ Z.max 0 n
  /\ snd (shr mrs e n) = e + Z.max 0 n.
Proof.
  intros Hm. destruct n as [ | p | p ]; simpl.
  - rewrite Z.div_1_r. split; [ reflexivity | lia ].
  - rewrite iter_pos_nat, shr_iter_m by assumption.
    rewrite positive_nat_Z. split; reflexivity.
  - rewrite Z.div_1_r. split; [ reflexivity | lia ].
Qed.

Lemma shr_record_of_loc_m m l : shr_m (shr_record_of_loc m l) = m.
Proof. destruct l as [ | [ | | ] ]; reflexivity. Qed.

Lemma round_nearest_even_bounds m l :
  m <= round_nearest_even m l <= m + 1.
Proof.
  destruct l as [ | [ | | ] ]; simpl; try lia.
  destruct (Z.even m); lia.
Qed.

Lemma pow2_pos (k : Z) : 0 <= k -> 0 < 2 ^ k.
Proof. intros. apply Z.pow_pos_nonneg; lia. Qed.

Lemma pow2_split (a b : Z) : 0 <= b <= a -> 2 ^ a = 2 ^ (a - b) * 2 ^ b.
Proof. intros H. rewrite <- Z.pow_add_r by lia. f_equal. lia. Qed.

Lemma fexp_ge_emin e : emin prec emax <= fexp prec emax e.
Proof. unfold fexp. lia. Qed.

Lemma fexp_cases e :
  (fexp prec emax e = e - prec /\ emin prec emax <= e - prec)
  \/ (fexp prec emax e = emin prec emax /\ e - prec <= emin prec emax).
Proof. unfold fexp. lia. Qed.

Lemma shr_fexp_spec (m e : Z) (l : location) :
  0 <= m ->
  let n := Z.max 0 (fexp prec emax (Zdigits2 m + e) - e) in
  shr_m (fst (shr_fexp prec emax m e l)) = m / 2 ^ n
  /\ snd (shr_fexp prec emax m e l) = e + n.
Proof.
  intros Hm n. unfold shr_fexp.
  pose proof (shr_spec (shr_record_of_loc m l) e
                (fexp prec emax (Zdigits2 m + e) - e)) as H.
  rewrite shr_record_of_loc_m in H. apply H. exact Hm.
Qed.

(** The two shifts and the rounding of [binary_round_aux], spelt out. *)
Lemma round_aux_cases (sx : bool) (mx ex : Z) (lx : location) :
  0 <= mx ->
  exists m1' : Z,
    let n1 := Z.max 0 (fexp prec emax (Zdigits2 mx + ex) - ex) in
    let e1 := ex + n1 in
    let n2 := Z.max 0 (fexp prec emax (Zdigits2 m1' + e1) - e1) in
    mx / 2 ^ n1 <= m1' <= mx / 2 ^ n1 + 1
    /\ binary_round_aux prec emax sx mx ex lx
       = match m1' / 2 ^ n2 with
         | Z0 => S754_zero sx
         | Zpos m =>
             if e1 + n2 <=? emax - prec then S754_finite sx m (e1 + n2)
             else S754_infinity sx
         | Zneg _ => S754_nan
         end.
Proof.
  intros Hm. unfold binary_round_aux.
  destruct (shr_fexp_spec mx ex lx Hm) as [Hm1 He1].
  destruct (shr_fexp prec emax mx ex lx) as [mrs' e'] eqn:E1. cbn [fst snd] in Hm1, He1.
  set (m1' := round_nearest_even (shr_m mrs') (loc_of_shr_record mrs')).
  pose proof (round_nearest_even_bounds (shr_m mrs') (loc_of_shr_record mrs')) as Hr.
  fold m1' in Hr. rewrite Hm1 in Hr.
  assert (H1 : 0 <= m1').
  { assert (0 <= mx / 2 ^ Z.max 0 (fexp prec emax (Zdigits2 mx + ex) - ex)).
    { apply Z.div_pos; [ lia | apply pow2_pos; lia ]. }
    lia. }
  destruct (shr_fexp_spec m1' e' loc_Exact H1) as [Hm2 He2].
  destruct (shr_fexp prec emax m1' e' loc_Exact) as [mrs'' e''] eqn:E2.
  cbn [fst snd] in Hm2, He2.
  exists m1'. cbv zeta. split; [ exact Hr | ].
  rewrite Hm2, He2, He1. reflexivity.
Qed.

(** Whatever is rounded, the result fits the format. *)
Lemma round_aux_payable (mx ex : Z) (lx : location) :
  0 <= mx -> payable (binary_round_aux prec emax false mx ex lx).
Proof.
  intros Hm. destruct (round_aux_cases false mx ex lx Hm) as [m1' [Hr ->]].
  set (e1 := ex + Z.max 0 (fexp prec emax (Zdigits2 mx + ex) - ex)) in *.
  set (n2 := Z.max 0 (fexp prec emax (Zdigits2 m1' + e1) - e1)).
  assert (H1 : 0 <= m1').
  { assert (0 <= mx / 2 ^ Z.max 0 (fexp prec emax (Zdigits2 mx + ex) - ex)).
    { apply Z.div_pos; [ lia | apply pow2_pos; lia ]. }
    lia. }
  destruct (m1' / 2 ^ n2) as [ | m | m ] eqn:Em2.
  - exact I.
  - destruct (e1 + n2 <=? emax - prec); [ | reflexivity ].
    split; [ reflexivity | ]. split.
    + change (Zdigits2 (Zpos m) <= prec). rewrite <- Em2.
      apply Zdigits2_le_of_lt_pow; [ unfold prec; lia | ].
      split; [ apply Z.div_pos; [ lia | apply pow2_pos; unfold n2; lia ] | ].
      apply Z.div_lt_upper_bound; [ apply pow2_pos; unfold n2; lia | ].
      assert (Hpos : 0 < m1').
      { destruct (Z.eq_dec m1' 0) as [E0 | ]; [ | lia ].
        rewrite E0, Z.div_0_l in Em2; [ discriminate | ].
        pose proof (pow2_pos n2 ltac:(unfold n2; lia)). lia. }
      destruct (Zdigits2_bounds m1' Hpos) as [_ Hhi].
      rewrite <- Z.pow_add_r by (unfold n2, prec; lia).
      assert (Hle : 2 ^ Zdigits2 m1' <= 2 ^ (n2 + prec)).
      { apply Z.pow_le_mono_r; [ lia | ].
        unfold n2. pose proof (fexp_cases (Zdigits2 m1' + e1)). lia. }
      lia.
    + pose proof (fexp_ge_emin (Zdigits2 m1' + e1)). unfold n2. lia.
  - exfalso.
    assert (0 <= m1' / 2 ^ n2) by (apply Z.div_pos; [ lia | apply pow2_pos; unfold n2; lia ]).
    lia.
Qed.

Lemma iter_xO (d : positive) (m : positive) :
  Zpos (Pos.iter xO m d) = Zpos m * 2 ^ Zpos d.
Proof.
  induction d as [ | d IH ] using Pos.peano_ind.
  - simpl. lia.
  - rewrite Pos.iter_succ, Pos2Z.inj_succ, Z.pow_succ_r by lia.
    rewrite Pos2Z.inj_xO, IH. lia.
Qed.

(** Aligning to an exponent: the value is kept, the exponent is the
    smaller of the two. *)
Lemma shl_align_spec (mx : positive) (ex ex' : Z) :
  snd (shl_align mx ex ex') = Z.min ex ex'
  /\ Zpos (fst (shl_align mx ex ex')) = Zpos mx * 2 ^ (ex - Z.min ex ex').
Proof.
  unfold shl_align. destruct (ex' - ex) as [ | d | d ] eqn:Ed; cbn [fst snd].
  - replace (Z.min ex ex') with ex by lia. rewrite Z.sub_diag. simpl. lia.
  - replace (Z.min ex ex') with ex by lia. rewrite Z.sub_diag. simpl. lia.
  - replace (Z.min ex ex') with ex' by lia. rewrite iter_xO.
    replace (ex - ex') with (Zpos d) by lia. split; reflexivity.
Qed.

(** Rounding a value that is at least a float of the format gives at
    least that float. *)
Lemma round_aux_ge (mx : positive) (ex mz ez : Z) (lx : location) :
  Zpos (digits2_pos mx) <= prec -> emin prec emax <= ex ->
  ez <= ex -> Zpos mx * 2 ^ (ex - ez) <= mz ->
  le (S754_finite false mx ex) (binary_round_aux prec emax false mz ez lx).
Proof.
  intros Hdx Hex Hez Hmz.
  assert (Hp : 0 < mz).
  { pose proof (pow2_pos (ex - ez) ltac:(lia)). nia. }
  destruct (round_aux_cases false mz ez lx ltac:(lia)) as [m1' [Hr ->]].
  set (n1 := Z.max 0 (fexp prec emax (Zdigits2 mz + ez) - ez)) in *.
  set (e1 := ez + n1) in *.
  set (n2 := Z.max 0 (fexp prec emax (Zdigits2 m1' + e1) - e1)).
  assert (Hn1 : 0 <= n1) by (unfold n1; lia).
  assert (Hn2 : 0 <= n2) by (unfold n2; lia).
  pose proof (pow2_pos n1 Hn1) as Hp1. pose proof (pow2_pos n2 Hn2) as Hp2.
  assert (Hm1 : 0 <= mz / 2 ^ n1) by (apply Z.div_pos; lia).
  assert (HA : e1 + n2 <= ex -> Zpos mx * 2 ^ (ex - (e1 + n2)) <= m1' / 2 ^ n2).
  { intros Hle.
    assert (H1 : Zpos mx * 2 ^ (ex - e1) <= mz / 2 ^ n1).
    { apply Z.div_le_lower_bound; [ lia | ].
      rewrite (pow2_split (ex - ez) n1) in Hmz by (unfold e1 in *; lia).
      replace (ex - ez - n1) with (ex - e1) in Hmz by (unfold e1; lia). lia. }
    apply Z.div_le_lower_bound; [ lia | ].
    rewrite (pow2_split (ex - e1) n2) in H1 by lia.
    replace (ex - e1 - n2) with (ex - (e1 + n2)) in H1 by lia. lia. }
  assert (HB : ex < e1 + n2 -> 2 ^ (prec - 1) <= m1' / 2 ^ n2).
  { intros Hgt.
    destruct (Z_lt_le_dec 0 (fexp prec emax (Zdigits2 m1' + e1) - e1)) as [Hpos | Hnp].
    - assert (En2 : n2 = fexp prec emax (Zdigits2 m1' + e1) - e1) by (unfold n2; lia).
      destruct (fexp_cases (Zdigits2 m1' + e1)) as [[Hf _] | [Hf _]]; [ | lia ].
      assert (Hd : n2 = Zdigits2 m1' - prec) by lia.
      assert (Hm1' : 0 < m1').
      { destruct (Z.eq_dec m1' 0) as [E0 | ]; [ | lia ].
        rewrite E0 in Hd. simpl in Hd. unfold prec in Hd. lia. }
      destruct (Zdigits2_bounds m1' Hm1') as [Hlo _].
      apply Z.div_le_lower_bound; [ lia | ].
      rewrite (pow2_split (Zdigits2 m1' - 1) n2) in Hlo by (unfold prec in *; lia).
      replace (Zdigits2 m1' - 1 - n2) with (prec - 1) in Hlo by lia. lia.
    - assert (En2 : n2 = 0) by (unfold n2; lia).
      rewrite En2, Z.div_1_r. rewrite En2, Z.add_0_r in Hgt.
      assert (Hn1p : 0 < fexp prec emax (Zdigits2 mz + ez) - ez) by (unfold e1, n1 in Hgt; lia).
      assert (En1 : n1 = fexp prec emax (Zdigits2 mz + ez) - ez) by (unfold n1; lia).
      destruct (fexp_cases (Zdigits2 mz + ez)) as [[Hf _] | [Hf _]];
        [ | unfold e1 in Hgt; lia ].
      assert (Hd : n1 = Zdigits2 mz - prec) by lia.
      destruct (Zdigits2_bounds mz Hp) as [Hlo _].
      assert (H1 : 2 ^ (prec - 1) <= mz / 2 ^ n1).
      { apply Z.div_le_lower_bound; [ lia | ].
        rewrite (pow2_split (Zdigits2 mz - 1) n1) in Hlo by (unfold prec in *; lia).
        replace (Zdigits2 mz - 1 - n1) with (prec - 1) in Hlo by lia. lia. }
      lia. }
  assert (Hpw : 0 < 2 ^ (prec - 1)) by (apply pow2_pos; unfold prec; lia).
  destruct (Z_le_gt_dec (e1 + n2) ex) as [Hle | Hgt].
  - specialize (HA Hle).
    pose proof (pow2_pos (ex - (e1 + n2)) ltac:(lia)) as Hp3.
    destruct (m1' / 2 ^ n2) as [ | m | m ] eqn:Em2; try nia.
    destruct (e1 + n2 <=? emax - prec); [ | exact I ].
    cbn [le exponent scaled]. replace (Z.min ex (e1 + n2)) with (e1 + n2) by lia.
    rewrite Z.sub_diag. simpl (2 ^ 0). lia.
  - specialize (HB ltac:(lia)).
    destruct (m1' / 2 ^ n2) as [ | m | m ] eqn:Em2; try lia.
    destruct (e1 + n2 <=? emax - prec); [ | exact I ].
    cbn [le exponent scaled]. replace (Z.min ex (e1 + n2)) with ex by lia.
    rewrite Z.sub_diag. simpl (2 ^ 0).
    destruct (digits2_bounds mx) as [_ Hhi].
    assert (Hmx : Zpos mx < 2 ^ prec).
    { assert (2 ^ Zpos (digits2_pos mx) <= 2 ^ prec) by (apply Z.pow_le_mono_r; lia). lia. }
    assert (H2 : 2 <= 2 ^ (e1 + n2 - ex)).
    { change 2 with (2 ^ 1) at 1. apply Z.pow_le_mono_r; lia. }
    assert (Hpp : 2 ^ prec = 2 ^ (prec - 1) * 2).
    { rewrite (pow2_split prec 1) by (unfold prec; lia). reflexivity. }
    nia.
Qed.

Lemma le_refl_payable (x : float) : payable x -> le x x.
Proof.
  destruct x as [sx | sx | | sx m e]; simpl; auto.
  - intros _. lia.
  - intros ->. exact I.
  - intros [-> _]. lia.
Qed.

(** Adding a non-negative float to a non-negative float of the format
    gives a float of the format that is not smaller. *)
Lemma add_payable (x f : float) :
  payable x -> payable f -> le x (add x f) /\ payable (add x f).
Proof.
  intros Hx Hf. unfold add.
  destruct x as [sx | sx | | sx mx ex]; destruct f as [sf | sf | | sf mf ef];
    simpl in Hx, Hf; try contradiction; subst.
  - (* zero, zero *)
    destruct sx, sf; cbn [SFadd le exponent scaled payable]; split; auto; lia.
  - cbn [SFadd le payable]. auto.
  - destruct Hf as [-> Hf]. cbn [SFadd le exponent scaled payable]. split; [ | auto ].
    pose proof (pow2_pos (ef - Z.min 0 ef) ltac:(lia)). lia.
  - cbn [SFadd le payable]. auto.
  - cbn [SFadd le payable]. auto.
  - destruct Hf as [-> Hf]. cbn [SFadd le payable]. auto.
  - destruct Hx as [-> Hx]. cbn [SFadd le exponent scaled payable]. split; [ lia | auto ].
  - destruct Hx as [-> Hx]. cbn [SFadd le payable]. auto.
  - destruct Hx as [-> [Hdx Hex]]. destruct Hf as [-> _].
    cbn [SFadd cond_Zopp].
    destruct (shl_align_spec mx ex (Z.min ex ef)) as [_ Hax].
    destruct (shl_align_spec mf ef (Z.min ex ef)) as [_ Haf].
    replace (Z.min ex (Z.min ex ef)) with (Z.min ex ef) in Hax by lia.
    replace (Z.min ef (Z.min ex ef)) with (Z.min ex ef) in Haf by lia.
    set (M := (fst (shl_align mx ex (Z.min ex ef)) + fst (shl_align mf ef (Z.min ex ef)))%positive).
    change (Zpos (fst (shl_align mx ex (Z.min ex ef)))
            + Zpos (fst (shl_align mf ef (Z.min ex ef)))) with (Zpos M).
    assert (HM : Zpos mx * 2 ^ (ex - Z.min ex ef) <= Zpos M).
    { unfold M. rewrite Pos2Z.inj_add, Hax. lia. }
    cbn [binary_normalize]. unfold binary_round.
    destruct (shl_align_spec M (Z.min ex ef)
                (fexp prec emax (Zpos (digits2_pos M) + Z.min ex ef))) as [Hez Hmz].
    destruct (shl_align M (Z.min ex ef) _) as [mz ez]. cbn [fst snd] in Hez, Hmz.
    split.
    + apply round_aux_ge; auto; try lia.
      rewrite Hmz.
      rewrite (pow2_split (ex - ez) (Z.min ex ef - ez)) by lia.
      replace (ex - ez - (Z.min ex ef - ez)) with (ex - Z.min ex ef) by lia.
      rewrite Hez. pose proof (pow2_pos (Z.min ex ef - ez) ltac:(lia)). nia.
    + apply round_aux_payable. lia.
Qed.

Lemma scale_le (a b ea eb e0 : Z) :
  e0 <= Z.min ea eb ->
  (a * 2 ^ (ea - Z.min ea eb) <= b * 2 ^ (eb - Z.min ea eb)
   <-> a * 2 ^ (ea - e0) <= b * 2 ^ (eb - e0)).
Proof.
  intros He.
  rewrite (pow2_split (ea - e0) (Z.min ea eb - e0)) by lia.
  rewrite (pow2_split (eb - e0) (Z.min ea eb - e0)) by lia.
  replace (ea - e0 - (Z.min ea eb - e0)) with (ea - Z.min ea eb) by lia.
  replace (eb - e0 - (Z.min ea eb - e0)) with (eb - Z.min ea eb) by lia.
  pose proof (pow2_pos (Z.min ea eb - e0) ltac:(lia)) as Hk.
  rewrite !Z.mul_assoc. split; intros H; nia.
Qed.

Lemma le_trans_payable (x y z : float) :
  payable x -> payable y -> payable z -> le x y -> le y z -> le x z.
Proof.
  intros Hx Hy Hz.
  destruct x as [sx | sx | | sx mx ex]; destruct y as [sy | sy | | sy my ey];
    destruct z as [sz | sz | | sz mz ez];
    cbn [payable] in Hx, Hy, Hz; try contradiction;
    repeat match goal with
           | H : _ = false /\ _ |- _ => destruct H as [-> H]
           | H : ?s = false |- _ => subst s
           end;
    cbn [le exponent scaled]; intros Hxy Hyz; try exact I; try contradiction; try lia.
  set (e0 := Z.min ex (Z.min ey ez)).
    apply (scale_le (Zpos mx) (Zpos my) ex ey e0) in Hxy; [ | unfold e0; lia ].
    apply (scale_le (Zpos my) (Zpos mz) ey ez e0) in Hyz; [ | unfold e0; lia ].
    apply (scale_le (Zpos mx) (Zpos mz) ex ez e0); [ unfold e0; lia | ]. lia.
Qed.

(** The float of a non-negative integer is of the format. *)
Lemma of_Z_payable (z : Z) : 0 <= z -> payable (of_Z z).
Proof.
  intros Hz. unfold of_Z. destruct z as [ | p | p ]; try lia.
  - exact I.
  - cbn [binary_normalize]. unfold binary_round.
    destruct (shl_align p 0 _) as [mz ez]. apply round_aux_payable. lia.
Qed.

Lemma fexp_mono (a b : Z) : a <= b -> fexp prec emax a <= fexp prec emax b.
Proof. unfold fexp. lia. Qed.

(** The shape of what rounding returns, with a bound on the exponent:
    for a mantissa and an exponent whose value is below [2 ^ K], the
    result is a zero or a float of the format whose exponent is at most
    the larger of the given one and the one the format gives to
    [2 ^ K]. *)
Lemma round_aux_shape (sx : bool) (mx ex : Z) (lx : location) (K : Z) :
  0 <= mx -> Zdigits2 mx + ex <= K ->
  Z.max ex (fexp prec emax (K + 1)) <= emax - prec ->
  match binary_round_aux prec emax sx mx ex lx with
  | S754_zero s => s = sx
  | S754_finite s m e =>
      s = sx /\ Zpos (digits2_pos m) <= prec /\ emin prec emax <= e
      /\ e <= Z.max ex (fexp prec emax (K + 1))
  | _ => False
  end.
Proof.
  intros Hm HK Hfit. destruct (round_aux_cases sx mx ex lx Hm) as [m1' [Hr ->]].
  set (n1 := Z.max 0 (fexp prec emax (Zdigits2 mx + ex) - ex)) in *.
  set (e1 := ex + n1) in *.
  set (n2 := Z.max 0 (fexp prec emax (Zdigits2 m1' + e1) - e1)).
  assert (Hn1 : 0 <= n1) by (unfold n1; lia).
  assert (Hn2 : 0 <= n2) by (unfold n2; lia).
  pose proof (pow2_pos n1 Hn1) as Hp1. pose proof (pow2_pos n2 Hn2) as Hp2.
  assert (Hm1 : 0 <= mx / 2 ^ n1) by (apply Z.div_pos; lia).
  assert (H1 : 0 <= m1') by lia.
  assert (He1 : e1 <= Z.max ex (fexp prec emax (K + 1))).
  { pose proof (fexp_mono (Zdigits2 mx + ex) (K + 1) ltac:(lia)). unfold e1, n1. lia. }
  assert (Hd : fexp prec emax (Zdigits2 m1' + e1) <= Z.max e1 (fexp prec emax (K + 1))).
  { destruct (Z.eq_dec (mx / 2 ^ n1) 0) as [E0 | Hne].
    - assert (Hd1 : Zdigits2 m1' <= 1).
      { apply Zdigits2_le_of_lt_pow; [ lia | ]. simpl. lia. }
      pose proof (fexp_ge_emin (K + 1)).
      pose proof (fexp_cases (Zdigits2 m1' + e1)). unfold prec in *. lia.
    - assert (Hmx : 0 < mx).
      { destruct (Z.eq_dec mx 0) as [E | ]; [ | lia ].
        rewrite E, Z.div_0_l in Hne by lia. congruence. }
      destruct (Zdigits2_bounds mx Hmx) as [_ Hhi].
      assert (Hn1d : n1 < Zdigits2 mx).
      { destruct (Z_lt_le_dec n1 (Zdigits2 mx)) as [ | Hge ]; [ assumption | exfalso ].
        assert (2 ^ Zdigits2 mx <= 2 ^ n1) by (apply Z.pow_le_mono_r; lia).
        rewrite Z.div_small in Hne by lia. congruence. }
      assert (Hlt : mx / 2 ^ n1 < 2 ^ (Zdigits2 mx - n1)).
      { apply Z.div_lt_upper_bound; [ lia | ].
        rewrite <- Z.pow_add_r by lia.
        replace (n1 + (Zdigits2 mx - n1)) with (Zdigits2 mx) by lia. exact Hhi. }
      assert (Hd1 : Zdigits2 m1' <= Zdigits2 mx - n1 + 1).
      { apply Zdigits2_le_of_lt_pow; [ lia | ].
        rewrite Z.pow_add_r by lia. simpl (2 ^ 1). lia. }
      pose proof (fexp_mono (Zdigits2 m1' + e1) (K + 1) ltac:(unfold e1; lia)). lia. }
  destruct (m1' / 2 ^ n2) as [ | m | m ] eqn:Em2.
  - reflexivity.
  - assert (He2 : e1 + n2 <= Z.max ex (fexp prec emax (K + 1))) by (unfold n2; lia).
    replace (e1 + n2 <=? emax - prec) with true by (symmetry; apply Z.leb_le; lia).
    split; [ reflexivity | ]. split; [ | split; [ | exact He2 ] ].
    + change (Zdigits2 (Zpos m) <= prec). rewrite <- Em2.
      apply Zdigits2_le_of_lt_pow; [ unfold prec; lia | ].
      split; [ apply Z.div_pos; lia | ].
      apply Z.div_lt_upper_bound; [ lia | ].
      assert (Hpos : 0 < m1').
      { destruct (Z.eq_dec m1' 0) as [E0 | ]; [ | lia ].
        rewrite E0, Z.div_0_l in Em2 by lia. discriminate. }
      destruct (Zdigits2_bounds m1' Hpos) as [_ Hhi].
      rewrite <- Z.pow_add_r by (unfold prec; lia).
      assert (Hle : 2 ^ Zdigits2 m1' <= 2 ^ (n2 + prec)).
      { apply Z.pow_le_mono_r; [ lia | ].
        unfold n2. pose proof (fexp_cases (Zdigits2 m1' + e1)). lia. }
      lia.
    + pose proof (fexp_ge_emin (Zdigits2 m1' + e1)). unfold n2. lia.
  - assert (0 <= m1' / 2 ^ n2) by (apply Z.div_pos; lia). lia.
Qed.

(** A float of the format whose exponent is at most [E]. *)
Definition within (E : Z) (f : float) : Prop :=
  match f with
  | S754_zero _ => True
  | S754_finite _ m e => Zpos (digits2_pos m) <= prec /\ emin prec emax <= e /\ e <= E
  | _ => False
  end.

Lemma round_aux_within (sx : bool) (mx ex : Z) (lx : location) (K E : Z) :
  0 <= mx -> Zdigits2 mx + ex <= K ->
  Z.max ex (fexp prec emax (K + 1)) <= E -> E <= emax - prec ->
  within E (binary_round_aux prec emax sx mx ex lx).
Proof.
  intros Hm HK HE Hfit.
  pose proof (round_aux_shape sx mx ex lx K Hm HK ltac:(lia)) as H.
  destruct (binary_round_aux prec emax sx mx ex lx); cbn; try tauto.
  destruct H as [_ [Hd Hb]]. split; [ exact Hd | ].
  change (emin prec emax) with (-1074) in Hb. lia.
Qed.

Lemma within_finite E f : within E f -> is_finite f = true.
Proof. destruct f; cbn; tauto. Qed.

Lemma digits_lt_pow (m : positive) (k : Z) :
  Zpos (digits2_pos m) <= k -> Zpos m < 2 ^ k.
Proof.
  intros Hk. destruct (digits2_bounds m) as [_ Hhi].
  assert (2 ^ Zpos (digits2_pos m) <= 2 ^ k) by (apply Z.pow_le_mono_r; lia). lia.
Qed.

Lemma binary_round_within (sx : bool) (M : positive) (e K E : Z) :
  Zpos M < 2 ^ (K - e) -> e <= K ->
  Z.max e (fexp prec emax (K + 1)) <= E -> E <= emax - prec ->
  within E (binary_round prec emax sx M e).
Proof.
  intros HM HeK HE Hfit. unfold binary_round.
  destruct (shl_align_spec M e (fexp prec emax (Zpos (digits2_pos M) + e))) as [Hez Hmz].
  destruct (shl_align M e _) as [mz ez]. cbn [fst snd] in Hez, Hmz.
  apply round_aux_within with (K := K); try lia.
  assert (Hlt : Zpos mz < 2 ^ (K - ez)).
  { rewrite Hmz. rewrite (pow2_split (K - ez) (e - ez)) by lia.
    replace (K - ez - (e - ez)) with (K - e) by lia. rewrite Hez.
    pose proof (pow2_pos (e - ez) ltac:(lia)). nia. }
  assert (Zdigits2 (Zpos mz) <= K - ez).
  { apply Zdigits2_le_of_lt_pow; lia. }
  lia.
Qed.

Lemma div_within (sa sb : bool) (pa pb : positive) :
  Zpos pa < 2 ^ 63 ->
  within 11 (SFdiv prec emax (S754_finite sa pa 0) (S754_finite sb pb 0)).
Proof.
  intros Ha. cbn [SFdiv]. unfold SFdiv_core_binary.
  set (d1 := Zdigits2 (Zpos pa)). set (d2 := Zdigits2 (Zpos pb)).
  set (e' := Z.min (fexp prec emax (d1 + 0 - (d2 + 0))) (0 - 0)).
  set (sh := 0 - 0 - e').
  assert (He' : e' <= 0) by (unfold e'; lia).
  assert (Hsh : 0 <= sh) by (unfold sh; lia).
  assert (Hd1 : d1 <= 63) by (unfold d1; apply Zdigits2_le_of_lt_pow; lia).
  assert (Hd0 : 0 <= d1) by apply Zdigits2_nonneg.
  destruct (Zdigits2_bounds (Zpos pa) ltac:(lia)) as [_ Hhi]. fold d1 in Hhi.
  set (m' := match sh with
             | 0 => Zpos pa
             | Zpos _ => Z.shiftl (Zpos pa) sh
             | Zneg _ => 0
             end).
  assert (Hm' : m' = Zpos pa * 2 ^ sh).
  { unfold m'. destruct sh eqn:Es.
    - simpl. lia.
    - rewrite Z.shiftl_mul_pow2 by lia. reflexivity.
    - lia. }
  pose proof (Z.div_eucl_eq m' (Zpos pb) ltac:(lia)) as Heq.
  pose proof (Z.mod_pos_bound m' (Zpos pb) ltac:(lia)) as Hmod.
  unfold Z.modulo in Hmod.
  destruct (Z.div_eucl m' (Zpos pb)) as [q r].
  pose proof (pow2_pos sh Hsh) as Hps.
  assert (Hq0 : 0 <= q) by nia.
  assert (Hqm : q <= m') by nia.
  assert (Hqd : Zdigits2 q <= d1 + sh).
  { apply Zdigits2_le_of_lt_pow; [ lia | ].
    rewrite Z.pow_add_r by lia. nia. }
  apply round_aux_within with (K := 63).
  - exact Hq0.
  - unfold sh in Hqd. lia.
  - change (fexp prec emax (63 + 1)) with 11. lia.
  - unfold prec, emax. lia.
Qed.

(** The quotient of two integers, the first below [2 ^ 63] in absolute
    value, is a finite float: the division does not overflow. *)
Lemma truediv_within (a b : Z) :
  Z.abs a < 2 ^ 63 -> b <> 0 ->
  exists q, truediv a b = Ok q /\ within 11 q.
Proof.
  intros Ha Hb. unfold truediv.
  destruct a as [ | pa | pa ]; destruct b as [ | pb | pb ]; try congruence;
    try (eexists; split; [ reflexivity | exact I ]);
    cbn [Z.abs Z.to_pos] in *;
    match goal with
    | |- context [SFdiv prec emax (S754_finite ?sa ?ma 0) (S754_finite ?sb ?mb 0)] =>
        pose proof (div_within sa sb ma mb Ha) as Hq;
        rewrite (within_finite _ _ Hq); eexists; split; [ reflexivity | exact Hq ]
    end.
Qed.

Lemma one_is : of_Z 1 = S754_finite false 4503599627370496 (-52).
Proof. vm_compute. reflexivity. Qed.

Lemma hundred_is : of_Z 100 = S754_finite false 7036874417766400 (-46).
Proof. vm_compute. reflexivity. Qed.

Lemma binary_normalize_within (m e K E : Z) :
  Z.abs m < 2 ^ (K - e) -> e <= K ->
  Z.max e (fexp prec emax (K + 1)) <= E -> E <= emax - prec ->
  within E (binary_normalize prec emax m e false).
Proof.
  intros Hm HeK HE Hfit. destruct m as [ | M | M ]; cbn [binary_normalize].
  - exact I.
  - apply binary_round_within with (K := K); auto.
  - apply binary_round_within with (K := K); auto.
Qed.

(** [1 - q] for a quotient as above. *)
Lemma sub_one_within (q : float) : within 11 q -> within 13 (sub (of_Z 1) q).
Proof.
  intros Hq. rewrite one_is. unfold sub.
  destruct q as [sq | sq | | sq mq eq]; cbn in Hq; try contradiction.
  - cbn. unfold prec, emin, emax. lia.
  - destruct Hq as [Hd [Hlo Hhi]]. cbn [SFsub].
    destruct (shl_align_spec 4503599627370496 (-52) (Z.min (-52) eq)) as [_ Hax].
    destruct (shl_align_spec mq eq (Z.min (-52) eq)) as [_ Haq].
    replace (Z.min (-52) (Z.min (-52) eq)) with (Z.min (-52) eq) in Hax by lia.
    replace (Z.min eq (Z.min (-52) eq)) with (Z.min (-52) eq) in Haq by lia.
    set (ez := Z.min (-52) eq) in *.
    set (X := Zpos (fst (shl_align 4503599627370496 (-52) ez))) in *.
    set (Y := Zpos (fst (shl_align mq eq ez))) in *.
    pose proof (digits_lt_pow mq prec Hd) as Hmq.
    assert (HX : X = 2 ^ (- ez)).
    { rewrite Hax. change 4503599627370496 with (2 ^ 52).
      rewrite <- Z.pow_add_r by lia. f_equal. lia. }
    assert (HY : Y < 2 ^ (64 - ez)).
    { rewrite Haq. rewrite (pow2_split (64 - ez) (eq - ez)) by lia.
      replace (64 - ez - (eq - ez)) with (64 - eq) by lia.
      pose proof (pow2_pos (eq - ez) ltac:(lia)).
      assert (2 ^ prec <= 2 ^ (64 - eq)) by (apply Z.pow_le_mono_r; unfold prec; lia).
      nia. }
    assert (HXY : X + Y < 2 ^ (65 - ez)).
    { rewrite (pow2_split (65 - ez) 1) by lia. replace (65 - ez - 1) with (64 - ez) by lia.
      assert (2 ^ (- ez) <= 2 ^ (64 - ez)) by (apply Z.pow_le_mono_r; lia).
      simpl (2 ^ 1). lia. }
    assert (HX0 : 0 < X) by (unfold X; lia).
    assert (HY0 : 0 < Y) by (unfold Y; lia).
    apply binary_normalize_within with (K := 65).
    + unfold cond_Zopp. destruct sq; lia.
    + lia.
    + change (fexp prec emax (65 + 1)) with 13. lia.
    + unfold prec, emax. lia.
Qed.

(** [100 * y] for such a difference. *)
Lemma mul_hundred_within (y : float) : within 13 y -> within 21 (mul (of_Z 100) y).
Proof.
  intros Hy. rewrite hundred_is. unfold mul.
  destruct y as [sy | sy | | sy my ey]; cbn in Hy; try contradiction.
  - exact I.
  - destruct Hy as [Hd [Hlo Hhi]]. cbn [SFmul].
    pose proof (digits_lt_pow my prec Hd) as Hmy.
    apply round_aux_within with (K := 73).
    + lia.
    + assert (Zdigits2 (Zpos (7036874417766400 * my)) <= 106).
      { apply Zdigits2_le_of_lt_pow; [ lia | ].
        rewrite Pos2Z.inj_mul.
        assert (7036874417766400 < 2 ^ 53) by (simpl; lia).
        change (2 ^ 106) with (2 ^ 53 * 2 ^ 53). unfold prec in Hmy. nia. }
      lia.
    + change (fexp prec emax (73 + 1)) with 21. lia.
    + unfold prec, emax. lia.
Qed.

Lemma trunc_within E (f : float) : within E f -> exists z, trunc f = Ok z.
Proof. destruct f; cbn; try tauto; intros _; eexists; reflexivity. Qed.

End F64Facts.

(** ** A program logic for invariants

    [triple Inv Exc c post]: from a state in [Inv], [c] ends in a state
    in [Inv], with a value in [post] when it returns and an exception in
    [Exc] when it raises. *)

Section Logic.
Context {W : Type}.
Variable Inv : agent W -> Prop.

Definition triple {A} (Exc : exn -> Prop) (c : M W A) (post : A -> Prop) : Prop :=
  forall s, Inv s ->
    match c s with
    | (Ok a, s') => Inv s' /\ post a
    | (Raise e, s') => Inv s' /\ Exc e
    end.

Definition any {A} : A -> Prop := fun _ => True.

Lemma triple_ret {A} Exc (a : A) (post : A -> Prop) :
  post a -> triple Exc (ret a) post.
Proof. intros Hp s Hs. simpl. auto. Qed.

Lemma triple_raise {A} (Exc : exn -> Prop) e (post : A -> Prop) :
  Exc e -> triple Exc (raise e) post.
Proof. intros He s Hs. simpl. auto. Qed.

Lemma triple_lift {A} (Exc : exn -> Prop) (o : outcome A) (post : A -> Prop) :
  match o with Ok a => post a | Raise e => Exc e end ->
  triple Exc (lift o) post.
Proof. intros Ho s Hs. unfold lift. destruct o; auto. Qed.

Lemma triple_gets {A} Exc (f : agent W -> A) (post : A -> Prop) :
  (forall s, Inv s -> post (f s)) -> triple Exc (gets f) post.
Proof. intros Hf s Hs. simpl. auto. Qed.

Lemma triple_modify Exc (f : agent W -> agent W) (post : unit -> Prop) :
  (forall s, Inv s -> Inv (f s)) -> post tt -> triple Exc (modify f) post.
Proof. intros Hf Hp s Hs. simpl. auto. Qed.

Lemma triple_bind {A B} Exc (c : M W A) (k : A -> M W B) mid post :
  triple Exc c mid ->
  (forall a, mid a -> triple Exc (k a) post) ->
  triple Exc (bind c k) post.
Proof.
  intros Hc Hk s Hs. unfold bind.
  specialize (Hc s Hs). destruct (c s) as [[a | e] s1].
  - destruct Hc as [H1 Ha]. exact (Hk a Ha s1 H1).
  - exact Hc.
Qed.

Lemma triple_weaken {A} (Exc Exc' : exn -> Prop) (c : M W A) (post post' : A -> Prop) :
  triple Exc c post ->
  (forall a, post a -> post' a) ->
  (forall e, Exc e -> Exc' e) ->
  triple Exc' c post'.
Proof.
  intros Hc Hp He s Hs. specialize (Hc s Hs).
  destruct (c s) as [[a | e] s1]; destruct Hc; auto.
Qed.

Lemma triple_catch {A} (Exc Exc' : exn -> Prop) (c : M W A) h post :
  triple Exc' c post ->
  (forall e, Exc' e -> triple Exc (h e) post) ->
  triple Exc (catch c h) post.
Proof.
  intros Hc Hh s Hs. unfold catch.
  specialize (Hc s Hs). destruct (c s) as [[a | e] s1].
  - exact Hc.
  - destruct Hc as [H1 He]. exact (Hh e He s1 H1).
Qed.

Lemma triple_finally {A B} Exc (c : M W A) (f : M W B) post postf :
  triple Exc c post ->
  triple Exc f postf ->
  triple Exc (finally c f) post.
Proof.
  intros Hc Hf s Hs. unfold finally.
  specialize (Hc s Hs). destruct (c s) as [r s1].
  assert (H1 : Inv s1) by (destruct r; tauto).
  specialize (Hf s1 H1). destruct (f s1) as [[b | e] s2].
  - destruct r; tauto.
  - exact Hf.
Qed.

Lemma triple_ext {A} Exc (c c' : M W A) post :
  (forall s, c s = c' s) -> triple Exc c post -> triple Exc c' post.
Proof. intros Heq Hc s Hs. rewrite <- Heq. exact (Hc s Hs). Qed.

(** A collaborator's operation whose results are in [post] and whose
    exceptions are in [Exc], whatever the state of the world. *)
Definition behaves {A} (Exc : exn -> Prop) (f : W -> outcome A * W) (post : A -> Prop)
  : Prop :=
  forall w, match f w with
            | (Ok a, _) => post a
            | (Raise e, _) => Exc e
            end.

Lemma triple_call {A} Exc (f : W -> outcome A * W) post :
  (forall s w, Inv s -> Inv (set_world w s)) ->
  behaves Exc f post ->
  triple Exc (call f) post.
Proof.
  intros Hw Hf s Hs. unfold call.
  specialize (Hf (world s)). destruct (f (world s)) as [[a | e] w]; auto.
Qed.

Lemma triple_call_logged {A} Exc (f : W -> outcome A * W) ev post :
  (forall s w r, Inv s -> Inv (set_trace (trace s ++ [ev r]) (set_world w s))) ->
  behaves Exc f post ->
  triple Exc (call_logged f ev) post.
Proof.
  intros Hw Hf s Hs. unfold call_logged.
  specialize (Hf (world s)). destruct (f (world s)) as [[a | e] w]; auto.
Qed.

End Logic.

(** What an invariant has to tolerate, and what the collaborators have
    to honour, for the methods to keep it.  [good] is the property of the
    messages that enter the sequence. *)
Section Methods.
Context {W : Type} `{MW : Model W} `{EW : Environment W} `{SW : Storage W} `{L : Library}.
Variable Inv : agent W -> Prop.
Variable Exc : exn -> Prop.
Variable good : value -> Prop.

Record tolerant : Prop := {
  tol_world : forall s w, Inv s -> Inv (set_world w s);
  tol_log : forall s ev, is_query ev = false -> Inv s ->
            Inv (set_trace (trace s ++ [ev]) s);
  tol_append : forall s ms, Inv s -> Forall good ms ->
               Inv (set_messages (messages s ++ ms) s);
  tol_reset : forall s, Inv s -> Inv (set_messages [] s);
  tol_vars : forall s v, Inv s -> Inv (set_extra_template_vars v s);
  tol_exception : forall cls text, Exc (Exception cls text);
  tol_interrupt : forall cls ms, Exc (InterruptAgentFlow cls ms) -> Forall good ms;
  tol_prompt : forall role content,
    String.eqb role "exit" = false ->
    good (VDict [("role", VStr role); ("content", VStr content)]);
  tol_exit : forall e, good (VDict (exit_kwargs e))
}.

Record rely : Prop := {
  rely_format_message :
    forall kw, good (VDict kw) -> behaves Exc (model_format_message kw) good;
  rely_format_observation_messages :
    forall m outputs vars,
      behaves Exc (model_format_observation_messages m outputs vars) (Forall good);
  rely_model_get_template_vars : behaves Exc model_get_template_vars any;
  rely_model_serialize : behaves Exc model_serialize any;
  rely_env_execute : forall a, behaves Exc (env_execute a) any;
  rely_env_get_template_vars : behaves Exc env_get_template_vars any;
  rely_env_serialize : behaves Exc env_serialize any;
  rely_write_text : forall p d, behaves Exc (write_text p d) any;
  rely_render : forall t v, match render t v with Ok _ => True | Raise e => Exc e end
}.

Hypothesis Tol : tolerant.
Hypothesis Rely : rely.

Lemma Exc_get v k d : match get v k d with Ok _ => True | Raise e => Exc e end.
Proof. destruct v; simpl; auto; apply (tol_exception Tol). Qed.

Lemma Exc_iterate v : match iterate v with Ok _ => True | Raise e => Exc e end.
Proof. destruct v; simpl; auto; apply (tol_exception Tol). Qed.

Lemma tol_call_logged s w ev :
  is_query ev = false -> Inv s -> Inv (set_trace (trace s ++ [ev]) (set_world w s)).
Proof.
  intros Hq Hs. apply (tol_log Tol (set_world w s) ev Hq). apply (tol_world Tol); exact Hs.
Qed.

Lemma triple_warning text e : triple Inv Exc (warning text e) any.
Proof.
  apply triple_modify; [ | exact I ].
  intros s Hs. apply (tol_log Tol); auto.
Qed.

Lemma triple_add_messages msgs :
  Forall good msgs -> triple Inv Exc (add_messages msgs) (fun r => r = msgs).
Proof.
  intros Hm. unfold add_messages.
  eapply triple_bind with (mid := any).
  { apply triple_modify; [ | exact I ]. intros s Hs. apply (tol_append Tol); auto. }
  intros _ _. eapply triple_bind with (mid := any).
  { apply triple_gets. intros; exact I. }
  intros path _. eapply triple_bind with (mid := any).
  - destruct path as [p | ].
    + eapply triple_catch with (Exc' := any).
      * apply triple_call_logged; [ | intros w; destruct (append_lines p msgs w) as [[] ?]; exact I ].
        intros s w r Hs. apply tol_call_logged; auto.
      * intros e _. apply triple_warning.
    + apply triple_ret. exact I.
  - intros _ _. apply triple_ret. reflexivity.
Qed.

Lemma triple_get_template_vars kwargs :
  triple Inv Exc (get_template_vars kwargs) any.
Proof.
  unfold get_template_vars.
  eapply triple_bind with (mid := any); [ apply triple_gets; intros; exact I | intros cfg _ ].
  eapply triple_bind with (mid := any).
  { apply triple_call; [ apply (tol_world Tol) | apply (rely_env_get_template_vars Rely) ]. }
  intros ev _. eapply triple_bind with (mid := any).
  { apply triple_call; [ apply (tol_world Tol) | apply (rely_model_get_template_vars Rely) ]. }
  intros mv _. eapply triple_bind with (mid := any); [ apply triple_gets; intros; exact I | intros s _ ].
  apply triple_ret. exact I.
Qed.

Lemma triple_render_template template :
  triple Inv Exc (_render_template template) any.
Proof.
  unfold _render_template.
  eapply triple_bind with (mid := any); [ apply triple_get_template_vars | intros vars _ ].
  apply triple_lift. apply (rely_render Rely).
Qed.

Lemma triple_handle_uncaught_exception e :
  triple Inv Exc (handle_uncaught_exception e) any.
Proof.
  unfold handle_uncaught_exception.
  eapply triple_bind with (mid := good).
  { apply triple_call; [ apply (tol_world Tol) | apply (rely_format_message Rely) ].
    apply (tol_exit Tol). }
  intros m Hm. eapply triple_weaken.
  - apply triple_add_messages. constructor; [ exact Hm | constructor ].
  - intros; exact I.
  - auto.
Qed.

Lemma triple_execute_all actions : triple Inv Exc (execute_all actions) any.
Proof.
  induction actions as [ | action rest IH ]; simpl.
  - apply triple_ret. exact I.
  - eapply triple_bind with (mid := any).
    { apply triple_call_logged; [ | apply (rely_env_execute Rely) ].
      intros s w r Hs. apply tol_call_logged; auto. }
    intros output _. eapply triple_bind with (mid := any); [ exact IH | intros outputs _ ].
    apply triple_ret. exact I.
Qed.

Lemma triple_execute_actions message :
  triple Inv Exc (execute_actions message) any.
Proof.
  unfold execute_actions.
  eapply triple_bind with (mid := any); [ apply triple_lift, Exc_get | intros extra _ ].
  eapply triple_bind with (mid := any); [ apply triple_lift, Exc_get | intros declared _ ].
  eapply triple_bind with (mid := any); [ apply triple_lift, Exc_iterate | intros actions _ ].
  eapply triple_bind with (mid := any); [ apply triple_execute_all | intros outputs _ ].
  eapply triple_bind with (mid := any); [ apply triple_get_template_vars | intros vars _ ].
  eapply triple_bind with (mid := Forall good).
  { apply triple_call; [ apply (tol_world Tol) | apply (rely_format_observation_messages Rely) ]. }
  intros obs Hobs. eapply triple_weaken; [ apply triple_add_messages; exact Hobs | intros; exact I | auto ].
Qed.

Lemma triple_serialize extra_dicts : triple Inv Exc (serialize extra_dicts) any.
Proof.
  unfold serialize.
  eapply triple_bind with (mid := any); [ apply triple_gets; intros; exact I | intros msgs _ ].
  eapply triple_bind with (mid := any); [ apply triple_lift, Exc_get | intros last_extra _ ].
  eapply triple_bind with (mid := any); [ apply triple_gets; intros; exact I | intros s _ ].
  eapply triple_bind with (mid := any); [ apply triple_lift, Exc_get | intros exit_status _ ].
  eapply triple_bind with (mid := any); [ apply triple_lift, Exc_get | intros submission _ ].
  eapply triple_bind with (mid := any).
  { apply triple_call; [ apply (tol_world Tol) | apply (rely_model_serialize Rely) ]. }
  intros ms _. eapply triple_bind with (mid := any).
  { apply triple_call; [ apply (tol_world Tol) | apply (rely_env_serialize Rely) ]. }
  intros es _. apply triple_ret. exact I.
Qed.

Lemma triple_save path extra_dicts : triple Inv Exc (save path extra_dicts) any.
Proof.
  unfold save.
  eapply triple_bind with (mid := any); [ apply triple_serialize | intros data _ ].
  eapply triple_bind with (mid := any).
  - destruct path as [p | ].
    + apply triple_call_logged; [ | apply (rely_write_text Rely) ].
      intros s w r Hs. apply tol_call_logged; auto.
    + apply triple_ret. exact I.
  - intros _ _. apply triple_ret. exact I.
Qed.

Lemma triple_on_exception e : Exc e -> triple Inv Exc (on_exception e) any.
Proof.
  intros He. destruct e as [cls ms | cls text]; simpl.
  - eapply triple_bind with (mid := any).
    + eapply triple_weaken; [ apply triple_add_messages | intros; exact I | auto ].
      exact (tol_interrupt Tol cls ms He).
    + intros _ _. apply triple_ret. exact I.
  - eapply triple_bind with (mid := any); [ apply triple_handle_uncaught_exception | intros _ _ ].
    apply triple_raise. exact He.
Qed.

Lemma triple_last_message : triple Inv Exc last_message any.
Proof.
  unfold last_message.
  eapply triple_bind with (mid := any); [ apply triple_gets; intros; exact I | intros msgs _ ].
  destruct msgs.
  - apply triple_raise. apply (tol_exception Tol).
  - apply triple_ret. exact I.
Qed.

Lemma triple_result : triple Inv Exc result any.
Proof.
  unfold result.
  eapply triple_bind with (mid := any); [ apply triple_last_message | intros m _ ].
  apply triple_lift, Exc_get.
Qed.

(** The increment of [n_calls] and the call of the model, which an
    invariant on the log sees as one move. *)
Lemma triple_issue_query {B} (goodq : value -> Prop) (k : value -> M W B) post :
  (forall s w r, Inv s ->
     Inv (set_trace (trace s ++ [EvQuery (messages s) r])
            (set_world w (set_n_calls (n_calls s + 1) s)))) ->
  (forall h, behaves Exc (model_query h) goodq) ->
  (forall m, goodq m -> triple Inv Exc (k m) post) ->
  triple Inv Exc
    (modify (fun s => set_n_calls (n_calls s + 1) s) ;;
     history <- gets messages ;;
     message <- call_logged (model_query history) (EvQuery history) ;;
     k message) post.
Proof.
  intros Hmove Hq Hk s Hs.
  unfold bind at 1. unfold modify. unfold bind at 1. unfold gets.
  unfold bind at 1. unfold call_logged. simpl.
  specialize (Hq (messages s) (world s)).
  pose proof (Hmove s) as Hm.
  destruct (model_query (messages s) (world s)) as [[m | e] w].
  - apply (Hk m Hq). apply Hm. exact Hs.
  - split; [ apply Hm; exact Hs | exact Hq ].
Qed.

Lemma triple_resolve_generic :
  (forall s n, Inv s -> Inv (set_context_window_max (Some n) s)) ->
  behaves Exc load_context_window_map any ->
  (forall name n, behaves Exc (update_context_window_map name n) any) ->
  triple Inv Exc _resolve_context_window_max any.
Proof.
  intros Hmax Hload Hupd. unfold _resolve_context_window_max.
  eapply triple_bind with (mid := any); [ apply triple_gets; intros; exact I | intros known _ ].
  destruct known as [n | ]; [ apply triple_ret; exact I | ].
  eapply triple_bind with (mid := any); [ apply triple_gets; intros; exact I | intros name _ ].
  destruct name; try (apply triple_ret; exact I).
  destruct (String.eqb s ""); [ apply triple_ret; exact I | ].
  destruct (String.eqb (strip s) ""); [ apply triple_ret; exact I | ].
  eapply triple_bind with (mid := any).
  { apply triple_call_logged; [ | exact Hload ].
    intros s0 w r Hs. apply tol_call_logged; auto. }
  intros cm _.
  eapply triple_bind with (mid := any); [ apply triple_gets; intros; exact I | intros mode _ ].
  eapply triple_bind with (mid := any).
  - destruct (lookup_context_window (strip s) cm) as [n | ].
    + apply triple_ret. exact I.
    + destruct (String.eqb mode "interactive"); [ | apply triple_ret; exact I ].
      eapply triple_bind with (mid := any); [ apply triple_ret; exact I | intros r _ ].
      eapply triple_bind with (mid := any).
      * destruct r as [n | ]; [ | apply triple_ret; exact I ].
        apply triple_call_logged; [ | apply Hupd ].
        intros s0 w r Hs. apply tol_call_logged; auto.
      * intros _ _. apply triple_ret. exact I.
  - intros resolved _. destruct resolved as [n | ]; [ | apply triple_ret; exact I ].
    eapply triple_bind with (mid := any).
    { apply triple_modify; [ | exact I ]. intros s0 Hs. apply Hmax; exact Hs. }
    intros _ _.
    destruct (existsb _ _); [ apply triple_ret; exact I | ].
    apply triple_call_logged; [ | apply Hupd ].
    intros s0 w r Hs. apply tol_call_logged; auto.
Qed.

Lemma Exc_obind {A B} (o : outcome A) (k : A -> outcome B) :
  match o with Ok _ => True | Raise e => Exc e end ->
  (forall a, match k a with Ok _ => True | Raise e => Exc e end) ->
  match obind o k with Ok _ => True | Raise e => Exc e end.
Proof. intros Ho Hk. destruct o; simpl; auto. apply Hk. Qed.

Lemma Exc_resolve_usage m :
  match resolve_usage m with Ok _ => True | Raise e => Exc e end.
Proof.
  unfold resolve_usage.
  apply Exc_obind; [ apply Exc_get | intros extra0 ].
  apply Exc_obind; [ apply Exc_get | intros response ].
  apply Exc_obind; [ destruct (truthy response && is_dict response); [ apply Exc_get | exact I ] | intros usage ].
  apply Exc_obind; [ apply Exc_get | intros top ].
  exact I.
Qed.

Lemma Exc_extract m :
  match _extract_prompt_tokens m with Ok _ => True | Raise e => Exc e end.
Proof.
  unfold _extract_prompt_tokens.
  apply Exc_obind; [ apply Exc_resolve_usage | intros usage ].
  destruct usage; exact I.
Qed.

Lemma Exc_truediv a b : match F64.truediv a b with Ok _ => True | Raise e => Exc e end.
Proof.
  pose proof (tol_exception Tol) as HE.
  unfold F64.truediv, F64.OverflowError.
  destruct a, b; auto; destruct (F64.is_finite _); auto.
Qed.

Lemma Exc_trunc f : match F64.trunc f with Ok _ => True | Raise e => Exc e end.
Proof.
  pose proof (tol_exception Tol) as HE.
  unfold F64.trunc, F64.OverflowError. destruct f; auto.
Qed.

Lemma Exc_left_of p size : match left_of p size with Ok _ => True | Raise e => Exc e end.
Proof.
  unfold left_of.
  apply Exc_obind; [ apply Exc_truediv | intros q; apply Exc_trunc ].
Qed.

Lemma triple_update_generic (goodq : value -> Prop) message :
  (forall s v, Inv s -> Inv (set_context_window_prompt_tokens v s)) ->
  (forall s v, Inv s -> Inv (set_context_left_percent v s)) ->
  (forall d v, goodq (VDict d) -> goodq (VDict (store "context_left_percent" v d))) ->
  goodq message ->
  triple Inv Exc (_update_context_window_stats message) goodq.
Proof.
  intros Htok Hleft Hstore Hm. unfold _update_context_window_stats.
  eapply triple_bind with (mid := any); [ apply triple_lift, Exc_extract | intros tokens _ ].
  destruct (is_none tokens); [ apply triple_ret; exact Hm | ].
  eapply triple_bind with (mid := any).
  { apply triple_modify; [ | exact I ]. intros s Hs. apply Htok; exact Hs. }
  intros _ _.
  eapply triple_bind with (mid := any); [ apply triple_gets; intros; exact I | intros known _ ].
  destruct known as [size | ]; [ | apply triple_ret; exact Hm ].
  destruct (size =? 0); [ apply triple_ret; exact Hm | ].
  eapply triple_bind with (mid := any).
  { apply triple_lift. destruct (int_value tokens).
    - apply Exc_left_of.
    - apply (tol_exception Tol). }
  intros left _.
  eapply triple_bind with (mid := any).
  { apply triple_modify; [ | exact I ]. intros s Hs. apply Hleft; exact Hs. }
  intros _ _. destruct message; try (apply triple_raise; apply (tol_exception Tol)).
  apply triple_ret. apply Hstore. exact Hm.
Qed.

Lemma Exc_float_plus c v :
  match float_plus c v with Ok _ => True | Raise e => Exc e end.
Proof.
  pose proof (tol_exception Tol) as HE.
  destruct v as [ | b | z | f | t | l | d | md dd ]; simpl; auto;
    try (unfold TypeError; apply HE).
  unfold F64.of_int, F64.OverflowError. destruct (F64.is_finite (F64.of_Z z)); simpl; auto.
Qed.

Lemma triple_account_cost_generic m :
  (forall s c, Inv s -> Inv (set_cost c s)) ->
  triple Inv Exc (account_cost m) any.
Proof.
  intros Hcost. unfold account_cost.
  eapply triple_bind with (mid := any); [ apply triple_lift, Exc_get | intros extra _ ].
  eapply triple_bind with (mid := any); [ apply triple_lift, Exc_get | intros declared _ ].
  eapply triple_bind with (mid := any); [ apply triple_gets; intros; exact I | intros c _ ].
  eapply triple_bind with (mid := any); [ apply triple_lift, Exc_float_plus | intros c' _ ].
  apply triple_modify; [ | exact I ]. intros s0 Hs0. apply Hcost. exact Hs0.
Qed.

Lemma query_unfold :
  query
  = (over <- gets limits_exceeded ;;
     if over then raise (LimitsExceeded limits_message)
     else
       known <- gets context_window_max ;;
       match known with
       | None => _resolve_context_window_max
       | Some _ => ret tt
       end ;;
       modify (fun s => set_n_calls (n_calls s + 1) s) ;;
       history <- gets messages ;;
       message <- call_logged (model_query history) (EvQuery history) ;;
       record_response message).
Proof. reflexivity. Qed.

Lemma triple_record_response (goodq : value -> Prop) m :
  (forall m, goodq m -> triple Inv Exc (_update_context_window_stats m) goodq) ->
  (forall m, goodq m -> triple Inv Exc (account_cost m) any) ->
  (forall m, goodq m -> good m) ->
  goodq m ->
  triple Inv Exc (record_response m) any.
Proof.
  intros Hupd Hcost Hgood Hm. unfold record_response.
  eapply triple_bind with (mid := goodq); [ apply Hupd; exact Hm | intros m' Hm' ].
  apply triple_ext with (c := account_cost m' ;; add_messages [m'] ;; ret m').
  { intros s. unfold account_cost, bind, lift, gets, modify. cbv beta.
    destruct (get m' "extra" (VDict [])) as [extra | e]; [ | reflexivity ].
    destruct (get extra "cost" (VFloat F64.zero)) as [declared | e]; [ | reflexivity ].
    destruct (float_plus (cost s) declared) as [c' | e]; reflexivity. }
  eapply triple_bind with (mid := any); [ apply Hcost; exact Hm' | intros _ _ ].
  eapply triple_bind with (mid := any).
  - eapply triple_weaken; [ apply triple_add_messages | intros; exact I | auto ].
    constructor; [ apply Hgood; exact Hm' | constructor ].
  - intros _ _. apply triple_ret. exact I.
Qed.

Lemma triple_query_generic (goodq : value -> Prop) :
  Exc (LimitsExceeded limits_message) ->
  triple Inv Exc _resolve_context_window_max any ->
  (forall s w r, Inv s ->
     Inv (set_trace (trace s ++ [EvQuery (messages s) r])
            (set_world w (set_n_calls (n_calls s + 1) s)))) ->
  (forall h, behaves Exc (model_query h) goodq) ->
  (forall m, goodq m -> triple Inv Exc (_update_context_window_stats m) goodq) ->
  (forall m, goodq m -> triple Inv Exc (account_cost m) any) ->
  (forall m, goodq m -> good m) ->
  triple Inv Exc query any.
Proof.
  intros Hlim Hres Hmove Hq Hupd Hcost Hgood. rewrite query_unfold.
  eapply triple_bind with (mid := any); [ apply triple_gets; intros; exact I | intros over _ ].
  destruct over; [ apply triple_raise; exact Hlim | ].
  eapply triple_bind with (mid := any); [ apply triple_gets; intros; exact I | intros known _ ].
  eapply triple_bind with (mid := any).
  { destruct known; [ apply triple_ret; exact I | exact Hres ]. }
  intros _ _.
  apply triple_issue_query with (goodq := goodq); [ exact Hmove | exact Hq | ].
  intros m Hm. apply triple_record_response with (goodq := goodq); assumption.
Qed.

(** The two methods that an invariant may depend on. *)
Hypothesis triple_resolve : triple Inv Exc _resolve_context_window_max any.
Hypothesis triple_query : triple Inv Exc query any.

Lemma triple_step : triple Inv Exc step any.
Proof.
  unfold step.
  eapply triple_bind with (mid := any); [ exact triple_query | intros m _ ].
  apply triple_execute_actions.
Qed.

Lemma triple_turn : triple Inv Exc turn any.
Proof.
  unfold turn.
  eapply triple_bind with (mid := any).
  - eapply triple_finally with (postf := any).
    + eapply triple_catch with (Exc' := Exc).
      * eapply triple_bind with (mid := any); [ apply triple_step | intros _ _ ].
        apply triple_ret. exact I.
      * intros e He. apply triple_on_exception. exact He.
    + eapply triple_bind with (mid := any); [ apply triple_gets; intros; exact I | intros path _ ].
      apply triple_save.
  - intros _ _.
    eapply triple_bind with (mid := any); [ apply triple_last_message | intros m _ ].
    eapply triple_bind with (mid := any); [ apply triple_lift, Exc_get | intros role _ ].
    apply triple_ret. exact I.
Qed.

Lemma triple_start task kwargs : triple Inv Exc (start task kwargs) any.
Proof.
  unfold start.
  eapply triple_bind with (mid := any).
  { apply triple_modify; [ | exact I ]. intros s Hs. apply (tol_vars Tol); exact Hs. }
  intros _ _. eapply triple_bind with (mid := any).
  { apply triple_modify; [ | exact I ]. intros s Hs. apply (tol_reset Tol); exact Hs. }
  intros _ _. eapply triple_bind with (mid := any); [ exact triple_resolve | intros _ _ ].
  eapply triple_bind with (mid := any); [ apply triple_gets; intros; exact I | intros cfg _ ].
  eapply triple_bind with (mid := any); [ apply triple_render_template | intros sc _ ].
  eapply triple_bind with (mid := good).
  { apply triple_call; [ apply (tol_world Tol) | apply (rely_format_message Rely) ].
    apply (tol_prompt Tol). reflexivity. }
  intros sys Hsys.
  eapply triple_bind with (mid := any); [ apply triple_render_template | intros uc _ ].
  eapply triple_bind with (mid := good).
  { apply triple_call; [ apply (tol_world Tol) | apply (rely_format_message Rely) ].
    apply (tol_prompt Tol). reflexivity. }
  intros usr Husr.
  eapply triple_bind with (mid := any).
  { eapply triple_weaken; [ apply triple_add_messages | intros; exact I | auto ].
    repeat constructor; assumption. }
  intros _ _. apply triple_ret. exact I.
Qed.

(** The invariant holds when the loop ends, however it ends. *)
Lemma run_loop_invariant fuel : forall s r s',
  Inv s -> run_loop fuel s = Some (r, s') -> Inv s'.
Proof.
  induction fuel as [ | fuel IH ]; intros s r s' Hs Hrun; simpl in Hrun.
  - discriminate.
  - pose proof (triple_turn s Hs) as Ht.
    destruct (turn s) as [[b | e] s1].
    + destruct Ht as [H1 _]. destruct b.
      * pose proof (triple_result s1 H1) as Hr.
        destruct (result s1) as [r2 s2]. injection Hrun as <- <-.
        destruct r2; tauto.
      * exact (IH s1 r s' H1 Hrun).
    + injection Hrun as <- <-. tauto.
Qed.

Lemma run_invariant fuel task kwargs s r s' :
  Inv s -> run fuel task kwargs s = Some (r, s') -> Inv s'.
Proof.
  intros Hs Hrun. unfold run in Hrun.
  pose proof (triple_start task kwargs s Hs) as Ht.
  destruct (start task kwargs s) as [[u | e] s1].
  - destruct Ht as [H1 _]. exact (run_loop_invariant fuel s1 r s' H1 Hrun).
  - injection Hrun as <- <-. tauto.
Qed.

End Methods.

(** ** Dictionaries *)

Lemma lookup_store_same k v d : lookup k (store k v d) = Some v.
Proof.
  induction d as [ | [k' v'] rest IH ]; simpl.
  - rewrite String.eqb_refl. reflexivity.
  - destruct (String.eqb k' k) eqn:E; simpl.
    + rewrite String.eqb_refl. reflexivity.
    + rewrite E. exact IH.
Qed.

Lemma lookup_store_other k k' v d :
  String.eqb k' k = false -> lookup k (store k' v d) = lookup k d.
Proof.
  intros Hk. induction d as [ | [k0 v0] rest IH ]; simpl.
  - rewrite Hk. reflexivity.
  - destruct (String.eqb k0 k') eqn:E; simpl.
    + apply String.eqb_eq in E. subst k0. rewrite Hk. reflexivity.
    + destruct (String.eqb k0 k); [ reflexivity | exact IH ].
Qed.

Lemma well_formed_store v d :
  well_formed (VDict d) -> well_formed (VDict (store "context_left_percent" v d)).
Proof.
  intros Hwf d' Hd' Hrole. injection Hd' as <-.
  unfold dict_get in Hrole. rewrite lookup_store_other in Hrole by reflexivity.
  destruct (Hwf d eq_refl Hrole) as [extra [He Ht]].
  exists extra. split; [ | exact Ht ].
  rewrite lookup_store_other by reflexivity. exact He.
Qed.

Lemma well_formed_limits_message : well_formed limits_message.
Proof.
  intros d Hd _. injection Hd as <-.
  eexists. split; [ reflexivity | ]. split; discriminate.
Qed.

(** ** The context-window tracker *)

Section Tracker.
Context {W : Type} `{MW : Model W} `{EW : Environment W} `{SW : Storage W} `{L : Library}.

(** When no token count is extracted the update is the identity. *)
Lemma update_without_tokens (message : value) (s : agent W) :
  _extract_prompt_tokens message = Ok VNone ->
  _update_context_window_stats message s = (Ok message, s).
Proof.
  intros He. unfold _update_context_window_stats, bind, lift. rewrite He. reflexivity.
Qed.

(** What extraction returns is [None] or an [int]. *)
Lemma extract_int_or_none (message v : value) :
  _extract_prompt_tokens message = Ok v -> v = VNone \/ is_int v = true.
Proof.
  unfold _extract_prompt_tokens, obind.
  destruct (resolve_usage message) as [usage | e]; [ | discriminate ].
  destruct usage; try (intros H; injection H as <-; left; reflexivity).
  destruct (is_int (dict_get d "prompt_tokens" VNone)) eqn:E;
    intros H; injection H as <-; auto.
Qed.

(** C10.  Extraction returns an integer only when the usage found by the
    precedence order (the usage nested in [extra.response], else the
    message's own [usage] mapping, else what the [usage] object dumps or
    holds as attributes) is a mapping whose [prompt_tokens] is an integer;
    when that entry is missing or not an integer (or the usage is not a
    mapping) it returns nothing, and the update of the context-window
    statistics then leaves the state and the message as they were. *)
Theorem extract_prompt_tokens_only_integers (message : value) :
  (forall v, _extract_prompt_tokens message = Ok v -> v <> VNone ->
     is_int v = true /\
     exists d, resolve_usage message = Ok (VDict d)
               /\ lookup "prompt_tokens" d = Some v)
  /\ (forall usage, resolve_usage message = Ok usage ->
        (forall d v, usage = VDict d -> lookup "prompt_tokens" d = Some v ->
                     is_int v = false) ->
        _extract_prompt_tokens message = Ok VNone
        /\ forall s : agent W,
             _update_context_window_stats message s = (Ok message, s))
  /\ (forall m extra response usage,
        message = VDict m ->
        lookup "extra" m = Some (VDict extra) -> extra <> [] ->
        lookup "response" extra = Some (VDict response) -> response <> [] ->
        lookup "usage" response = Some usage -> usage <> VNone ->
        resolve_usage message = Ok usage)
  /\ (forall m usage,
        message = VDict m ->
        lookup "extra" m = None ->
        lookup "usage" m = Some (VDict usage) ->
        resolve_usage message = Ok (VDict usage))
  /\ (forall m dumped attrs,
        message = VDict m ->
        lookup "extra" m = None ->
        lookup "usage" m = Some (VObj dumped attrs) ->
        resolve_usage message
        = Ok match dumped, attrs with
             | Some VNone, Some a => a
             | Some u, _ => u
             | None, Some a => a
             | None, None => VNone
             end).
Proof.
  split; [ | split; [ | split; [ | split ] ] ].
  - intros v He Hv.
    unfold _extract_prompt_tokens, obind in He.
    destruct (resolve_usage message) as [usage | e]; [ | discriminate ].
    destruct usage; try (injection He as <-; congruence).
    unfold dict_get in He.
    destruct (lookup "prompt_tokens" d) as [t | ] eqn:El.
    + destruct (is_int t) eqn:Et; injection He as <-; [ | congruence ].
      split; [ exact Et | ]. exists d. split; [ reflexivity | exact El ].
    + simpl in He. injection He as <-. congruence.
  - intros usage Hu Hno.
    assert (He : _extract_prompt_tokens message = Ok VNone).
    { unfold _extract_prompt_tokens, obind. rewrite Hu.
      destruct usage; try reflexivity.
      unfold dict_get. destruct (lookup "prompt_tokens" d) as [t | ] eqn:El.
      - rewrite (Hno d t eq_refl El). reflexivity.
      - reflexivity. }
    split; [ exact He | ]. intros s. apply update_without_tokens. exact He.
  - intros m extra response usage -> Hex Hne Hresp Hrne Hus Hnn.
    unfold resolve_usage, obind, get, dict_get. rewrite Hex.
    destruct extra as [ | x xs ]; [ congruence | ]. cbn [truthy].
    rewrite Hresp.
    destruct response as [ | y ys ]; [ congruence | ]. cbn [truthy is_dict andb].
    rewrite Hus.
    destruct usage; try congruence; reflexivity.
  - intros m usage -> Hex Hus.
    unfold resolve_usage, obind, get, dict_get. rewrite Hex. cbn.
    rewrite Hus. reflexivity.
  - intros m dumped attrs -> Hex Hus.
    unfold resolve_usage, obind, get, dict_get. rewrite Hex. cbn.
    rewrite Hus. cbn.
    destruct dumped as [u | ], attrs as [a | ]; cbn; try reflexivity;
      destruct u; reflexivity.
Qed.

End Tracker.

Section ContextBudget.
Context {W : Type} `{MW : Model W} `{EW : Environment W} `{SW : Storage W} `{L : Library}.

Lemma clamp_percent_range left : 0 <= clamp_percent left <= 100.
Proof. unfold clamp_percent. lia. Qed.

(** The update when a token count is extracted and the window is known. *)
Lemma update_with_tokens (s : agent W) (d : dict) (tokens : value) (p size left : Z) :
  context_window_max s = Some size -> size <> 0 ->
  _extract_prompt_tokens (VDict d) = Ok tokens ->
  int_value tokens = Some p ->
  left_of p size = Ok left ->
  _update_context_window_stats (VDict d) s
  = (Ok (VDict (store "context_left_percent" (VInt (clamp_percent left)) d)),
     set_context_left_percent (Some (clamp_percent left))
       (set_context_window_prompt_tokens tokens s)).
Proof.
  intros Hmax Hsize He Hp Hleft.
  unfold _update_context_window_stats, bind, lift. rewrite He.
  assert (Hn : is_none tokens = false) by (destruct tokens; simpl in *; congruence).
  rewrite Hn. cbn. rewrite Hmax.
  apply Z.eqb_neq in Hsize. rewrite Hsize. rewrite Hp, Hleft. reflexivity.
Qed.

(** The computation of the percentage does not fail for a token count
    that fits 64 bits, whatever the (non-zero) window. *)
Lemma left_of_returns (prompt_tokens context_window_max : Z) :
  Z.abs prompt_tokens < 2 ^ 63 -> context_window_max <> 0 ->
  exists left, left_of prompt_tokens context_window_max = Ok left.
Proof.
  intros Hp Hm. unfold left_of.
  destruct (F64Facts.truediv_within _ _ Hp Hm) as [q [-> Hq]]. cbn [obind].
  apply F64Facts.trunc_within with (E := 21).
  apply F64Facts.mul_hundred_within, F64Facts.sub_one_within. exact Hq.
Qed.

(** C4, as the code has it.  When [context_window_max] is known and not
    zero and an integer token count is extracted, the update records the
    count and sets [context_left_percent], on the state and on the
    message alike, to [int(100 * (1 - prompt_tokens / context_window_max))]
    clamped to 0..100, where [int] truncates towards zero (it does not
    round) and the arithmetic is binary64; that arithmetic cannot fail
    for a token count that fits 64 bits.  For a window of 1000, 250
    tokens leave 75, 1000 leave 0 and 1200 leave 0. *)
Theorem update_context_window_stats_truncates
  (s : agent W) (d : dict) (tokens : value) (p size : Z) :
  context_window_max s = Some size -> size <> 0 ->
  _extract_prompt_tokens (VDict d) = Ok tokens ->
  int_value tokens = Some p ->
  (Z.abs p < 2 ^ 63 -> exists left, left_of p size = Ok left)
  /\ forall left, left_of p size = Ok left ->
       let percent := clamp_percent left in
       let after := _update_context_window_stats (VDict d) s in
       (exists d', fst after = Ok (VDict d')
                   /\ lookup "context_left_percent" d' = Some (VInt percent)
                   /\ forall k, String.eqb "context_left_percent" k = false ->
                                lookup k d' = lookup k d)
       /\ context_left_percent (snd after) = Some percent
       /\ context_window_prompt_tokens (snd after) = tokens
       /\ 0 <= percent <= 100
       /\ (size = 1000 ->
           (d = usage_message 250 -> percent = 75)
           /\ (d = usage_message 1000 -> percent = 0)
           /\ (d = usage_message 1200 -> percent = 0)).
Proof.
  intros Hmax Hsize He Hp.
  split; [ intros Hfit; apply left_of_returns; assumption | ].
  intros left Hleft percent after.
  unfold after. rewrite (update_with_tokens s d tokens p size left Hmax Hsize He Hp Hleft).
  cbn [fst snd].
  split; [ | split; [ | split; [ | split ] ] ].
  - eexists. split; [ reflexivity | ]. split.
    + apply lookup_store_same.
    + intros k Hk. apply lookup_store_other. exact Hk.
  - reflexivity.
  - reflexivity.
  - apply clamp_percent_range.
  - intros ->.
    assert (Hex : forall n, d = usage_message n -> left = match left_of n 1000 with Ok l => l | Raise _ => left end).
    { intros n ->. vm_compute in He. injection He as <-. vm_compute in Hp.
      injection Hp as <-. rewrite Hleft. reflexivity. }
    unfold percent.
    split; [ | split ]; intros Hd; rewrite (Hex _ Hd); vm_compute; reflexivity.
Qed.

End ContextBudget.

(** ** The snapshot *)

Section Snapshot.
Context {W : Type} `{MW : Model W} `{EW : Environment W} `{SW : Storage W} `{L : Library}.

Lemma set_world_same (s : agent W) : set_world (world s) s = s.
Proof. destruct s; reflexivity. Qed.

(** [serialize] changes no attribute of the agent and logs nothing: the
    only thing that can differ afterwards is the world of the collaborators
    it asked. *)
Lemma serialize_frame (extra_dicts : list value) (s : agent W) r s' :
  serialize extra_dicts s = (r, s') -> exists w, s' = set_world w s.
Proof.
  unfold serialize, bind, gets, lift, call, ret.
  destruct (get (last (messages s) (VDict [])) "extra" (VDict [])) as [le | e];
    [ | intros H; injection H as <- <-; exists (world s); symmetry; apply set_world_same ].
  destruct (get le "exit_status" (VStr "")) as [es | e];
    [ | intros H; injection H as <- <-; exists (world s); symmetry; apply set_world_same ].
  destruct (get le "submission" (VStr "")) as [su | e];
    [ | intros H; injection H as <- <-; exists (world s); symmetry; apply set_world_same ].
  destruct (model_serialize (world s)) as [[ms | e] w1];
    [ | intros H; injection H as <- <-; exists w1; reflexivity ].
  cbn. destruct (env_serialize w1) as [[es' | e] w2];
    intros H; injection H as <- <-; exists w2; reflexivity.
Qed.

(** C9.  Two calls of [serialize] with the same extra arguments and
    nothing in between give the same snapshot, and [serialize] changes
    nothing: no attribute of the agent in any case, and nothing at all
    when the [serialize] methods of the model and of the environment only
    read. *)
Theorem serialize_idempotent (extra_dicts : list value) (s : agent W) r s' :
  (forall w, snd (model_serialize w) = w) ->
  (forall w, snd (env_serialize w) = w) ->
  serialize extra_dicts s = (r, s') ->
  s' = s
  /\ serialize extra_dicts s' = (r, s')
  /\ config s' = config s /\ messages s' = messages s
  /\ cost s' = cost s /\ n_calls s' = n_calls s /\ trace s' = trace s.
Proof.
  intros Hm He Hs.
  assert (Hsame : s' = s).
  { revert Hs. unfold serialize, bind, gets, lift, call, ret.
    destruct (get (last (messages s) (VDict [])) "extra" (VDict [])) as [le | e];
      [ | intros H; injection H as <- <-; reflexivity ].
    destruct (get le "exit_status" (VStr "")) as [es | e];
      [ | intros H; injection H as <- <-; reflexivity ].
    destruct (get le "submission" (VStr "")) as [su | e];
      [ | intros H; injection H as <- <-; reflexivity ].
    specialize (Hm (world s)).
    destruct (model_serialize (world s)) as [[ms | e] w1]; cbn in Hm; subst w1;
      [ | intros H; injection H as <- <-; apply set_world_same ].
    cbn. specialize (He (world s)).
    destruct (env_serialize (world s)) as [[es' | e] w2]; cbn in He; subst w2;
      intros H; injection H as <- <-; destruct s; reflexivity. }
  subst s'. repeat split; auto.
Qed.

End Snapshot.

(** ** Acting *)

Section Acting.
Context {W : Type} `{MW : Model W} `{EW : Environment W} `{SW : Storage W} `{L : Library}.

Lemma executions_app evs evs' : executions (evs ++ evs') = executions evs ++ executions evs'.
Proof.
  induction evs as [ | ev rest IH ]; simpl; [ reflexivity | ].
  destruct ev; simpl; rewrite ?IH; reflexivity.
Qed.

(** The comprehension calls the environment on the actions in order, once
    each, and stops at the first call that raises. *)
Lemma execute_all_log (actions : list value) : forall (s : agent W) r s',
  execute_all actions s = (r, s') ->
  exists results,
    trace s' = trace s ++ map (fun ar => EvExecute (fst ar) (snd ar)) results
    /\ messages s' = messages s
    /\ _live_trajectory_path s' = _live_trajectory_path s
    /\ match r with
       | Ok outputs =>
           results = combine actions (map Ok outputs)
           /\ List.length outputs = List.length actions
       | Raise e =>
           exists done,
             results = combine (firstn (List.length done) actions) (map Ok done)
                       ++ [(nth (List.length done) actions VNone, Raise e)]
             /\ (List.length done < List.length actions)%nat
       end.
Proof.
  induction actions as [ | action rest IH ]; intros s r s' Hrun.
  - simpl in Hrun. injection Hrun as <- <-. exists []. simpl.
    rewrite app_nil_r. auto.
  - simpl in Hrun. unfold bind at 1 in Hrun. unfold call_logged in Hrun.
    destruct (env_execute action (world s)) as [[output | e] w1].
    + unfold bind at 1 in Hrun.
      destruct (execute_all rest _) as [[outputs | e] s2] eqn:Erest;
        destruct (IH _ _ _ Erest) as [results [Ht [Hm [Hp Hr]]]]; cbn in Ht, Hm, Hp.
      * simpl in Hrun. injection Hrun as <- <-.
        destruct Hr as [-> Hlen].
        exists ((action, Ok output) :: combine rest (map Ok outputs)).
        rewrite Ht, <- app_assoc. simpl. rewrite Hlen. auto.
      * injection Hrun as <- <-.
        destruct Hr as [done [-> Hlen]].
        exists ((action, Ok output)
                :: combine (firstn (List.length done) rest) (map Ok done)
                   ++ [(nth (List.length done) rest VNone, Raise e)]).
        rewrite Ht, <- app_assoc. simpl. repeat split; auto.
        exists (output :: done). simpl. split; [ reflexivity | lia ].
    + injection Hrun as <- <-. exists [(action, Raise e)]. simpl.
      repeat split; auto. exists []. simpl. split; [ reflexivity | lia ].
Qed.

Lemma executions_of_results results :
  executions (map (fun ar => EvExecute (fst ar) (snd ar)) results) = results.
Proof.
  induction results as [ | [a r] rest IH ]; simpl; [ reflexivity | ].
  rewrite IH. reflexivity.
Qed.

(** What [add_messages] does: always returns, always extends the sequence,
    and logs at most a write of the live log and a warning. *)
Lemma add_messages_effect (msgs : list value) (s : agent W) :
  exists evs s',
    add_messages msgs s = (Ok msgs, s')
    /\ messages s' = messages s ++ msgs
    /\ trace s' = trace s ++ evs
    /\ executions evs = []
    /\ filter is_query evs = []
    /\ (_live_trajectory_path s = None -> evs = [] /\ world s' = world s)
    /\ config s' = config s /\ cost s' = cost s /\ n_calls s' = n_calls s
    /\ _live_trajectory_path s' = _live_trajectory_path s
    /\ context_window_max s' = context_window_max s
    /\ context_left_percent s' = context_left_percent s
    /\ context_window_prompt_tokens s' = context_window_prompt_tokens s.
Proof.
  unfold add_messages, bind, modify, gets, catch, call_logged, warning, ret. cbn.
  destruct (_live_trajectory_path s) as [p | ] eqn:Ep; cbn.
  - destruct (append_lines p msgs (world s)) as [[u | e] w1] eqn:Ea; cbn.
    + eexists [_], _. cbn.
      repeat split; try reflexivity; try discriminate; cbn; congruence.
    + eexists [_; _], _. cbn. rewrite <- app_assoc.
      repeat split; try reflexivity; try discriminate; cbn; congruence.
  - exists [], (set_messages (messages s ++ msgs) s). cbn. rewrite app_nil_r.
    repeat split; try reflexivity; congruence.
Qed.

End Acting.

Section ExecuteActions.
Context {W : Type} `{MW : Model W} `{EW : Environment W} `{SW : Storage W} `{L : Library}.

Lemma get_template_vars_frame (kwargs : dict) (s : agent W) r s' :
  get_template_vars kwargs s = (r, s') -> exists w, s' = set_world w s.
Proof.
  unfold get_template_vars, bind, gets, call, ret.
  destruct (env_get_template_vars (world s)) as [[ev | e] w1]; cbn;
    [ | intros H; injection H as <- <-; exists w1; reflexivity ].
  destruct (model_get_template_vars w1) as [[mv | e] w2]; cbn;
    intros H; injection H as <- <-; exists w2; reflexivity.
Qed.

(** The comprehension is the sequence of calls of the environment: each
    action is given to [env.execute] in the world that the call before
    left. *)
Lemma execute_all_calls (actions : list value) : forall (s : agent W) outputs s',
  execute_all actions s = (Ok outputs, s') ->
  env_calls actions (world s) outputs (world s').
Proof.
  induction actions as [ | action rest IH ]; intros s outputs s' Hrun.
  - simpl in Hrun. injection Hrun as <- <-. constructor.
  - simpl in Hrun. unfold bind at 1 in Hrun. unfold call_logged in Hrun.
    destruct (env_execute action (world s)) as [[output | e] w1] eqn:Ecall;
      [ | discriminate ].
    unfold bind at 1 in Hrun.
    destruct (execute_all rest _) as [[outs | e] s2] eqn:Erest; [ | discriminate ].
    simpl in Hrun. injection Hrun as <- <-.
    apply env_calls_cons with (w1 := w1); [ exact Ecall | ].
    exact (IH _ _ _ Erest).
Qed.

Lemma env_calls_length (actions : list value) : forall (w : W) outputs w',
  env_calls actions w outputs w' -> List.length outputs = List.length actions.
Proof.
  induction actions as [ | action rest IH ]; intros w outputs w' Hc; inversion Hc; subst.
  - reflexivity.
  - simpl. f_equal. eapply IH. eassumption.
Qed.

(** C8.  When [execute_actions] returns, [env.execute] has been called
    exactly once for each action the message declares, in the declared
    order, each call in the world the call before left, and for nothing
    else; there is one output per action, in the same order; the template
    variables are then read and the model formats, from the message and
    these outputs, the observation messages, which are appended to the
    sequence and returned.  A message that declares no action leads to
    no call of [env.execute]: the world reaches the reading of the
    template variables as it was. *)
Theorem execute_actions_once_per_action
  (message : value) (s : agent W) (observations : list value) (s' : agent W) :
  execute_actions message s = (Ok observations, s') ->
  exists actions outputs w1 vars w2 w3 evs,
    declared_actions message = Ok actions
    /\ env_calls actions (world s) outputs w1
    /\ List.length outputs = List.length actions
    /\ get_template_vars [] (set_world w1 s) = (Ok vars, set_world w2 s)
    /\ model_format_observation_messages message outputs vars w2
       = (Ok observations, w3)
    /\ messages s' = messages s ++ observations
    /\ trace s'
       = trace s
         ++ map (fun ar => EvExecute (fst ar) (snd ar)) (combine actions (map Ok outputs))
         ++ evs
    /\ executions evs = []
    /\ (actions = [] -> outputs = [] /\ w1 = world s /\ executions evs = []).
Proof.
  unfold execute_actions, declared_actions, obind.
  unfold bind at 1. unfold lift at 1.
  destruct (get message "extra" (VDict [])) as [extra | e]; [ | discriminate ].
  unfold bind at 1. unfold lift at 1.
  destruct (get extra "actions" (VList [])) as [declared | e]; [ | discriminate ].
  unfold bind at 1. unfold lift at 1.
  destruct (iterate declared) as [actions | e]; [ | discriminate ].
  unfold bind at 1.
  destruct (execute_all actions s) as [[outputs | e] s1] eqn:Eall; [ | discriminate ].
  destruct (execute_all_log actions s _ _ Eall) as [results [Ht [Hm [Hp [Hr Hlen]]]]].
  pose proof (execute_all_calls actions s _ _ Eall) as Hcalls.
  unfold bind at 1.
  destruct (get_template_vars [] s1) as [[vars | e] s2] eqn:Evars; [ | discriminate ].
  destruct (get_template_vars_frame [] s1 _ _ Evars) as [w2 Hs2].
  assert (Hvars : get_template_vars [] (set_world (world s1) s)
                  = (Ok vars, set_world w2 s)).
  { revert Evars. subst s2. unfold get_template_vars, bind, gets, call, ret. cbn.
    destruct (env_get_template_vars (world s1)) as [[ev | e] wa]; cbn; [ | discriminate ].
    destruct (model_get_template_vars wa) as [[mv | e] wb]; cbn; [ | discriminate ].
    intros H. injection H as <- Hw. subst wb.
    assert (Hcfg : config s1 = config s /\ n_calls s1 = n_calls s /\ cost s1 = cost s
                   /\ context_window_max s1 = context_window_max s
                   /\ context_window_prompt_tokens s1 = context_window_prompt_tokens s
                   /\ context_left_percent s1 = context_left_percent s
                   /\ extra_template_vars s1 = extra_template_vars s).
    { clear - Eall. revert s s1 outputs Eall.
      induction actions as [ | action rest IH ]; intros s s1 outputs Eall.
      - simpl in Eall. injection Eall as _ <-. repeat split.
      - simpl in Eall. unfold bind at 1 in Eall. unfold call_logged in Eall.
        destruct (env_execute action (world s)) as [[output | e] wx]; [ | discriminate ].
        unfold bind at 1 in Eall.
        destruct (execute_all rest _) as [[outs | e] sx] eqn:Erest; [ | discriminate ].
        simpl in Eall. injection Eall as _ <-.
        exact (IH _ _ _ Erest). }
    destruct Hcfg as [H1 [H2 [H3 [H4 [H5 [H6 H7]]]]]].
    rewrite H1, H2, H3, H4, H5, H6, H7. reflexivity. }
  subst s2.
  unfold bind at 1. unfold call.
  destruct (model_format_observation_messages message outputs vars
              (world (set_world w2 s1))) as [[obs | e] w3] eqn:Eobs; [ | discriminate ].
  intros Hadd.
  destruct (add_messages_effect obs (set_world w3 (set_world w2 s1)))
    as [evs [s3 [Ha [Hmsgs [Htr [Hex _]]]]]].
  rewrite Ha in Hadd. injection Hadd as <- <-.
  subst results.
  exists actions, outputs, (world s1), vars, w2, w3, evs.
  split; [ reflexivity | ]. split; [ exact Hcalls | ]. split; [ exact Hlen | ].
  split; [ exact Hvars | ]. split; [ exact Eobs | ].
  split; [ rewrite Hmsgs; cbn; rewrite Hm; reflexivity | ].
  split; [ rewrite Htr; cbn; rewrite Ht, app_assoc; reflexivity | ].
  split; [ exact Hex | ].
  intros ->. inversion Hcalls; subst. auto.
Qed.

End ExecuteActions.

(** ** The limit check *)

Section Limits.
Context {W : Type} `{MW : Model W} `{EW : Environment W} `{SW : Storage W} `{L : Library}.

(** What resolving the window can change: the window itself, and only to
    what the map gives for the model's name; the world and the log, by
    loading and updating the map.  It raises only out of one of these
    calls. *)
Lemma resolve_effect (s : agent W) r s' :
  _resolve_context_window_max s = (r, s') ->
  n_calls s' = n_calls s /\ messages s' = messages s /\ cost s' = cost s
  /\ config s' = config s
  /\ context_left_percent s' = context_left_percent s
  /\ context_window_prompt_tokens s' = context_window_prompt_tokens s
  /\ (context_window_max s' = context_window_max s
      \/ exists raw cm w n,
           model_config_model_name (world s) = VStr raw
           /\ load_context_window_map (world s) = (Ok cm, w)
           /\ lookup_context_window (strip raw) cm = Some n
           /\ context_window_max s' = Some n)
  /\ exists evs,
       trace s' = trace s ++ evs
       /\ filter is_query evs = []
       /\ executions evs = []
       /\ (forall e, r = Raise e -> evs <> []).
Proof.
  unfold _resolve_context_window_max, _prompt_for_context_window,
    bind, gets, ret, modify, call_logged.
  destruct (context_window_max s) as [n0 | ] eqn:Emax.
  { intros H; injection H as <- <-. repeat split; auto.
    exists []. rewrite app_nil_r. repeat split; auto. discriminate. }
  destruct (model_config_model_name (world s)) as [ | | | | raw | | | ] eqn:Ename;
    try (intros H; injection H as <- <-; repeat split; auto;
         exists []; rewrite app_nil_r; repeat split; auto; discriminate).
  destruct (String.eqb raw "");
    [ intros H; injection H as <- <-; repeat split; auto;
      exists []; rewrite app_nil_r; repeat split; auto; discriminate | ].
  destruct (String.eqb (strip raw) "");
    [ intros H; injection H as <- <-; repeat split; auto;
      exists []; rewrite app_nil_r; repeat split; auto; discriminate | ].
  destruct (load_context_window_map (world s)) as [[cm | e] w1] eqn:Eload; cbn;
    [ | intros H; injection H as <- <-; cbn; rewrite Emax; repeat split; auto;
        eexists [_]; repeat split; auto; discriminate ].
  destruct (lookup_context_window (strip raw) cm) as [n | ] eqn:Elook; cbn.
  - destruct (existsb _ _); cbn.
    + intros H; injection H as <- <-; cbn. repeat split; auto.
      * right. exists raw, cm, w1, n. auto.
      * eexists [_]. repeat split; auto. discriminate.
    + destruct (update_context_window_map (strip raw) n w1) as [[u | e] w2]; cbn;
        intros H; injection H as <- <-; cbn; rewrite <- app_assoc; repeat split; auto;
        try (right; exists raw, cm, w1, n; auto);
        eexists [_; _]; repeat split; auto; discriminate.
  - destruct (String.eqb (context_window_mode _) "interactive"); cbn;
      intros H; injection H as <- <-; cbn; rewrite Emax; repeat split; auto;
      eexists [_]; repeat split; auto; discriminate.
Qed.

Lemma Forall_any {A} (l : list A) : Forall any l.
Proof. induction l; constructor; auto. exact I. Qed.

(** Nothing but the move that issues a query changes [n_calls]. *)
Lemma tolerant_n_calls (k : Z) :
  tolerant (fun s : agent W => n_calls s = k) any any.
Proof.
  constructor; intros; cbn; auto; try exact I. apply Forall_any.
Qed.

Lemma record_response_n_calls (m : value) (s : agent W) r s' :
  record_response m s = (r, s') -> n_calls s' = n_calls s.
Proof.
  intros Hrun.
  pose proof (tolerant_n_calls (n_calls s)) as Tol.
  assert (Ht : triple (fun s' : agent W => n_calls s' = n_calls s) any
                 (record_response m) any).
  { apply triple_record_response with (good := any) (goodq := any); auto.
    - intros m0 _. apply triple_update_generic with (good := any); auto.
      exact I.
    - intros m0 _. apply triple_account_cost_generic with (good := any); auto.
    - exact I. }
  specialize (Ht s eq_refl). rewrite Hrun in Ht. destruct r; tauto.
Qed.

(** Past the check, [query] either counts a call, or has failed while
    reading the context-window map. *)
Lemma query_proceeds (s : agent W) r s' :
  limits_exceeded s = false ->
  query s = (r, s') ->
  n_calls s' = n_calls s + 1
  \/ (n_calls s' = n_calls s
      /\ exists e evs, r = Raise e /\ trace s' = trace s ++ evs /\ evs <> []
                       /\ _resolve_context_window_max s = (Raise e, s')).
Proof.
  intros Hlim. rewrite query_unfold.
  unfold bind at 1. unfold gets at 1. rewrite Hlim.
  unfold bind at 1. unfold gets at 1.
  unfold bind at 1.
  destruct ((match context_window_max s with
             | Some _ => ret tt
             | None => _resolve_context_window_max
             end) s) as [[u | e] s1] eqn:Eres.
  - assert (Hn : n_calls s1 = n_calls s).
    { destruct (context_window_max s).
      - injection Eres as _ <-. reflexivity.
      - apply resolve_effect in Eres. tauto. }
    unfold bind at 1. unfold modify at 1. unfold bind at 1. unfold gets at 1.
    unfold bind at 1. unfold call_logged.
    destruct (model_query _ _) as [[m | e] w1].
    + intros Hrec. apply record_response_n_calls in Hrec. left.
      rewrite Hrec. cbn. lia.
    + intros H; injection H as <- <-. left. cbn. lia.
  - intros H; injection H as <- <-. right.
    destruct (context_window_max s); [ discriminate | ].
    pose proof Eres as Hraised. apply resolve_effect in Eres.
    destruct Eres as [Hn [_ [_ [_ [_ [_ [_ [evs [Ht [_ [_ Hne]]]]]]]]]]].
    split; [ exact Hn | ]. exists e, evs.
    split; [ reflexivity | split; [ exact Ht | split; [ exact (Hne e eq_refl) | exact Hraised ] ] ].
Qed.

(** C2.  [query] raises [LimitsExceeded] at its check, with nothing
    changed and no collaborator called, exactly when
    [0 < step_limit <= n_calls] or [0 < cost_limit <= cost]; otherwise it
    goes on (and the state differs afterwards).  The exception carries one
    message, of role ["exit"], whose [extra] has [exit_status]
    ["LimitsExceeded"] and an empty [submission]. *)
Theorem query_limits_check (s : agent W) :
  (query s = (Raise (LimitsExceeded limits_message), s) <-> limits_exceeded s = true)
  /\ (limits_exceeded s = true <->
      (0 < step_limit (config s) /\ step_limit (config s) <= n_calls s)
      \/ (F64.ltb F64.zero (cost_limit (config s)) = true
          /\ F64.leb (cost_limit (config s)) (cost s) = true))
  /\ (limits_exceeded s = false -> forall r s', query s = (r, s') -> s' <> s)
  /\ LimitsExceeded limits_message = InterruptAgentFlow "LimitsExceeded" [limits_message]
  /\ get limits_message "role" VNone = Ok (VStr "exit")
  /\ exists extra,
       get limits_message "extra" VNone = Ok (VDict extra)
       /\ lookup "exit_status" extra = Some (VStr "LimitsExceeded")
       /\ lookup "submission" extra = Some (VStr "").
Proof.
  assert (Hgo : limits_exceeded s = false -> forall r s', query s = (r, s') -> s' <> s).
  { intros Hlim r s' Hq Heq. subst s'.
    destruct (query_proceeds s r s Hlim Hq) as [Hn | [_ [e [evs [_ [Ht [Hne _]]]]]]].
    - lia.
    - apply Hne. apply (f_equal (@List.length event)) in Ht.
      rewrite length_app in Ht. destruct evs; [ reflexivity | simpl in Ht; lia ]. }
  split; [ | split; [ | split; [ exact Hgo | split; [ reflexivity | split; [ reflexivity | ] ] ] ] ].
  - split.
    + intros Hq. destruct (limits_exceeded s) eqn:Hlim; [ reflexivity | ].
      exfalso. exact (Hgo eq_refl _ _ Hq eq_refl).
    + intros Hlim. rewrite query_unfold. unfold bind, gets. rewrite Hlim. reflexivity.
  - unfold limits_exceeded.
    rewrite orb_true_iff, !andb_true_iff, Z.ltb_lt, Z.leb_le. tauto.
  - eexists. split; [ reflexivity | ]. split; reflexivity.
Qed.

End Limits.

(** ** Failures during a step *)

Section Failures.
Context {W : Type} `{MW : Model W} `{EW : Environment W} `{SW : Storage W} `{L : Library}.

(** The snapshot [serialize] builds: the agent's own part holds the whole
    message sequence and, under [info], the [exit_status] and the
    [submission] of the last message's [extra]. *)
Lemma serialize_data (extra_dicts : list value) (s : agent W) data s' :
  serialize extra_dicts s = (Ok data, s') ->
  exists last_extra info ms es,
    get (last (messages s) (VDict [])) "extra" (VDict []) = Ok (VDict last_extra)
    /\ data = recursive_merge
                (VDict [ ("info", VDict info);
                         ("messages", VList (messages s));
                         ("trajectory_format", VStr "mini-swe-agent-1.1") ]
                 :: ms :: es :: extra_dicts)
    /\ lookup "exit_status" info = Some (dict_get last_extra "exit_status" (VStr ""))
    /\ lookup "submission" info = Some (dict_get last_extra "submission" (VStr "")).
Proof.
  unfold serialize, bind, gets, lift, call, ret.
  destruct (get (last (messages s) (VDict [])) "extra" (VDict [])) as [le | e];
    [ | discriminate ].
  destruct le as [ | | | | | | last_extra | ]; try discriminate. cbn.
  destruct (model_serialize (world s)) as [[ms | e] w1]; [ | discriminate ]. cbn.
  destruct (env_serialize w1) as [[es | e] w2]; [ | discriminate ].
  intros H; injection H as <- <-.
  eexists last_extra, _, ms, es. repeat split; reflexivity.
Qed.

(** [save] leaves the agent's attributes alone; with a path it logs the
    write of the snapshot, with its outcome, and raises what the write
    raises. *)
Lemma save_effect (path : option string) (extra_dicts : list value) (s : agent W) r s' :
  save path extra_dicts s = (r, s') ->
  messages s' = messages s /\ config s' = config s /\ cost s' = cost s
  /\ n_calls s' = n_calls s
  /\ context_window_max s' = context_window_max s
  /\ context_left_percent s' = context_left_percent s
  /\ exists evs,
       trace s' = trace s ++ evs
       /\ filter is_query evs = [] /\ executions evs = []
       /\ (forall data, r = Ok data ->
             exists s1, serialize extra_dicts s = (Ok data, s1)
                        /\ match path with
                           | Some p => evs = [EvSnapshotWrite p data (Ok tt)]
                           | None => evs = []
                           end)
       /\ (forall data s1 p e,
             serialize extra_dicts s = (Ok data, s1) -> path = Some p ->
             fst (write_text p data (world s1)) = Raise e -> r = Raise e).
Proof.
  unfold save. unfold bind at 1.
  destruct (serialize extra_dicts s) as [[data | e] s1] eqn:Eser;
    destruct (serialize_frame _ _ _ _ Eser) as [w1 ->].
  - destruct path as [p | ].
    + unfold bind, call_logged, ret. cbn.
      destruct (write_text p data w1) as [[u | e] w2] eqn:Ew;
        intros H; injection H as <- <-; cbn; repeat split; auto.
      * eexists [_]. repeat split; auto.
        -- intros d Hd. injection Hd as <-. exists (set_world w1 s).
           destruct u. auto.
        -- intros d s2 p' e' Hs Hp He. injection Hs as <- <-. injection Hp as <-.
           cbn in He. rewrite Ew in He. discriminate.
      * eexists [_]. repeat split; auto.
        -- discriminate.
        -- intros d s2 p' e' Hs Hp He. injection Hs as <- <-. injection Hp as <-.
           cbn in He. rewrite Ew in He. cbn in He. congruence.
    + unfold bind, ret. cbn. intros H; injection H as <- <-. cbn. repeat split; auto.
      exists []. rewrite app_nil_r. repeat split; auto.
      * intros d Hd. injection Hd as <-. exists (set_world w1 s). auto.
      * discriminate.
  - intros H; injection H as <- <-. cbn. repeat split; auto.
    exists []. rewrite app_nil_r. repeat split; auto; discriminate.
Qed.

(** An exception of a step, when the save returns.  When a step raises an
    exception that is not a flow interrupt (a limits signal is one), the
    loop has the model format a message of role ["exit"] whose [extra]
    holds the name of the exception's class as [exit_status], an empty
    [submission], the text of the exception and the stack trace; it
    appends that message; it then saves a snapshot, which already
    contains the message and the exit status; and when that save returns
    it raises the same exception to the caller. *)
Theorem uncaught_exception_recorded
  (fuel : nat) (s s1 : agent W) (cls text : string)
  (m : value) (w2 : W) (data : value) (s3 : agent W) :
  step s = (Raise (Exception cls text), s1) ->
  model_format_message (exit_kwargs (Exception cls text)) (world s1) = (Ok m, w2) ->
  (exists d, m = VDict d
             /\ lookup "role" d = Some (VStr "exit")
             /\ lookup "extra" d = lookup "extra" (exit_kwargs (Exception cls text))) ->
  save (output_path (config s1)) [] (snd (add_messages [m] (set_world w2 s1)))
  = (Ok data, s3) ->
  run_loop (S fuel) s = Some (Raise (Exception cls text), s3)
  /\ messages s3 = messages s1 ++ [m]
  /\ get m "role" VNone = Ok (VStr "exit")
  /\ (exists extra,
        get m "extra" (VDict []) = Ok (VDict extra)
        /\ lookup "exit_status" extra = Some (VStr cls)
        /\ lookup "submission" extra = Some (VStr "")
        /\ lookup "exception_str" extra = Some (VStr text)
        /\ lookup "traceback" extra = Some (VStr (format_exc (Exception cls text))))
  /\ (exists info others,
        data = recursive_merge
                 (VDict [ ("info", VDict info);
                          ("messages", VList (messages s1 ++ [m]));
                          ("trajectory_format", VStr "mini-swe-agent-1.1") ]
                  :: others)
        /\ lookup "exit_status" info = Some (VStr cls))
  /\ (forall p, output_path (config s1) = Some p ->
        exists before, trace s3 = before ++ [EvSnapshotWrite p data (Ok tt)]).
Proof.
  intros Hstep Hfmt [d [-> [Hrole Hextra]]] Hsave.
  destruct (add_messages_effect [VDict d] (set_world w2 s1))
    as [evs [s2 [Hadd [Hmsgs [Htr [_ [_ [_ [Hcfg _]]]]]]]]].
  rewrite Hadd in Hsave. cbn [snd] in Hsave.
  assert (Hturn : turn s = (Raise (Exception cls text), s3)).
  { unfold turn. unfold bind at 1. unfold finally, catch.
    unfold bind at 1. rewrite Hstep.
    cbn [on_exception]. unfold handle_uncaught_exception.
    unfold bind at 1 2. unfold call. rewrite Hfmt. rewrite Hadd.
    unfold raise. unfold bind at 1. unfold gets.
    rewrite Hcfg. cbn [config set_world]. rewrite Hsave. reflexivity. }
  pose proof (save_effect _ _ _ _ _ Hsave) as [Hm3 [_ [_ [_ [_ [_ [sevs [Htr3 [_ [_ [Hok _]]]]]]]]]]].
  destruct (Hok data eq_refl) as [s2' [Hser Hevs]].
  destruct (serialize_data _ _ _ _ Hser) as [last_extra [info [ms [es [Hlast [Hdata [Hes _]]]]]]].
  split; [ simpl; rewrite Hturn; reflexivity | ].
  split; [ rewrite Hm3, Hmsgs; reflexivity | ].
  split; [ cbn; unfold dict_get; rewrite Hrole; reflexivity | ].
  split.
  { eexists. split; [ cbn; unfold dict_get; rewrite Hextra; reflexivity | ].
    repeat split; reflexivity. }
  split.
  { exists info, [ms; es]. split.
    - rewrite Hdata, Hmsgs. reflexivity.
    - rewrite Hes. rewrite Hmsgs in Hlast. cbn [messages set_world] in Hlast.
      rewrite last_last in Hlast. cbn in Hlast. unfold dict_get in Hlast.
      rewrite Hextra in Hlast. cbn in Hlast. injection Hlast as <-. reflexivity. }
  intros p Hp. rewrite Hp in Hevs. exists (trace s2). rewrite Htr3, Hevs. reflexivity.
Qed.

End Failures.

(** ** The end of a run *)

Section Termination.
Context {W : Type} `{MW : Model W} `{EW : Environment W} `{SW : Storage W} `{L : Library}.

(** The collaborators keep to the data model: the messages they hand
    over (answers of the model, formatted messages, the messages an
    interrupt carries) are well formed. *)
Record honours_data_model : Prop := {
  honours_rely : rely (MW := MW) (EW := EW) (SW := SW) (L := L) well_formed_exn well_formed;
  honours_query : forall h, behaves well_formed_exn (model_query h) well_formed;
  honours_load : behaves well_formed_exn load_context_window_map any;
  honours_update : forall name n,
    behaves well_formed_exn (update_context_window_map name n) any
}.

Definition all_well_formed (s : agent W) : Prop := Forall well_formed (messages s).

Lemma tolerant_well_formed : tolerant all_well_formed well_formed_exn well_formed.
Proof.
  constructor; unfold all_well_formed; intros; cbn; auto.
  - apply Forall_app. auto.
  - intros d Hd Hrole. injection Hd as <-. cbn in Hrole. congruence.
  - intros d Hd _. injection Hd as <-. eexists. split; [ reflexivity | ].
    split; discriminate.
Qed.

Lemma triple_query_well_formed :
  honours_data_model -> triple all_well_formed well_formed_exn query any.
Proof.
  intros Hon. pose proof tolerant_well_formed as Tol.
  apply triple_query_generic with (good := well_formed) (goodq := well_formed); auto.
  - cbn. constructor; [ apply well_formed_limits_message | constructor ].
  - apply triple_resolve_generic with (good := well_formed); auto.
    + apply (honours_load Hon).
    + apply (honours_update Hon).
  - apply (honours_query Hon).
  - intros m Hm. apply triple_update_generic with (good := well_formed); auto.
    intros d v. apply well_formed_store.
  - intros m Hm. apply triple_account_cost_generic with (good := well_formed); auto.
Qed.

Lemma last_message_eq (s : agent W) :
  last_message s
  = match messages s with
    | [] => (Raise (Exception "IndexError" "list index out of range"), s)
    | _ => (Ok (last (messages s) VNone), s)
    end.
Proof. unfold last_message, bind, gets, raise, ret. destruct (messages s); reflexivity. Qed.

(** The loop is left only through the test of the last message's role,
    and what is returned is read off that message. *)
Lemma run_loop_returns (fuel : nat) : forall (s : agent W) r s',
  run_loop fuel s = Some (Ok r, s') ->
  exists d,
    messages s' <> []
    /\ last (messages s') VNone = VDict d
    /\ eq_str (dict_get d "role" VNone) "exit" = true
    /\ r = dict_get d "extra" (VDict []).
Proof.
  induction fuel as [ | fuel IH ]; intros s r s' Hrun; simpl in Hrun; [ discriminate | ].
  destruct (turn s) as [[b | e] s1] eqn:Eturn; [ | discriminate ].
  destruct b; [ | exact (IH _ _ _ Hrun) ].
  unfold turn in Eturn. unfold bind at 1 in Eturn.
  destruct (finally _ _ s) as [[u | e] s0]; [ | discriminate ].
  unfold bind at 1 in Eturn. rewrite last_message_eq in Eturn.
  destruct (messages s0) as [ | m0 ms ] eqn:Emsgs; [ discriminate | ].
  unfold bind, lift, ret in Eturn.
  destruct (last (m0 :: ms) VNone) as [ | | | | | | d | ] eqn:Elast; try discriminate.
  cbn in Eturn. injection Eturn as Hrole <-.
  unfold result in Hrun. unfold bind at 1 in Hrun. rewrite last_message_eq in Hrun.
  rewrite Emsgs, Elast in Hrun. cbn in Hrun. injection Hrun as <- <-.
  exists d. rewrite Emsgs. repeat split; auto. discriminate.
Qed.

(** [run] starts by emptying the sequence: what was in it does not matter. *)
Lemma run_reset (fuel : nat) (task : string) (kwargs : dict) (s : agent W) :
  run fuel task kwargs s = run fuel task kwargs (set_messages [] s).
Proof.
  unfold run.
  assert (Hstart : start task kwargs s = start task kwargs (set_messages [] s)).
  { unfold start. unfold bind at 1 2. unfold modify.
    symmetry. unfold bind at 1 2. reflexivity. }
  rewrite Hstart. reflexivity.
Qed.

Lemma last_in {A} (l : list A) (d : A) : l <> [] -> In (last l d) l.
Proof.
  induction l as [ | a [ | b rest ] IH ]; intros Hne; [ congruence | left; reflexivity | ].
  right. apply IH. discriminate.
Qed.

(** C1.  When [run] returns, the last message of the sequence has role
    ["exit"] and what [run] returns is the [extra] mapping of that message
    (read with an empty mapping as the default).  With collaborators that
    keep to the data model of messages, that mapping is there and holds
    [exit_status] and [submission]. *)
Theorem run_returns_terminal_extra
  (fuel : nat) (task : string) (kwargs : dict) (s : agent W) (r : value) (s' : agent W) :
  run fuel task kwargs s = Some (Ok r, s') ->
  exists d,
    messages s' <> []
    /\ last (messages s') VNone = VDict d
    /\ get (VDict d) "role" VNone = Ok (VStr "exit")
    /\ Ok r = get (VDict d) "extra" (VDict [])
    /\ (honours_data_model ->
        exists extra,
          lookup "extra" d = Some (VDict extra)
          /\ r = VDict extra
          /\ lookup "exit_status" extra <> None
          /\ lookup "submission" extra <> None).
Proof.
  intros Hrun.
  pose proof tolerant_well_formed as Tol.
  assert (Hinv : honours_data_model -> all_well_formed s').
  { intros Hon.
    apply (run_invariant all_well_formed well_formed_exn well_formed Tol
             (honours_rely Hon)
             (triple_resolve_generic _ _ _ Tol (fun s n H => H)
                (honours_load Hon) (honours_update Hon))
             (triple_query_well_formed Hon)
             fuel task kwargs (set_messages [] s) (Ok r) s').
    - constructor.
    - rewrite <- run_reset. exact Hrun. }
  unfold run in Hrun.
  destruct (start task kwargs s) as [[u | e] s0]; [ | discriminate ].
  destruct (run_loop_returns fuel s0 r s' Hrun) as [d [Hne [Hlast [Hrole Hr]]]].
  exists d. repeat split; auto.
  - cbn. f_equal. unfold dict_get in *. destruct (lookup "role" d) as [v | ]; [ | discriminate ].
    destruct v; try discriminate. cbn in Hrole. apply String.eqb_eq in Hrole. congruence.
  - cbn. congruence.
  - intros Hon. specialize (Hinv Hon).
    assert (Hwf : well_formed (VDict d)).
    { unfold all_well_formed in Hinv. rewrite Forall_forall in Hinv.
      apply Hinv. rewrite <- Hlast. apply last_in. exact Hne. }
    destruct (Hwf d eq_refl Hrole) as [extra [Hextra [Hes Hsub]]].
    exists extra. repeat split; auto.
    rewrite Hr. unfold dict_get. rewrite Hextra. reflexivity.
Qed.

End Termination.

(** ** A model whose context window is not known *)

Section UnknownWindow.
Context {W : Type} `{MW : Model W} `{EW : Environment W} `{SW : Storage W} `{L : Library}.

(** The name the model gives is in no map that can be loaded. *)
Definition unknown_model : Prop :=
  forall w raw cm w',
    model_config_model_name w = VStr raw ->
    load_context_window_map w = (Ok cm, w') ->
    lookup_context_window (strip raw) cm = None.

Definition window_unset (percent : option Z) (s : agent W) : Prop :=
  context_window_max s = None /\ context_left_percent s = percent.

Lemma tolerant_window_unset percent : tolerant (window_unset percent) any any.
Proof.
  constructor; unfold window_unset; intros; cbn; auto; try exact I. apply Forall_any.
Qed.

(** The update when the window is not known, or is zero. *)
Lemma update_without_window (message : value) (s : agent W) r s' :
  context_window_max s = None \/ context_window_max s = Some 0 ->
  _update_context_window_stats message s = (r, s') ->
  context_left_percent s' = context_left_percent s
  /\ context_window_max s' = context_window_max s
  /\ (forall m', r = Ok m' -> m' = message)
  /\ (s' = s
      \/ exists t, _extract_prompt_tokens message = Ok t /\ is_int t = true
                   /\ s' = set_context_window_prompt_tokens t s).
Proof.
  intros Hmax. unfold _update_context_window_stats, bind, lift, modify, gets, ret.
  destruct (_extract_prompt_tokens message) as [t | e] eqn:Ext.
  - destruct (is_none t) eqn:En.
    + intros H; injection H as <- <-. repeat split; auto. congruence.
    + cbn. assert (Hint : is_int t = true).
      { destruct (extract_int_or_none message t Ext) as [-> | Hi]; [ discriminate | exact Hi ]. }
      destruct Hmax as [Hmax | Hmax]; rewrite Hmax; cbn;
        intros H; injection H as <- <-; cbn; repeat split; auto; try congruence;
        right; exists t; auto.
  - intros H; injection H as <- <-. repeat split; auto. discriminate.
Qed.

(** The same, exactly: what is extracted decides what is recorded. *)
Lemma update_unknown_window (message : value) (s : agent W) :
  context_window_max s = None \/ context_window_max s = Some 0 ->
  _update_context_window_stats message s
  = match _extract_prompt_tokens message with
    | Ok t =>
        (Ok message, if is_none t then s else set_context_window_prompt_tokens t s)
    | Raise e => (Raise e, s)
    end.
Proof.
  intros Hmax. unfold _update_context_window_stats, bind, lift, modify, gets, ret.
  destruct (_extract_prompt_tokens message) as [t | e]; [ | reflexivity ].
  destruct (is_none t); [ reflexivity | ].
  cbn. destruct Hmax as [Hmax | Hmax]; rewrite Hmax; reflexivity.
Qed.

(** Resolving for an unknown model: the window stays unset, and nothing
    but the loading of the map can fail. *)
Lemma resolve_unknown (s : agent W) r s' :
  unknown_model ->
  context_window_max s = None ->
  _resolve_context_window_max s = (r, s') ->
  context_window_max s' = None
  /\ context_left_percent s' = context_left_percent s
  /\ (r = Ok tt
      \/ exists e, r = Raise e /\ fst (load_context_window_map (world s)) = Raise e).
Proof.
  intros Hunknown Hmax.
  unfold _resolve_context_window_max, _prompt_for_context_window,
    bind, gets, ret, modify, call_logged.
  rewrite Hmax.
  destruct (model_config_model_name (world s)) as [ | | | | raw | | | ] eqn:Ename;
    try (intros H; injection H as <- <-; auto).
  destruct (String.eqb raw ""); [ intros H; injection H as <- <-; auto | ].
  destruct (String.eqb (strip raw) ""); [ intros H; injection H as <- <-; auto | ].
  destruct (load_context_window_map (world s)) as [[cm | e] w1] eqn:Eload; cbn;
    [ | intros H; injection H as <- <-; cbn; repeat split; auto; right; exists e; auto ].
  rewrite (Hunknown _ _ _ _ Ename Eload).
  destruct (String.eqb (context_window_mode _) "interactive"); cbn;
    intros H; injection H as <- <-; cbn; auto.
Qed.

Lemma triple_resolve_unknown percent :
  unknown_model ->
  triple (window_unset percent) any _resolve_context_window_max any.
Proof.
  intros Hunknown s [Hmax Hleft].
  destruct (_resolve_context_window_max s) as [r s'] eqn:Eres.
  destruct (resolve_unknown s r s' Hunknown Hmax Eres) as [Hm [Hl _]].
  unfold window_unset. rewrite Hm, Hl. destruct r; repeat split; auto.
Qed.

Lemma triple_update_unknown percent (message : value) :
  triple (window_unset percent) any (_update_context_window_stats message) any.
Proof.
  intros s [Hmax Hleft].
  destruct (_update_context_window_stats message s) as [r s'] eqn:Eupd.
  destruct (update_without_window message s r s' (or_introl Hmax) Eupd) as [Hl [Hm _]].
  unfold window_unset. rewrite Hm, Hl. destruct r; repeat split; auto.
Qed.

Lemma triple_query_unknown percent :
  unknown_model -> triple (window_unset percent) any query any.
Proof.
  intros Hunknown. pose proof (tolerant_window_unset percent) as Tol.
  apply triple_query_generic with (good := any) (goodq := any); auto.
  - exact I.
  - apply triple_resolve_unknown. exact Hunknown.
  - intros h w. destruct (model_query h w) as [[] ?]; exact I.
  - intros m _. apply triple_update_unknown.
  - intros m _. apply triple_account_cost_generic with (good := any); auto.
Qed.

(** Collaborators of which nothing is asked. *)
Lemma rely_any : rely (MW := MW) (EW := EW) (SW := SW) (L := L) any any.
Proof.
  constructor; intros;
    repeat match goal with
           | |- behaves _ ?f _ => let w := fresh "w" in intros w; destruct (f w) as [[] ?]
           | |- match ?o with _ => _ end => destruct o
           end; try exact I; apply Forall_any.
Qed.

(** C7, as the code has it.  When the context window is not known (or is
    zero), the update of the statistics returns the message as it came
    and leaves [context_left_percent] as it is, but it does record the
    token count it extracts: the state afterwards is the one before with
    [context_window_prompt_tokens] set to that count, and nothing else
    changed.  When no count can be extracted it changes nothing, whether
    the window is known or not.  For a model whose name the map does not
    know (the agent's own resolver answers nothing), resolving leaves the
    window unset and returns normally unless reading the map raises, and
    from a state in which the window is unset a run ends with the window
    unset and [context_left_percent] as it was. *)
Theorem unknown_window_leaves_percent_unset :
  unknown_model ->
  (forall message (s : agent W) (t : value),
     context_window_max s = None \/ context_window_max s = Some 0 ->
     _extract_prompt_tokens message = Ok t ->
     is_none t = false ->
     let s' := set_context_window_prompt_tokens t s in
     _update_context_window_stats message s = (Ok message, s')
     /\ is_int t = true
     /\ context_window_prompt_tokens s' = t
     /\ context_left_percent s' = context_left_percent s
     /\ context_window_max s' = context_window_max s)
  /\ (forall message (s : agent W),
        _extract_prompt_tokens message = Ok VNone ->
        _update_context_window_stats message s = (Ok message, s))
  /\ (forall (s : agent W) r s',
        context_window_max s = None ->
        _resolve_context_window_max s = (r, s') ->
        context_window_max s' = None
        /\ (r = Ok tt
            \/ exists e, r = Raise e
                         /\ fst (load_context_window_map (world s)) = Raise e))
  /\ (forall fuel task kwargs (s : agent W) r s',
        context_window_max s = None ->
        run fuel task kwargs s = Some (r, s') ->
        context_window_max s' = None
        /\ context_left_percent s' = context_left_percent s).
Proof.
  intros Hunknown.
  split; [ | split; [ | split ] ].
  - intros message s t Hmax Hext Hnone s'.
    rewrite (update_unknown_window message s Hmax), Hext, Hnone.
    split; [ reflexivity | ]. split; [ | repeat split ].
    destruct (extract_int_or_none message t Hext) as [-> | Hi]; [ discriminate | exact Hi ].
  - intros message s. apply update_without_tokens.
  - intros s r s' Hmax Hres.
    destruct (resolve_unknown s r s' Hunknown Hmax Hres) as [H1 [_ H2]]. auto.
  - intros fuel task kwargs s r s' Hmax Hrun.
    apply (run_invariant (window_unset (context_left_percent s)) any any
             (tolerant_window_unset _) rely_any
             (triple_resolve_unknown _ Hunknown) (triple_query_unknown _ Hunknown)
             fuel task kwargs s r s'); [ split; auto | exact Hrun ].
Qed.

End UnknownWindow.


(** ** Counting calls and cost *)

Section Counters.
Context {W : Type} `{MW : Model W} `{EW : Environment W} `{SW : Storage W} `{L : Library}.

Lemma queries_issued_app evs evs' :
  queries_issued (evs ++ evs') = queries_issued evs + queries_issued evs'.
Proof. unfold queries_issued. rewrite filter_app, length_app. lia. Qed.

Lemma queries_completed_app evs evs' :
  queries_completed (evs ++ evs') = queries_completed evs + queries_completed evs'.
Proof. unfold queries_completed. rewrite filter_app, length_app. lia. Qed.

Lemma queries_completed_le evs : queries_completed evs <= queries_issued evs.
Proof.
  induction evs as [ | ev rest IH ]; [ reflexivity | ].
  change (ev :: rest) with ([ev] ++ rest).
  rewrite queries_issued_app, queries_completed_app.
  assert (queries_completed [ev] <= queries_issued [ev]).
  { unfold queries_completed, queries_issued.
    destruct ev as [h [m | e] | | | | | | | ]; cbn; lia. }
  lia.
Qed.

Lemma queries_completed_all evs :
  (forall h e, ~ In (EvQuery h (Raise e)) evs) ->
  queries_completed evs = queries_issued evs.
Proof.
  induction evs as [ | ev rest IH ]; intros Hno; [ reflexivity | ].
  change (ev :: rest) with ([ev] ++ rest).
  rewrite queries_issued_app, queries_completed_app, IH.
  - f_equal. unfold queries_completed, queries_issued.
    destruct ev as [h [m | e] | | | | | | | ]; cbn; try reflexivity.
    exfalso. apply (Hno h e). left. reflexivity.
  - intros h e Hin. apply (Hno h e). right. exact Hin.
Qed.

(** The invariant: counted from [s0]. *)
Definition counted (s0 s : agent W) : Prop :=
  (exists evs,
     trace s = trace s0 ++ evs /\ n_calls s = n_calls s0 + queries_issued evs)
  /\ F64.payable (cost s0)
  /\ F64.payable (cost s)
  /\ F64.le (cost s0) (cost s).

Lemma counted_start (s : agent W) : F64.payable (cost s) -> counted s s.
Proof.
  intros Hp.
  split; [ | split; [ exact Hp | split; [ exact Hp | apply F64Facts.le_refl_payable; exact Hp ] ] ].
  exists []. rewrite app_nil_r. split; [ reflexivity | cbn; lia ].
Qed.

Lemma tolerant_counted (s0 : agent W) : tolerant (counted s0) any any.
Proof.
  constructor; unfold counted; intros; cbn; auto; try exact I; try apply Forall_any.
  destruct H0 as [[evs [Ht Hn]] Hc]. split; [ | exact Hc ].
  exists (evs ++ [ev]). rewrite Ht, app_assoc, queries_issued_app.
  split; [ reflexivity | ].
  unfold queries_issued at 2. cbn. rewrite H. cbn. lia.
Qed.

Lemma declares_payable_store d v :
  declares_payable_cost (VDict d) ->
  declares_payable_cost (VDict (store "context_left_percent" v d)).
Proof.
  intros Hd extra c Hex Hc. apply (Hd extra c); [ | exact Hc ].
  rewrite <- Hex. cbn. unfold dict_get.
  rewrite lookup_store_other by reflexivity. reflexivity.
Qed.

(** What adding a declared cost does to [cost]. *)
Lemma float_plus_payable (c : F64.float) (v : value) (c' : F64.float) :
  F64.payable c -> payable_value v -> float_plus c v = Ok c' ->
  F64.le c c' /\ F64.payable c'.
Proof.
  intros Hc Hv. destruct v as [ | b | z | f | t | l | d | md dd ]; cbn [float_plus];
    try discriminate.
  - intros H; injection H as <-. apply F64Facts.add_payable; [ exact Hc | ].
    apply F64Facts.of_Z_payable. destruct b; cbn; lia.
  - unfold obind, F64.of_int. destruct (F64.is_finite (F64.of_Z z)); [ | discriminate ].
    intros H; injection H as <-. apply F64Facts.add_payable; [ exact Hc | ].
    apply F64Facts.of_Z_payable. exact Hv.
  - intros H; injection H as <-. apply F64Facts.add_payable; assumption.
Qed.

Lemma triple_account_cost_counted (s0 : agent W) (m : value) :
  declares_payable_cost m ->
  triple (counted s0) any (account_cost m) any.
Proof.
  intros Hm s [Hev [Hp0 [Hp Hle]]].
  unfold account_cost, bind, lift, gets, modify.
  destruct (get m "extra" (VDict [])) as [extra | e] eqn:Eex;
    [ | split; [ split; auto | exact I ] ].
  destruct (get extra "cost" (VFloat F64.zero)) as [c | e] eqn:Ec;
    [ | split; [ split; auto | exact I ] ].
  destruct (float_plus (cost s) c) as [c' | e] eqn:Eplus;
    [ | split; [ split; auto | exact I ] ].
  destruct (float_plus_payable (cost s) c c' Hp (Hm extra c Eex Ec) Eplus) as [Hle' Hp'].
  split; [ | exact I ]. split; [ exact Hev | ]. cbn.
  split; [ exact Hp0 | ]. split; [ exact Hp' | ].
  exact (F64Facts.le_trans_payable (cost s0) (cost s) c' Hp0 Hp Hp' Hle Hle').
Qed.

Lemma behaves_any {A} (f : W -> outcome A * W) : behaves any f any.
Proof. intros w. destruct (f w) as [[] ?]; exact I. Qed.

Lemma triple_resolve_counted (s0 : agent W) :
  triple (counted s0) any _resolve_context_window_max any.
Proof.
  apply triple_resolve_generic with (good := any).
  - apply tolerant_counted.
  - intros s n Hs. exact Hs.
  - apply behaves_any.
  - intros name n. apply behaves_any.
Qed.

Lemma triple_query_counted (s0 : agent W) :
  (forall h, behaves any (model_query h) declares_payable_cost) ->
  triple (counted s0) any query any.
Proof.
  intros Hq. pose proof (tolerant_counted s0) as Tol.
  apply triple_query_generic with (good := any) (goodq := declares_payable_cost); auto.
  - exact I.
  - apply triple_resolve_counted.
  - intros s w r [[evs [Ht Hn]] Hc]. split; [ | exact Hc ].
    exists (evs ++ [EvQuery (messages s) r]). cbn.
    rewrite Ht, app_assoc, queries_issued_app. split; [ reflexivity | ].
    rewrite Hn. unfold queries_issued at 3. cbn. lia.
  - intros m Hm. apply triple_update_generic with (good := any); auto.
    intros d v. apply declares_payable_store.
  - intros m Hm. apply triple_account_cost_counted. exact Hm.
  - intros; exact I.
Qed.

(** A response without a declared cost adds [0.0]: [cost] stays what it
    is (a negative zero becomes the positive one). *)
Lemma account_cost_missing (m : value) (extra : dict) (s : agent W) :
  get m "extra" (VDict []) = Ok (VDict extra) ->
  lookup "cost" extra = None ->
  account_cost m s = (Ok tt, set_cost (F64.add (cost s) F64.zero) s)
  /\ (F64.add (cost s) F64.zero = cost s
      \/ (cost s = S754_zero true /\ F64.add (cost s) F64.zero = S754_zero false)).
Proof.
  intros Hex Hc. split.
  - unfold account_cost, bind, lift, gets, modify. rewrite Hex. cbn.
    unfold dict_get. rewrite Hc. reflexivity.
  - destruct (cost s) as [[ | ] | [ | ] | | sx mx ex]; cbn; auto.
Qed.

End Counters.

(** ** The step limit *)

Section StepLimit.
Context {W : Type} `{MW : Model W} `{EW : Environment W} `{SW : Storage W} `{L : Library}.

(** An exception that is no flow interrupt. *)
Definition plain (e : exn) : Prop :=
  match e with Exception _ _ => True | InterruptAgentFlow _ _ => False end.

(** What follows the body of the [try] in a turn of the loop: the
    handlers, the [finally] clause and the test of [break]. *)
Definition conclude (body : M W unit) : M W bool :=
  finally (catch body on_exception)
          (path <- gets (fun s => output_path (config s)) ;; save path []) ;;
  m <- last_message ;;
  role <- lift (get m "role" VNone) ;;
  ret (eq_str role "exit").

(** [n_calls] and [config] as they stand. *)
Definition settled (k : Z) (c : AgentConfig) (s : agent W) : Prop :=
  n_calls s = k /\ config s = c.

(** The calls counted from [s0] under a step limit of [N], and at most
    [N] of them. *)
Definition issued (N : Z) (s0 s : agent W) : Prop :=
  step_limit (config s) = N
  /\ exists evs, trace s = trace s0 ++ evs
                 /\ n_calls s = n_calls s0 + queries_issued evs.

Definition within_limit (N : Z) (s0 s : agent W) : Prop :=
  n_calls s <= N /\ issued N s0 s.

Lemma turn_after_query (s : agent W) :
  turn s = match query s with
           | (Ok m, s1) => conclude (execute_actions m ;; ret tt) s1
           | (Raise e, s1) => conclude (raise e) s1
           end.
Proof.
  unfold turn, conclude, step, finally, catch, raise, bind.
  destruct (query s) as [[m | e] s1]; reflexivity.
Qed.

Lemma triple_conclude (Inv : agent W -> Prop) (Exc : exn -> Prop) (good : value -> Prop)
    (body : M W unit) :
  tolerant Inv Exc good -> rely Exc good ->
  triple Inv Exc body any -> triple Inv Exc (conclude body) any.
Proof.
  intros Tol Rely Hbody. unfold conclude.
  eapply triple_bind with (mid := any).
  - eapply triple_finally with (postf := any).
    + eapply triple_catch with (Exc' := Exc); [ exact Hbody | ].
      intros e He. apply (triple_on_exception Inv Exc good Tol Rely). exact He.
    + eapply triple_bind with (mid := any); [ apply triple_gets; intros; exact I | intros path _ ].
      apply (triple_save Inv Exc good Tol Rely).
  - intros _ _.
    eapply triple_bind with (mid := any);
      [ apply (triple_last_message Inv Exc good Tol) | intros m _ ].
    eapply triple_bind with (mid := any);
      [ apply triple_lift, (Exc_get Inv Exc good Tol) | intros role _ ].
    apply triple_ret. exact I.
Qed.

Lemma tolerant_settled k c : tolerant (settled k c) any any.
Proof.
  constructor; unfold settled; intros; cbn; auto; try exact I. apply Forall_any.
Qed.

Lemma tolerant_config (c : AgentConfig) :
  tolerant (fun s : agent W => config s = c) any any.
Proof.
  constructor; intros; cbn; auto; try exact I. apply Forall_any.
Qed.

Lemma tolerant_plain : tolerant (fun _ : agent W => True) plain any.
Proof.
  constructor; intros; cbn; auto; try exact I.
  destruct H.
Qed.

(** [query] does not touch the configuration. *)
Lemma query_config (s : agent W) r s' : query s = (r, s') -> config s' = config s.
Proof.
  intros Hq. pose proof (tolerant_config (config s)) as Tol.
  assert (Ht : triple (fun s' : agent W => config s' = config s) any query any).
  { apply triple_query_generic with (good := any) (goodq := any); auto.
    - exact I.
    - apply triple_resolve_generic with (good := any); auto; intros; apply behaves_any.
    - intros h. apply behaves_any.
    - intros m _. apply triple_update_generic with (good := any); auto. exact I.
    - intros m _. apply triple_account_cost_generic with (good := any); auto. }
  specialize (Ht s eq_refl). rewrite Hq in Ht. destruct r; tauto.
Qed.

(** What follows the body changes neither [n_calls] nor [config]. *)
Lemma conclude_frame (body : M W unit) (s : agent W) r s' :
  triple (settled (n_calls s) (config s)) any body any ->
  conclude body s = (r, s') ->
  n_calls s' = n_calls s /\ config s' = config s.
Proof.
  intros Hbody Hrun.
  pose proof (triple_conclude _ any any body (tolerant_settled _ _) rely_any Hbody s
                (conj eq_refl eq_refl)) as Ht.
  rewrite Hrun in Ht. destruct r; exact (proj1 Ht).
Qed.

Lemma limits_exceeded_steps (s : agent W) :
  limits_exceeded s = false -> 0 < step_limit (config s) ->
  n_calls s < step_limit (config s).
Proof.
  unfold limits_exceeded. intros H Hpos.
  apply orb_false_iff in H. destruct H as [H _].
  apply andb_false_iff in H. destruct H as [H | H].
  - apply Z.ltb_ge in H. lia.
  - apply Z.leb_gt in H. exact H.
Qed.

(** At the limit, a turn ends the loop: [query] raises [LimitsExceeded],
    its message is appended, and the last message is that one. *)
Lemma turn_at_limit (s : agent W) r s' :
  limits_exceeded s = true ->
  turn s = (r, s') ->
  n_calls s' = n_calls s
  /\ messages s' = messages s ++ [limits_message]
  /\ filter is_query (skipn (List.length (trace s)) (trace s')) = []
  /\ ((r = Ok true
       /\ result s'
          = (Ok (VDict [ ("exit_status", VStr "LimitsExceeded"); ("submission", VStr "") ]),
             s'))
      \/ exists e s2,
           r = Raise e /\ save (output_path (config s2)) [] s2 = (Raise e, s')).
Proof.
  intros Hlim. rewrite turn_after_query.
  assert (Hq : query s = (Raise (LimitsExceeded limits_message), s)).
  { rewrite query_unfold. unfold bind, gets. rewrite Hlim. reflexivity. }
  rewrite Hq. unfold conclude, finally, catch, raise.
  change (on_exception (LimitsExceeded limits_message))
    with (add_messages [limits_message] ;; ret tt).
  unfold bind, gets, lift, ret.
  destruct (add_messages_effect [limits_message] s)
    as [evs [s2 [Hadd [Hmsgs [Htr [_ [Hnq [_ [_ [_ [Hn _]]]]]]]]]]].
  rewrite Hadd.
  destruct (save (output_path (config s2)) [] s2) as [[data | e] s3] eqn:Esave.
  - pose proof (save_effect _ _ _ _ _ Esave) as [Hm3 [_ [_ [Hn3 [_ [_ [evs3 [Ht3 [Hnq3 _]]]]]]]]].
    assert (Hlast : last_message s3 = (Ok limits_message, s3)).
    { rewrite last_message_eq, Hm3, Hmsgs.
      destruct (messages s ++ [limits_message]) as [ | m0 ms ] eqn:E.
      - destruct (messages s); discriminate.
      - rewrite <- E. rewrite last_last. reflexivity. }
    rewrite Hlast. cbn.
    intros H; injection H as <- <-.
    split; [ congruence | ]. split; [ congruence | ]. split.
    + rewrite Ht3, Htr, <- app_assoc, skipn_app, skipn_all, Nat.sub_diag.
      cbn. rewrite filter_app, Hnq, Hnq3. reflexivity.
    + left. split; [ reflexivity | ].
      unfold result, bind. rewrite Hlast. reflexivity.
  - pose proof (save_effect _ _ _ _ _ Esave) as [Hm3 [_ [_ [Hn3 [_ [_ [evs3 [Ht3 [Hnq3 _]]]]]]]]].
    intros H; injection H as <- <-.
    split; [ congruence | ]. split; [ congruence | ]. split.
    + rewrite Ht3, Htr, <- app_assoc, skipn_app, skipn_all, Nat.sub_diag.
      cbn. rewrite filter_app, Hnq, Hnq3. reflexivity.
    + right. exists e, s2. split; [ reflexivity | exact Esave ].
Qed.

Hypothesis map_load : behaves plain load_context_window_map any.
Hypothesis map_update : forall name n, behaves plain (update_context_window_map name n) any.

Lemma resolve_raises_plain (s : agent W) e s' :
  _resolve_context_window_max s = (Raise e, s') -> plain e.
Proof.
  intros Hr.
  pose proof (triple_resolve_generic (fun _ => True) plain any tolerant_plain
                (fun _ _ _ => I) map_load map_update s I) as Ht.
  rewrite Hr in Ht. tauto.
Qed.

(** Below the limit, a turn after which the loop goes on has counted one
    call. *)
Lemma turn_counts (s s' : agent W) :
  0 < step_limit (config s) ->
  turn s = (Ok false, s') ->
  n_calls s < step_limit (config s)
  /\ n_calls s' = n_calls s + 1
  /\ config s' = config s.
Proof.
  intros Hpos Hturn.
  destruct (limits_exceeded s) eqn:Hlim.
  { destruct (turn_at_limit s _ _ Hlim Hturn) as [_ [_ [_ [[H _] | [e [s2 [H _]]]]]]];
      discriminate. }
  split; [ apply limits_exceeded_steps; assumption | ].
  rewrite turn_after_query in Hturn.
  destruct (query s) as [rq sq] eqn:Eq.
  pose proof (query_config _ _ _ Eq) as Hc.
  destruct (query_proceeds s rq sq Hlim Eq)
    as [Hn | [_ [e [evs [-> [_ [_ Hres]]]]]]].
  - assert (Hframe : n_calls s' = n_calls sq /\ config s' = config sq).
    { destruct rq as [m | e].
      - apply (conclude_frame _ _ _ _ ) with (2 := Hturn).
        eapply triple_bind with (mid := any).
        + apply (triple_execute_actions _ any any (tolerant_settled _ _) rely_any).
        + intros _ _. apply triple_ret. exact I.
      - apply (conclude_frame _ _ _ _ ) with (2 := Hturn).
        apply triple_raise. exact I. }
    destruct Hframe as [Hn' Hc']. split; congruence.
  - exfalso. apply resolve_raises_plain in Hres.
    destruct e as [cls ms | cls text]; [ destruct Hres | ].
    revert Hturn. unfold conclude, finally, catch, on_exception.
    unfold bind, gets, lift, ret, raise.
    destruct (handle_uncaught_exception (Exception cls text) sq) as [[u | e] s2];
      destruct (save (output_path (config s2)) [] s2) as [[data | e'] s3]; discriminate.
Qed.

(** With a step limit, the loop ends: each turn ends it or counts a call,
    and at the limit a turn ends it. *)
Lemma run_loop_ends (fuel : nat) : forall s : agent W,
  0 < step_limit (config s) ->
  (Z.to_nat (step_limit (config s) - n_calls s) < fuel)%nat ->
  exists r s', run_loop fuel s = Some (r, s').
Proof.
  induction fuel as [ | fuel IH ]; intros s Hpos Hfuel; [ lia | ].
  simpl. destruct (turn s) as [[[ | ] | e] s1] eqn:Eturn.
  - destruct (result s1) as [r s2]. exists r, s2. reflexivity.
  - destruct (turn_counts s s1 Hpos Eturn) as [Hlt [Hn Hc]].
    apply IH; rewrite Hc, ?Hn; lia.
  - exists (Raise e), s1. reflexivity.
Qed.

Lemma tolerant_issued (N : Z) (s0 : agent W) : tolerant (issued N s0) any any.
Proof.
  constructor; unfold issued; intros; cbn; auto; try exact I; try apply Forall_any.
  destruct H0 as [Hc [evs [Ht Hn]]]. split; [ exact Hc | ].
  exists (evs ++ [ev]). rewrite Ht, app_assoc, queries_issued_app.
  split; [ reflexivity | ].
  unfold queries_issued at 2. cbn. rewrite H. cbn. lia.
Qed.

Lemma tolerant_within_limit (N : Z) (s0 : agent W) :
  tolerant (within_limit N s0) any any.
Proof.
  pose proof (tolerant_issued N s0) as Tol.
  constructor; unfold within_limit; intros; try exact I; try apply Forall_any.
  - split; [ apply (proj1 H) | apply (tol_world _ _ _ Tol), (proj2 H) ].
  - split; [ apply (proj1 H0) | apply (tol_log _ _ _ Tol); [ exact H | exact (proj2 H0) ] ].
  - split; [ apply (proj1 H) | apply (tol_append _ _ _ Tol); [ exact (proj2 H) | exact H0 ] ].
  - split; [ apply (proj1 H) | apply (tol_reset _ _ _ Tol), (proj2 H) ].
  - split; [ apply (proj1 H) | apply (tol_vars _ _ _ Tol), (proj2 H) ].
Qed.

Lemma triple_query_issued (N : Z) (s0 : agent W) :
  triple (issued N s0) any query any.
Proof.
  pose proof (tolerant_issued N s0) as Tol.
  apply triple_query_generic with (good := any) (goodq := any); auto.
  - exact I.
  - apply triple_resolve_generic with (good := any); auto; intros; apply behaves_any.
  - intros s w r [Hc [evs [Ht Hn]]]. split; [ exact Hc | ].
    exists (evs ++ [EvQuery (messages s) r]). cbn.
    rewrite Ht, app_assoc, queries_issued_app. split; [ reflexivity | ].
    rewrite Hn. unfold queries_issued at 3. cbn. lia.
  - intros h. apply behaves_any.
  - intros m _. apply triple_update_generic with (good := any); auto. exact I.
  - intros m _. apply triple_account_cost_generic with (good := any); auto.
Qed.

Lemma triple_resolve_within_limit (N : Z) (s0 : agent W) :
  triple (within_limit N s0) any _resolve_context_window_max any.
Proof.
  apply triple_resolve_generic with (good := any).
  - apply tolerant_within_limit.
  - intros s n Hs. exact Hs.
  - apply behaves_any.
  - intros name n. apply behaves_any.
Qed.

(** [query] counts a call only below the limit. *)
Lemma triple_query_within_limit (N : Z) (s0 : agent W) :
  0 < N -> triple (within_limit N s0) any query any.
Proof.
  intros HN s [Hn Hi].
  pose proof (triple_query_issued N s0 s Hi) as H1.
  destruct (query s) as [r s'] eqn:Eq.
  assert (Hn' : n_calls s' <= N).
  { destruct (limits_exceeded s) eqn:Hlim.
    - assert (Hq : query s = (Raise (LimitsExceeded limits_message), s)).
      { rewrite query_unfold. unfold bind, gets. rewrite Hlim. reflexivity. }
      rewrite Hq in Eq. injection Eq as <- <-. exact Hn.
    - pose proof (limits_exceeded_steps s Hlim) as Hlt.
      rewrite (proj1 Hi) in Hlt. specialize (Hlt HN).
      destruct (query_proceeds s r s' Hlim Eq) as [Hs | [Hs _]]; lia. }
  destruct r; (split; [ split; [ exact Hn' | exact (proj1 H1) ] | exact I ]).
Qed.

(** [run] before the loop changes neither [n_calls] nor [config]. *)
Lemma start_frame (task : string) (kwargs : dict) (s : agent W) r s' :
  start task kwargs s = (r, s') -> n_calls s' = n_calls s /\ config s' = config s.
Proof.
  intros Hstart.
  assert (Hres : triple (settled (n_calls s) (config s)) any
                   _resolve_context_window_max any).
  { apply triple_resolve_generic with (good := any).
    - apply tolerant_settled.
    - intros s1 n Hs. exact Hs.
    - apply behaves_any.
    - intros name n. apply behaves_any. }
  pose proof (triple_start _ any any (tolerant_settled _ _) rely_any Hres task kwargs s
                (conj eq_refl eq_refl)) as Ht.
  rewrite Hstart in Ht. destruct r; exact (proj1 Ht).
Qed.

(** With a step limit [N > 0] and a context-window map whose operations
    raise no flow interrupt, [run] ends within [N - n_calls + 1] turns of
    the loop; however it ends, the model has been queried at most
    [N - n_calls] times, [N] times at most for a fresh agent; and the turn
    that finds the limit reached leaves the loop with the
    [LimitsExceeded] message as the last one, returning its [extra],
    unless the save of the [finally] clause raises. *)
Theorem step_limit_ends_run (task : string) (kwargs : dict) (s : agent W) :
  0 < step_limit (config s) ->
  n_calls s <= step_limit (config s) ->
  (forall fuel,
     (Z.to_nat (step_limit (config s) - n_calls s) < fuel)%nat ->
     exists r s', run fuel task kwargs s = Some (r, s'))
  /\ (forall fuel r s',
        run fuel task kwargs s = Some (r, s') ->
        n_calls s' <= step_limit (config s)
        /\ exists evs,
             trace s' = trace s ++ evs
             /\ n_calls s' = n_calls s + queries_issued evs
             /\ queries_issued evs <= step_limit (config s) - n_calls s)
  /\ (forall (s1 : agent W) r s',
        limits_exceeded s1 = true ->
        turn s1 = (r, s') ->
        n_calls s' = n_calls s1
        /\ messages s' = messages s1 ++ [limits_message]
        /\ filter is_query (skipn (List.length (trace s1)) (trace s')) = []
        /\ ((r = Ok true
             /\ result s'
                = (Ok (VDict [ ("exit_status", VStr "LimitsExceeded");
                               ("submission", VStr "") ]),
                   s'))
            \/ exists e s2,
                 r = Raise e /\ save (output_path (config s2)) [] s2 = (Raise e, s'))).
Proof.
  intros Hpos Hn. split; [ | split ].
  - intros fuel Hfuel. unfold run.
    destruct (start task kwargs s) as [[u | e] s1] eqn:Estart.
    + destruct (start_frame _ _ _ _ _ Estart) as [Hn1 Hc1].
      apply run_loop_ends; rewrite Hc1, ?Hn1; assumption.
    + exists (Raise e), s1. reflexivity.
  - intros fuel r s' Hrun.
    assert (H0 : within_limit (step_limit (config s)) s s).
    { split; [ exact Hn | ]. split; [ reflexivity | ].
      exists []. rewrite app_nil_r. split; [ reflexivity | cbn; lia ]. }
    pose proof (run_invariant _ any any (tolerant_within_limit _ s) rely_any
                  (triple_resolve_within_limit _ s)
                  (triple_query_within_limit _ s Hpos)
                  fuel task kwargs s r s' H0 Hrun) as [Hle [_ [evs [Ht Hi]]]].
    split; [ exact Hle | ]. exists evs. repeat split; auto. lia.
  - intros s1 r s'. apply turn_at_limit.
Qed.

End StepLimit.

(** ** Flow interrupts *)

Section Interrupts.
Context {W : Type} `{MW : Model W} `{EW : Environment W} `{SW : Storage W} `{L : Library}.

(** A flow interrupt raised in a step does not leave the loop: its
    messages are appended to the sequence, the snapshot of the state so
    reached is then saved, and the loop goes on unless the last message
    now has role ["exit"].  Only an exception of that save is raised. *)
Theorem interrupt_messages_appended
    (s s1 : agent W) (cls : string) (msgs : list value) r s' :
  step s = (Raise (InterruptAgentFlow cls msgs), s1) ->
  turn s = (r, s') ->
  exists s2 saved,
    add_messages msgs s1 = (Ok msgs, s2)
    /\ messages s2 = messages s1 ++ msgs
    /\ save (output_path (config s2)) [] s2 = (saved, s')
    /\ messages s' = messages s1 ++ msgs
    /\ n_calls s' = n_calls s1
    /\ cost s' = cost s1
    /\ match saved with
       | Raise e => r = Raise e
       | Ok data =>
           (exists sx, serialize [] s2 = (Ok data, sx))
           /\ (forall p, output_path (config s2) = Some p ->
                 exists before, trace s' = before ++ [EvSnapshotWrite p data (Ok tt)])
           /\ (forall d, messages s' <> [] -> last (messages s') VNone = VDict d ->
                         r = Ok (eq_str (dict_get d "role" VNone) "exit"))
       end.
Proof.
  intros Hstep Hturn. change turn with (conclude (step ;; ret tt)) in Hturn.
  unfold conclude, finally, catch in Hturn. unfold bind, gets, lift, ret in Hturn.
  rewrite Hstep in Hturn. cbn [on_exception] in Hturn. unfold bind, ret in Hturn.
  destruct (add_messages_effect msgs s1)
    as [evs [s2 [Hadd [Hmsgs [_ [_ [_ [_ [_ [Hc [Hn _]]]]]]]]]]].
  rewrite Hadd in Hturn. exists s2.
  destruct (save (output_path (config s2)) [] s2) as [[data | e] s3] eqn:Esave;
    pose proof (save_effect _ _ _ _ _ Esave)
      as [Hm3 [_ [Hc3 [Hn3 [_ [_ [evs3 [Ht3 [_ [_ [Hdata _]]]]]]]]]]].
  - assert (Hsnap : (exists sx, serialize [] s2 = (Ok data, sx))
                    /\ (forall p, output_path (config s2) = Some p ->
                          exists before,
                            trace s3 = before ++ [EvSnapshotWrite p data (Ok tt)])).
    { destruct (Hdata data eq_refl) as [sx [Hser Hevs]].
      split; [ exists sx; exact Hser | ].
      intros p Hp. rewrite Hp in Hevs. subst evs3. exists (trace s2). exact Ht3. }
    rewrite last_message_eq in Hturn.
    assert (Hs' : s' = s3).
    { destruct (messages s3); [ injection Hturn as _ <-; reflexivity | ].
      destruct (get _ "role" VNone); injection Hturn as _ <-; reflexivity. }
    subst s'. exists (Ok data).
    repeat (split; [ first [ reflexivity | assumption | congruence ] | ]).
    split; [ exact (proj1 Hsnap) | ]. split; [ exact (proj2 Hsnap) | ].
    intros d Hne Hd.
    destruct (messages s3) as [ | m0 ms ] eqn:Em3; [ congruence | ].
    rewrite Hd in Hturn. cbn in Hturn.
    injection Hturn as <-. reflexivity.
  - injection Hturn as <- <-. exists (Raise e).
    repeat (split; [ first [ reflexivity | assumption | congruence ] | ]).
    reflexivity.
Qed.

End Interrupts.

(** ** What a query leaves behind *)

Section QueryEffects.
Context {W : Type} `{MW : Model W} `{EW : Environment W} `{SW : Storage W} `{L : Library}.

(** The update of the statistics touches the two statistics fields only,
    and the message only by the annotation. *)
Lemma update_effect (m0 : value) (s : agent W) r s' :
  _update_context_window_stats m0 s = (r, s') ->
  messages s' = messages s /\ cost s' = cost s /\ n_calls s' = n_calls s
  /\ config s' = config s /\ trace s' = trace s /\ world s' = world s
  /\ _live_trajectory_path s' = _live_trajectory_path s
  /\ context_window_max s' = context_window_max s
  /\ match r with
     | Ok m =>
         m = m0
         \/ exists d percent,
              m0 = VDict d
              /\ m = VDict (store "context_left_percent" (VInt percent) d)
              /\ context_left_percent s' = Some percent
              /\ 0 <= percent <= 100
     | Raise _ => True
     end.
Proof.
  unfold _update_context_window_stats, bind, lift, modify, gets, ret, raise.
  destruct (_extract_prompt_tokens m0) as [t | e];
    [ | intros H; injection H as <- <-; repeat split; auto ].
  destruct (is_none t);
    [ intros H; injection H as <- <-; repeat split; auto | ].
  cbn. destruct (context_window_max s) as [size | ] eqn:Emax;
    [ | intros H; injection H as <- <-; cbn; repeat split; auto ].
  destruct (size =? 0);
    [ intros H; injection H as <- <-; cbn; repeat split; auto | ].
  destruct (int_value t) as [p | ];
    [ | intros H; injection H as <- <-; cbn; repeat split; auto ].
  destruct (left_of p size) as [left | e];
    [ | intros H; injection H as <- <-; cbn; repeat split; auto ].
  cbn. destruct m0 as [ | b | z | f | t0 | l | d | md dd ];
    intros H; injection H as <- <-; cbn; repeat split; auto.
  right. exists d, (clamp_percent left). repeat split; auto; apply clamp_percent_range.
Qed.

(** What [query] does with the answer of the model: the answer, annotated
    or not, is appended when nothing raises and is dropped otherwise;
    [cost] grows by what the answer declares. *)
Lemma record_response_effect (m0 : value) (s : agent W) r s' :
  record_response m0 s = (r, s') ->
  n_calls s' = n_calls s /\ config s' = config s
  /\ (exists evs, trace s' = trace s ++ evs
                  /\ filter is_query evs = [] /\ executions evs = [])
  /\ match r with
     | Ok m =>
         messages s' = messages s ++ [m]
         /\ (m = m0
             \/ exists d percent,
                  m0 = VDict d
                  /\ m = VDict (store "context_left_percent" (VInt percent) d)
                  /\ context_left_percent s' = Some percent
                  /\ 0 <= percent <= 100)
         /\ exists extra declared,
              get m "extra" (VDict []) = Ok extra
              /\ get extra "cost" (VFloat F64.zero) = Ok declared
              /\ float_plus (cost s) declared = Ok (cost s')
     | Raise e =>
         messages s' = messages s /\ cost s' = cost s
         /\ (_update_context_window_stats m0 s = (Raise e, s')
             \/ exists m s1,
                  _update_context_window_stats m0 s = (Ok m, s1)
                  /\ account_cost m s1 = (Raise e, s'))
     end.
Proof.
  unfold record_response. unfold bind at 1.
  destruct (_update_context_window_stats m0 s) as [[m | e] s1] eqn:Eupd;
    pose proof (update_effect _ _ _ _ Eupd)
      as [Hm [Hc [Hn [Hcfg [Ht [Hw [Hp [Hmax Hr]]]]]]]].
  - unfold account_cost. unfold bind, lift, gets, modify, ret.
    destruct (get m "extra" (VDict [])) as [extra | e] eqn:Eex.
    2:{ intros H; injection H as <- <-. repeat split; auto.
        - exists []. rewrite app_nil_r. auto.
        - right. exists m, s1. split; [ reflexivity | ].
          unfold account_cost, bind, lift. rewrite Eex. reflexivity. }
    destruct (get extra "cost" (VFloat F64.zero)) as [declared | e] eqn:Ec.
    2:{ intros H; injection H as <- <-. repeat split; auto.
        - exists []. rewrite app_nil_r. auto.
        - right. exists m, s1. split; [ reflexivity | ].
          unfold account_cost, bind, lift. rewrite Eex, Ec. reflexivity. }
    destruct (float_plus (cost s1) declared) as [c' | e] eqn:Eplus.
    2:{ intros H; injection H as <- <-. repeat split; auto.
        - exists []. rewrite app_nil_r. auto.
        - right. exists m, s1. split; [ reflexivity | ].
          unfold account_cost, bind, lift, gets. rewrite Eex, Ec, Eplus. reflexivity. }
    destruct (add_messages_effect [m] (set_cost c' s1))
      as [evs [s2 [Hadd [Hm2 [Ht2 [Hex2 [Hq2 [_ [Hcfg2 [Hc2 [Hn2 [_ [_ [Hl2 _]]]]]]]]]]]]]].
    rewrite Hadd. intros H; injection H as <- <-. cbn in *.
    split; [ congruence | ]. split; [ congruence | ].
    split; [ exists evs; rewrite Ht2, Ht; auto | ].
    split; [ congruence | ].
    split.
    + destruct Hr as [Hr | [d [percent [H1 [H2 [H3 H4]]]]]]; [ left; exact Hr | ].
      right. exists d, percent. repeat split; auto; try lia. congruence.
    + exists extra, declared. rewrite Hc2, <- Hc. auto.
  - intros H; injection H as <- <-. repeat split; auto.
    exists []. rewrite app_nil_r. auto.
Qed.

(** The stages of [query] past the check of the limits. *)
Lemma query_stages (s : agent W) r s' :
  limits_exceeded s = false ->
  query s = (r, s') ->
  exists rres s1,
    (match context_window_max s with
     | None => _resolve_context_window_max
     | Some _ => ret tt
     end) s = (rres, s1)
    /\ match rres with
       | Raise e => r = Raise e /\ s' = s1
       | Ok _ =>
           exists rq w,
             model_query (messages s1) (world s1) = (rq, w)
             /\ let s3 := set_trace (trace s1 ++ [EvQuery (messages s1) rq])
                            (set_world w (set_n_calls (n_calls s1 + 1) s1)) in
                match rq with
                | Raise e => r = Raise e /\ s' = s3
                | Ok m0 => record_response m0 s3 = (r, s')
                end
       end.
Proof.
  intros Hlim. rewrite query_unfold.
  unfold bind at 1. unfold gets at 1. rewrite Hlim.
  unfold bind at 1. unfold gets at 1. unfold bind at 1.
  destruct ((match context_window_max s with
             | Some _ => ret tt
             | None => _resolve_context_window_max
             end) s) as [[u | e] s1] eqn:Eres.
  - unfold bind at 1. unfold modify at 1. unfold bind at 1. unfold gets at 1.
    unfold bind at 1. unfold call_logged. cbn [messages world trace set_n_calls].
    intros Hq. exists (Ok u), s1. split; [ reflexivity | ].
    destruct (model_query (messages s1) (world s1)) as [[m0 | e] w] eqn:Em.
    + exists (Ok m0), w. split; [ reflexivity | exact Hq ].
    + exists (Raise e), w. split; [ reflexivity | ].
      injection Hq as <- <-. split; reflexivity.
  - intros H; injection H as <- <-. exists (Raise e), s1. split; [ reflexivity | auto ].
Qed.

(** The resolution, or its omission when the window is known. *)
Lemma resolve_or_skip_effect (s : agent W) r s1 :
  (match context_window_max s with
   | None => _resolve_context_window_max
   | Some _ => ret tt
   end) s = (r, s1) ->
  n_calls s1 = n_calls s /\ messages s1 = messages s /\ cost s1 = cost s
  /\ config s1 = config s
  /\ exists evs, trace s1 = trace s ++ evs
                 /\ filter is_query evs = [] /\ executions evs = [].
Proof.
  destruct (context_window_max s).
  - intros H; injection H as <- <-. repeat split; auto.
    exists []. rewrite app_nil_r. auto.
  - intros H. apply resolve_effect in H.
    destruct H as [Hn [Hm [Hc [Hcfg [_ [_ [_ [evs [Ht [Hq [Hx _]]]]]]]]]]].
    repeat split; auto. exists evs. auto.
Qed.

(** A query that returns: the model was asked once, with the whole
    message sequence as it stood; its answer, annotated with
    [context_left_percent] or as it came, is the one message appended and
    the value returned; [n_calls] has grown by one and [cost] by the cost
    the answer declares ([0.0] when it declares none). *)
Theorem query_appends_response (s : agent W) (m : value) (s' : agent W) :
  query s = (Ok m, s') ->
  limits_exceeded s = false
  /\ messages s' = messages s ++ [m]
  /\ n_calls s' = n_calls s + 1
  /\ (exists m0 before after,
        trace s' = trace s ++ before ++ EvQuery (messages s) (Ok m0) :: after
        /\ filter is_query before = [] /\ filter is_query after = []
        /\ (m = m0
            \/ exists d percent,
                 m0 = VDict d
                 /\ m = VDict (store "context_left_percent" (VInt percent) d)
                 /\ context_left_percent s' = Some percent
                 /\ 0 <= percent <= 100))
  /\ exists extra declared,
       get m "extra" (VDict []) = Ok extra
       /\ get extra "cost" (VFloat F64.zero) = Ok declared
       /\ float_plus (cost s) declared = Ok (cost s').
Proof.
  intros Hq.
  assert (Hlim : limits_exceeded s = false).
  { destruct (limits_exceeded s) eqn:Hlim; [ | reflexivity ].
    rewrite query_unfold in Hq. unfold bind, gets in Hq. rewrite Hlim in Hq.
    discriminate. }
  split; [ exact Hlim | ].
  destruct (query_stages s _ _ Hlim Hq) as [rres [s1 [Hres Hrest]]].
  pose proof (resolve_or_skip_effect _ _ _ Hres)
    as [Hn1 [Hm1 [Hc1 [_ [before [Ht1 [Hq1 _]]]]]]].
  destruct rres as [u | e]; [ | destruct Hrest; discriminate ].
  destruct Hrest as [rq [w [Hmodel Hrest]]]. cbn zeta in Hrest.
  destruct rq as [m0 | e]; [ | destruct Hrest; discriminate ].
  pose proof (record_response_effect _ _ _ _ Hrest)
    as [Hn [_ [[after [Ht [Hqa _]]] [Hmsgs [Hann Hcost]]]]].
  cbn in Hn, Ht, Hmsgs, Hcost.
  split; [ congruence | ]. split; [ lia | ]. split.
  - exists m0, before, after. rewrite Ht, Ht1, Hm1, <- !app_assoc. auto.
  - rewrite <- Hc1. exact Hcost.
Qed.

(** A model answer whose ["extra"] is there but is no mapping ([None],
    say) makes [query] raise after the call has been counted: the answer
    is not appended to the sequence and [cost] stays as it was.  Without
    a message-level ["usage"] the exception is the [AttributeError] of
    calling [get] on that value. *)
Theorem query_drops_answer_without_mapping_extra
    (s s' : agent W) r (evs : list event) (history : list value) (d : dict) (v : value) :
  query s = (r, s') ->
  trace s' = trace s ++ evs ->
  In (EvQuery history (Ok (VDict d))) evs ->
  lookup "extra" d = Some v ->
  is_dict v = false ->
  (exists e, r = Raise e
             /\ (lookup "usage" d = None -> e = AttributeError v "get"))
  /\ messages s' = messages s
  /\ n_calls s' = n_calls s + 1
  /\ cost s' = cost s.
Proof.
  intros Hq Ht Hin Hex Hv.
  assert (Hlim : limits_exceeded s = false).
  { destruct (limits_exceeded s) eqn:Hlim; [ | reflexivity ].
    rewrite query_unfold in Hq. unfold bind, gets in Hq. rewrite Hlim in Hq.
    injection Hq as <- <-.
    apply (f_equal (@List.length event)) in Ht. rewrite length_app in Ht.
    destruct evs; [ destruct Hin | simpl in Ht; lia ]. }
  destruct (query_stages s _ _ Hlim Hq) as [rres [s1 [Hres Hrest]]].
  pose proof (resolve_or_skip_effect _ _ _ Hres)
    as [Hn1 [Hm1 [Hc1 [_ [before [Ht1 [Hq1 _]]]]]]].
  assert (Hnotin : forall evs0 h rq, filter is_query evs0 = [] -> ~ In (EvQuery h rq) evs0).
  { intros evs0 h rq Hf Hi.
    assert (Hi' : In (EvQuery h rq) (filter is_query evs0))
      by (apply filter_In; split; [ exact Hi | reflexivity ]).
    rewrite Hf in Hi'. destruct Hi'. }
  destruct rres as [u | e].
  2:{ destruct Hrest as [-> ->]. rewrite Ht1 in Ht. apply app_inv_head in Ht.
      subst evs. exfalso. exact (Hnotin _ _ _ Hq1 Hin). }
  destruct Hrest as [rq [w [Hmodel Hrest]]]. cbn zeta in Hrest.
  destruct rq as [m0 | e].
  2:{ destruct Hrest as [-> ->]. cbn in Ht. rewrite Ht1, <- app_assoc in Ht.
      apply app_inv_head in Ht. subst evs. exfalso.
      apply in_app_or in Hin. destruct Hin as [Hin | [Hin | []]];
        [ exact (Hnotin _ _ _ Hq1 Hin) | discriminate ]. }
  pose proof (record_response_effect _ _ _ _ Hrest)
    as [Hn [_ [[after [Hta [Hqa _]]] Hr]]].
  cbn in Hn, Hta.
  assert (Hm0 : m0 = VDict d).
  { rewrite Hta, Ht1, <- !app_assoc in Ht. apply app_inv_head in Ht. subst evs.
    apply in_app_or in Hin. destruct Hin as [Hin | Hin];
      [ exfalso; exact (Hnotin _ _ _ Hq1 Hin) | ].
    cbn in Hin. destruct Hin as [Hin | Hin];
      [ congruence | exfalso; exact (Hnotin _ _ _ Hqa Hin) ]. }
  subst m0.
  assert (Hget : forall d', lookup "extra" d' = Some v ->
                   forall k dv, exists e,
                     (extra <~ get (VDict d') "extra" (VDict []) ;; get extra k dv) = Raise e
                     /\ e = AttributeError v "get").
  { intros d' Hd' k dv. cbn. unfold dict_get. rewrite Hd'.
    destruct v; try discriminate; cbn; eexists; split; reflexivity. }
  destruct r as [m | e].
  - exfalso. destruct Hr as [_ [Hann [extra [declared [H1 [H2 _]]]]]].
    assert (Hd' : exists d', m = VDict d' /\ lookup "extra" d' = Some v).
    { destruct Hann as [-> | [d0 [percent [H0 [-> _]]]]].
      - exists d. auto.
      - injection H0 as <-. eexists. split; [ reflexivity | ].
        rewrite lookup_store_other by reflexivity. exact Hex. }
    destruct Hd' as [d' [-> Hd']].
    destruct (Hget d' Hd' "cost" (VFloat F64.zero)) as [e [He _]].
    unfold obind in He. rewrite H1 in He. congruence.
  - destruct Hr as [Hmsgs [Hcost Hwhere]]. cbn in Hmsgs, Hcost.
    split; [ | split; [ congruence | split; [ lia | congruence ] ] ].
    exists e. split; [ reflexivity | ]. intros Hus.
    destruct Hwhere as [Hupd | [m [s2 [Hupd Hacc]]]].
    + revert Hupd.
      unfold _update_context_window_stats, bind, lift.
      assert (Hext : _extract_prompt_tokens (VDict d)
                     = (if truthy v then Raise (AttributeError v "get") else Ok VNone)).
      { unfold _extract_prompt_tokens, resolve_usage, obind. cbn.
        unfold dict_get. rewrite Hex, Hus.
        destruct v as [ | b | z | f | t | l | d0 | md dd ]; try discriminate; cbn;
          try reflexivity.
        - destruct b; reflexivity.
        - destruct (z =? 0); reflexivity.
        - destruct f; reflexivity.
        - destruct (String.eqb t ""); reflexivity.
        - destruct l; reflexivity. }
      rewrite Hext. destruct (truthy v); cbn; intros H; [ congruence | discriminate ].
    + pose proof (update_effect _ _ _ _ Hupd) as [_ [_ [_ [_ [_ [_ [_ [_ Hann]]]]]]]].
      assert (Hd' : exists d', m = VDict d' /\ lookup "extra" d' = Some v).
      { destruct Hann as [-> | [d0 [percent [H0 [-> _]]]]].
        - exists d. auto.
        - injection H0 as <-. eexists. split; [ reflexivity | ].
          rewrite lookup_store_other by reflexivity. exact Hex. }
      destruct Hd' as [d' [-> Hd']].
      revert Hacc. unfold account_cost, bind, lift. cbn. unfold dict_get. rewrite Hd'.
      destruct v; try discriminate; cbn; intros H; congruence.
Qed.

End QueryEffects.

(** ** Resolving the context window *)

Section Resolution.
Context {W : Type} `{MW : Model W} `{EW : Environment W} `{SW : Storage W} `{L : Library}.

(** The white space that [strip] removes, among the code points below
    256: those for which [str.isspace] holds. *)
Lemma is_space_spec (c : ascii) :
  is_space c = true
  <-> In (nat_of_ascii c) [9; 10; 11; 12; 13; 28; 29; 30; 31; 32; 133; 160]%nat.
Proof.
  destruct c as [[ | ] [ | ] [ | ] [ | ] [ | ] [ | ] [ | ] [ | ]]; vm_compute;
    split; intros H;
    first [ solve [ reflexivity ]
          | solve [ discriminate H ]
          | solve [ repeat (destruct H as [H | H]; [ discriminate H | ]); destruct H ]
          | solve [ repeat (first [ left; reflexivity | right ]) ] ].
Qed.

Example strip_separators :
  strip (String (ascii_of_nat 31) (String (ascii_of_nat 160) " gpt-4o "
         ++ String (ascii_of_nat 133) (String (ascii_of_nat 28) "")))
  = "gpt-4o".
Proof. reflexivity. Qed.

Example strip_blank :
  strip (String (ascii_of_nat 9) (String (ascii_of_nat 31) " ")) = "".
Proof. reflexivity. Qed.

(** A window found in the map.  It is set before the map is touched
    again, so it is kept even when the update of the map raises; the map
    is updated exactly when the normalised name is not among its
    normalised keys; and from then on resolving does nothing. *)
Theorem resolve_context_window_max_hit
    (s : agent W) (raw : string) (cm : list (string * Z)) (w : W) (n : Z) r s' :
  context_window_max s = None ->
  model_config_model_name (world s) = VStr raw ->
  strip raw <> "" ->
  load_context_window_map (world s) = (Ok cm, w) ->
  lookup_context_window (strip raw) cm = Some n ->
  _resolve_context_window_max s = (r, s') ->
  context_window_max s' = Some n
  /\ messages s' = messages s /\ n_calls s' = n_calls s /\ cost s' = cost s
  /\ (if existsb (String.eqb (normalize_model_name (strip raw)))
            (map (fun kv => normalize_model_name (fst kv)) cm)
      then r = Ok tt /\ world s' = w /\ trace s' = trace s ++ [EvMapLoad (Ok cm)]
      else exists w',
             update_context_window_map (strip raw) n w = (r, w')
             /\ world s' = w'
             /\ trace s' = trace s ++ [EvMapLoad (Ok cm); EvMapUpdate (strip raw) n r])
  /\ _resolve_context_window_max s' = (Ok tt, s').
Proof.
  intros Hmax Hname Hstrip Hload Hlook.
  assert (Hraw : String.eqb raw "" = false).
  { destruct (String.eqb raw "") eqn:E; [ | reflexivity ].
    apply String.eqb_eq in E. subst raw. exfalso. apply Hstrip. reflexivity. }
  apply String.eqb_neq in Hstrip.
  assert (Hcached : forall s1 : agent W, context_window_max s1 = Some n ->
                      _resolve_context_window_max s1 = (Ok tt, s1)).
  { intros s1 H1. unfold _resolve_context_window_max, bind, gets. rewrite H1. reflexivity. }
  unfold _resolve_context_window_max, bind, gets, ret, modify, call_logged.
  rewrite Hmax, Hname, Hraw, Hstrip, Hload. cbn. rewrite Hlook. cbn.
  destruct (existsb _ _); cbn.
  - intros H; injection H as <- <-. cbn. repeat split; auto.
  - destruct (update_context_window_map (strip raw) n w) as [ru w'] eqn:Eu.
    destruct ru as [u | e]; intros H; injection H as <- <-; cbn;
      rewrite <- ?app_assoc; repeat split; auto.
    + destruct u. exists w'. auto.
    + exists w'. auto.
Qed.

(** No window to be found.  Without a usable model name (none, not a
    string, empty or blank) nothing is touched.  With a name that the map
    does not know, the map is read once and never written, in either
    mode, since the agent's own [_prompt_for_context_window] answers
    nothing; the window stays unknown, so the next query reads the map
    again. *)
Theorem resolve_context_window_max_miss (s : agent W) :
  context_window_max s = None ->
  ((forall raw, model_config_model_name (world s) = VStr raw -> strip raw = "") ->
   _resolve_context_window_max s = (Ok tt, s))
  /\ (forall raw rl w,
        model_config_model_name (world s) = VStr raw ->
        strip raw <> "" ->
        load_context_window_map (world s) = (rl, w) ->
        (forall cm, rl = Ok cm -> lookup_context_window (strip raw) cm = None) ->
        let s' := set_trace (trace s ++ [EvMapLoad rl]) (set_world w s) in
        _resolve_context_window_max s
        = (match rl with Ok _ => Ok tt | Raise e => Raise e end, s')
        /\ context_window_max s' = None).
Proof.
  intros Hmax. split.
  - intros Hname. unfold _resolve_context_window_max, bind, gets, ret. rewrite Hmax.
    destruct (model_config_model_name (world s)) as [ | | | | raw | | | ]; try reflexivity.
    destruct (String.eqb raw ""); [ reflexivity | ].
    rewrite (Hname raw eq_refl). reflexivity.
  - intros raw rl w Hname Hstrip Hload Hmiss.
    assert (Hraw : String.eqb raw "" = false).
    { destruct (String.eqb raw "") eqn:E; [ | reflexivity ].
      apply String.eqb_eq in E. subst raw. exfalso. apply Hstrip. reflexivity. }
    apply String.eqb_neq in Hstrip.
    split; [ | exact Hmax ].
    unfold _resolve_context_window_max, _prompt_for_context_window,
      bind, gets, ret, modify, call_logged.
    rewrite Hmax, Hname, Hraw, Hstrip, Hload.
    destruct rl as [cm | e]; [ | reflexivity ].
    cbn. rewrite (Hmiss cm eq_refl).
    destruct (String.eqb (context_window_mode s) "interactive"); reflexivity.
Qed.

End Resolution.

(** ** The live log *)

Section LiveLog.
Context {W : Type} `{MW : Model W} `{EW : Environment W} `{SW : Storage W} `{L : Library}.

(** The lines handed to the live log by the writes in [evs], each with
    the path it was written to, in order. *)
Fixpoint live_lines (evs : list event) : list (string * value) :=
  match evs with
  | [] => []
  | EvLiveWrite p lines _ :: rest => map (pair p) lines ++ live_lines rest
  | _ :: rest => live_lines rest
  end.

(** The lines [ms] are due to the live log of an agent whose live path is
    [path]. *)
Definition lines_due (path : option string) (ms : list value) : list (string * value) :=
  match path with
  | Some p => map (pair p) ms
  | None => []
  end.

(** From [s] to [s'] the messages [ms] were appended to the sequence, and
    handed to the live log when there is one; nothing else was. *)
Definition appends (s s' : agent W) (ms : list value) : Prop :=
  messages s' = messages s ++ ms
  /\ _live_trajectory_path s' = _live_trajectory_path s
  /\ exists evs,
       trace s' = trace s ++ evs
       /\ live_lines evs = lines_due (_live_trajectory_path s) ms.

Lemma live_lines_app evs evs' :
  live_lines (evs ++ evs') = live_lines evs ++ live_lines evs'.
Proof.
  induction evs as [ | ev rest IH ]; simpl; [ reflexivity | ].
  destruct ev; simpl; rewrite ?IH, ?app_assoc; reflexivity.
Qed.

Lemma lines_due_app path ms ms' :
  lines_due path (ms ++ ms') = lines_due path ms ++ lines_due path ms'.
Proof. destruct path; simpl; [ apply map_app | reflexivity ]. Qed.

Lemma lines_due_nil path : lines_due path [] = [].
Proof. destruct path; reflexivity. Qed.

Lemma appends_refl (s : agent W) : appends s s [].
Proof.
  split; [ rewrite app_nil_r; reflexivity | ]. split; [ reflexivity | ].
  exists []. rewrite app_nil_r, lines_due_nil. auto.
Qed.

Lemma appends_trans (s s1 s2 : agent W) ms ms' :
  appends s s1 ms -> appends s1 s2 ms' -> appends s s2 (ms ++ ms').
Proof.
  intros [Hm [Hp [evs [Ht Hl]]]] [Hm' [Hp' [evs' [Ht' Hl']]]].
  split; [ rewrite Hm', Hm, app_assoc; reflexivity | ].
  split; [ congruence | ].
  exists (evs ++ evs'). split; [ rewrite Ht', Ht, app_assoc; reflexivity | ].
  rewrite live_lines_app, lines_due_app, Hl, Hl', Hp. reflexivity.
Qed.

Lemma appends_nil_l (s s1 s2 : agent W) ms :
  appends s s1 [] -> appends s1 s2 ms -> appends s s2 ms.
Proof. intros H1 H2. exact (appends_trans _ _ _ _ _ H1 H2). Qed.

Lemma appends_nil_r (s s1 s2 : agent W) ms :
  appends s s1 ms -> appends s1 s2 [] -> appends s s2 ms.
Proof.
  intros H1 H2. pose proof (appends_trans _ _ _ _ _ H1 H2) as H.
  rewrite app_nil_r in H. exact H.
Qed.

Lemma appends_world (s : agent W) w : appends s (set_world w s) [].
Proof.
  split; [ cbn; rewrite app_nil_r; reflexivity | ]. split; [ reflexivity | ].
  exists []. cbn. rewrite app_nil_r, lines_due_nil. auto.
Qed.

Lemma appends_call {A} (f : W -> outcome A * W) (s : agent W) r s' :
  call f s = (r, s') -> appends s s' [].
Proof.
  unfold call. destruct (f (world s)) as [r0 w].
  intros H; injection H as <- <-. apply appends_world.
Qed.

(** A logged call that is no write of the live log. *)
Lemma appends_call_logged {A} (f : W -> outcome A * W) (ev : outcome A -> event)
    (s : agent W) r s' :
  (forall o, live_lines [ev o] = []) ->
  call_logged f ev s = (r, s') -> appends s s' [].
Proof.
  intros Hev. unfold call_logged. destruct (f (world s)) as [r0 w].
  intros H; injection H as <- <-.
  split; [ cbn; rewrite app_nil_r; reflexivity | ]. split; [ reflexivity | ].
  exists [ev r0]. cbn [trace set_trace]. rewrite lines_due_nil. auto.
Qed.

Lemma appends_add_messages (msgs : list value) (s : agent W) :
  exists s', add_messages msgs s = (Ok msgs, s') /\ appends s s' msgs.
Proof.
  unfold add_messages, bind, modify, gets, catch, call_logged, warning, ret, appends.
  cbn. destruct (_live_trajectory_path s) as [p | ] eqn:Ep; cbn.
  - destruct (append_lines p msgs (world s)) as [[u | e] w1]; cbn;
      eexists; (split; [ reflexivity | ]); cbn; rewrite Ep;
      (split; [ reflexivity | split; [ reflexivity | ] ]).
    + eexists [_]. split; [ reflexivity | cbn; rewrite app_nil_r; reflexivity ].
    + eexists [_; _]. rewrite <- app_assoc.
      split; [ reflexivity | cbn; rewrite app_nil_r; reflexivity ].
  - eexists. split; [ reflexivity | ]. cbn. rewrite Ep.
    split; [ reflexivity | split; [ reflexivity | ] ].
    exists []. rewrite app_nil_r. auto.
Qed.

Lemma appends_resolve (s : agent W) r s' :
  _resolve_context_window_max s = (r, s') -> appends s s' [].
Proof.
  assert (Hmax : forall (s0 : agent W) n, appends s0 (set_context_window_max n s0) []).
  { intros s0 n. split; [ cbn; rewrite app_nil_r; reflexivity | ].
    split; [ reflexivity | ]. exists []. cbn. rewrite app_nil_r, lines_due_nil. auto. }
  unfold _resolve_context_window_max, _prompt_for_context_window.
  unfold bind at 1. unfold gets at 1.
  destruct (context_window_max s) as [n0 | ];
    [ intros H; injection H as <- <-; apply appends_refl | ].
  unfold bind at 1. unfold gets at 1.
  destruct (model_config_model_name (world s)) as [ | | | | raw | | | ];
    try (intros H; injection H as <- <-; apply appends_refl).
  destruct (String.eqb raw "");
    [ intros H; injection H as <- <-; apply appends_refl | ].
  destruct (String.eqb (strip raw) "");
    [ intros H; injection H as <- <-; apply appends_refl | ].
  unfold bind at 1.
  destruct (call_logged load_context_window_map EvMapLoad s) as [[cm | e] s1] eqn:Eload;
    pose proof (appends_call_logged load_context_window_map EvMapLoad _ _ _
                  (fun _ => eq_refl) Eload) as H1;
    [ | intros H; injection H as <- <-; exact H1 ].
  unfold bind at 1. unfold gets at 1.
  destruct (lookup_context_window (strip raw) cm) as [n | ].
  - unfold bind at 1. unfold ret at 1. unfold bind at 1. unfold modify at 1.
    destruct (existsb _ _).
    + intros H; injection H as <- <-.
      exact (appends_nil_r _ _ _ _ H1 (Hmax s1 (Some n))).
    + intros H. apply appends_call_logged in H; [ | intros; reflexivity ].
      exact (appends_nil_r _ _ _ _ (appends_nil_r _ _ _ _ H1 (Hmax s1 (Some n))) H).
  - destruct (String.eqb (context_window_mode s1) "interactive"); cbn;
      intros H; injection H as <- <-; exact H1.
Qed.

Lemma appends_update (m0 : value) (s : agent W) r s' :
  _update_context_window_stats m0 s = (r, s') -> appends s s' [].
Proof.
  intros H. apply update_effect in H.
  destruct H as [Hm [_ [_ [_ [Ht [_ [Hp _]]]]]]].
  split; [ rewrite Hm, app_nil_r; reflexivity | ]. split; [ exact Hp | ].
  exists []. rewrite app_nil_r, lines_due_nil. auto.
Qed.

Lemma appends_set_cost (s : agent W) c : appends s (set_cost c s) [].
Proof.
  split; [ cbn; rewrite app_nil_r; reflexivity | ]. split; [ reflexivity | ].
  exists []. cbn. rewrite app_nil_r, lines_due_nil. auto.
Qed.

Lemma appends_record_response (m0 : value) (s : agent W) r s' :
  record_response m0 s = (r, s') ->
  appends s s' (match r with Ok m => [m] | Raise _ => [] end).
Proof.
  unfold record_response. unfold bind at 1.
  destruct (_update_context_window_stats m0 s) as [[m | e] s1] eqn:Eupd;
    pose proof (appends_update _ _ _ _ Eupd) as H1;
    [ | intros H; injection H as <- <-; exact H1 ].
  unfold bind, lift, gets, modify, ret.
  destruct (get m "extra" (VDict [])) as [extra | e];
    [ | intros H; injection H as <- <-; exact H1 ].
  destruct (get extra "cost" (VFloat F64.zero)) as [declared | e];
    [ | intros H; injection H as <- <-; exact H1 ].
  destruct (float_plus (cost s1) declared) as [c' | e];
    [ | intros H; injection H as <- <-; exact H1 ].
  destruct (appends_add_messages [m] (set_cost c' s1)) as [s2 [Hadd H2]].
  rewrite Hadd. intros H; injection H as <- <-.
  exact (appends_nil_l _ _ _ _ (appends_nil_r _ _ _ _ H1 (appends_set_cost s1 c')) H2).
Qed.

Lemma appends_query (s : agent W) r s' :
  query s = (r, s') ->
  appends s s' (match r with Ok m => [m] | Raise _ => [] end).
Proof.
  intros Hq. destruct (limits_exceeded s) eqn:Hlim.
  { rewrite query_unfold in Hq. unfold bind, gets in Hq. rewrite Hlim in Hq.
    injection Hq as <- <-. apply appends_refl. }
  destruct (query_stages s _ _ Hlim Hq) as [rres [s1 [Hres Hrest]]].
  assert (H1 : appends s s1 []).
  { destruct (context_window_max s).
    - injection Hres as _ <-. apply appends_refl.
    - exact (appends_resolve _ _ _ Hres). }
  destruct rres as [u | e]; [ | destruct Hrest as [-> ->]; exact H1 ].
  destruct Hrest as [rq [w [_ Hrest]]]. cbn zeta in Hrest.
  assert (H2 : appends s1
                 (set_trace (trace s1 ++ [EvQuery (messages s1) rq])
                    (set_world w (set_n_calls (n_calls s1 + 1) s1))) []).
  { split; [ cbn; rewrite app_nil_r; reflexivity | ]. split; [ reflexivity | ].
    eexists [_]. cbn. rewrite lines_due_nil. auto. }
  destruct rq as [m0 | e].
  - apply appends_record_response in Hrest.
    exact (appends_nil_l _ _ _ _ (appends_nil_l _ _ _ _ H1 H2) Hrest).
  - destruct Hrest as [-> ->]. exact (appends_nil_l _ _ _ _ H1 H2).
Qed.

Lemma live_lines_executions results :
  live_lines (map (fun ar : value * outcome value => EvExecute (fst ar) (snd ar)) results)
  = [].
Proof. induction results as [ | ar rest IH ]; simpl; auto. Qed.

Lemma appends_execute_all (actions : list value) (s : agent W) r s' :
  execute_all actions s = (r, s') -> appends s s' [].
Proof.
  intros H. apply execute_all_log in H.
  destruct H as [results [Ht [Hm [Hp _]]]].
  split; [ rewrite Hm, app_nil_r; reflexivity | ]. split; [ exact Hp | ].
  eexists. split; [ exact Ht | ]. rewrite live_lines_executions, lines_due_nil.
  reflexivity.
Qed.

Lemma appends_get_template_vars (kwargs : dict) (s : agent W) r s' :
  get_template_vars kwargs s = (r, s') -> appends s s' [].
Proof.
  intros H. apply get_template_vars_frame in H. destruct H as [w ->].
  apply appends_world.
Qed.

Lemma appends_execute_actions (m : value) (s : agent W) r s' :
  execute_actions m s = (r, s') ->
  appends s s' (match r with Ok obs => obs | Raise _ => [] end).
Proof.
  unfold execute_actions. unfold bind at 1. unfold lift at 1.
  destruct (get m "extra" (VDict [])) as [extra | e];
    [ | intros H; injection H as <- <-; apply appends_refl ].
  unfold bind at 1. unfold lift at 1.
  destruct (get extra "actions" (VList [])) as [declared | e];
    [ | intros H; injection H as <- <-; apply appends_refl ].
  unfold bind at 1. unfold lift at 1.
  destruct (iterate declared) as [actions | e];
    [ | intros H; injection H as <- <-; apply appends_refl ].
  unfold bind at 1.
  destruct (execute_all actions s) as [[outputs | e] s1] eqn:Eall;
    pose proof (appends_execute_all _ _ _ _ Eall) as H1;
    [ | intros H; injection H as <- <-; exact H1 ].
  unfold bind at 1.
  destruct (get_template_vars [] s1) as [[vars | e] s2] eqn:Evars;
    pose proof (appends_nil_l _ _ _ _ H1 (appends_get_template_vars _ _ _ _ Evars)) as H2;
    [ | intros H; injection H as <- <-; exact H2 ].
  unfold bind at 1.
  destruct (call (model_format_observation_messages m outputs vars) s2)
    as [[obs | e] s3] eqn:Ecall;
    pose proof (appends_nil_l _ _ _ _ H2 (appends_call _ _ _ _ Ecall)) as H3;
    [ | intros H; injection H as <- <-; exact H3 ].
  destruct (appends_add_messages obs s3) as [s4 [Hadd H4]].
  rewrite Hadd. intros H; injection H as <- <-.
  exact (appends_nil_l _ _ _ _ H3 H4).
Qed.

Lemma appends_step (s : agent W) r s' :
  step s = (r, s') -> exists ms, appends s s' ms.
Proof.
  unfold step. unfold bind.
  destruct (query s) as [[m | e] s1] eqn:Eq; pose proof (appends_query _ _ _ Eq) as H1.
  - intros H. apply appends_execute_actions in H.
    eexists. exact (appends_trans _ _ _ _ _ H1 H).
  - intros H; injection H as <- <-. eexists. exact H1.
Qed.

Lemma appends_handle_uncaught_exception (e : exn) (s : agent W) r s' :
  handle_uncaught_exception e s = (r, s') ->
  appends s s' (match r with Ok ms => ms | Raise _ => [] end).
Proof.
  unfold handle_uncaught_exception. unfold bind.
  destruct (call (model_format_message (exit_kwargs e)) s) as [[m | e'] s1] eqn:Ecall;
    pose proof (appends_call _ _ _ _ Ecall) as H1.
  - destruct (appends_add_messages [m] s1) as [s2 [Hadd H2]].
    rewrite Hadd. intros H; injection H as <- <-.
    exact (appends_nil_l _ _ _ _ H1 H2).
  - intros H; injection H as <- <-. exact H1.
Qed.

Lemma appends_on_exception (e : exn) (s : agent W) r s' :
  on_exception e s = (r, s') -> exists ms, appends s s' ms.
Proof.
  destruct e as [cls ms | cls text]; cbn [on_exception]; unfold bind, ret, raise.
  - destruct (appends_add_messages ms s) as [s1 [Hadd H1]]. rewrite Hadd.
    intros H; injection H as <- <-. eexists. exact H1.
  - destruct (handle_uncaught_exception (Exception cls text) s) as [[ms | e] s1] eqn:Eh;
      pose proof (appends_handle_uncaught_exception _ _ _ _ Eh) as H1;
      intros H; injection H as <- <-; eexists; exact H1.
Qed.

Lemma appends_save (path : option string) (extra_dicts : list value) (s : agent W) r s' :
  save path extra_dicts s = (r, s') -> appends s s' [].
Proof.
  unfold save. unfold bind at 1.
  destruct (serialize extra_dicts s) as [[data | e] s1] eqn:Eser;
    destruct (serialize_frame _ _ _ _ Eser) as [w1 ->];
    [ | intros H; injection H as <- <-; apply appends_world ].
  unfold bind at 1. destruct path as [p | ].
  - destruct (call_logged (write_text p data) (EvSnapshotWrite p data) (set_world w1 s))
      as [[u | e] s2] eqn:Ew;
      pose proof (appends_call_logged (write_text p data) (EvSnapshotWrite p data) _ _ _
                    (fun _ => eq_refl) Ew) as H2;
      intros H; injection H as <- <-;
      exact (appends_nil_l _ _ _ _ (appends_world s w1) H2).
  - intros H; injection H as <- <-. apply appends_world.
Qed.

(** A turn of the loop only appends, and what it appends is what it hands
    to the live log. *)
Lemma appends_turn (s : agent W) r s' :
  turn s = (r, s') -> exists ms, appends s s' ms.
Proof.
  unfold turn, finally, catch. unfold bind, gets, lift, ret.
  destruct (step s) as [[obs | e] s1] eqn:Estep;
    destruct (appends_step _ _ _ Estep) as [ms1 H1].
  - destruct (save (output_path (config s1)) [] s1) as [[data | e] s2] eqn:Esave;
      pose proof (appends_nil_r _ _ _ _ H1 (appends_save _ _ _ _ _ Esave)) as H2.
    + rewrite last_message_eq. destruct (messages s2).
      * intros H; injection H as <- <-. eexists; exact H2.
      * destruct (get _ "role" VNone);
          intros H; injection H as <- <-; eexists; exact H2.
    + intros H; injection H as <- <-. eexists; exact H2.
  - destruct (on_exception e s1) as [r1 s2] eqn:Eon.
    destruct (appends_on_exception _ _ _ _ Eon) as [ms2 H2].
    pose proof (appends_trans _ _ _ _ _ H1 H2) as H12.
    destruct (save (output_path (config s2)) [] s2) as [[data | e'] s3] eqn:Esave;
      pose proof (appends_nil_r _ _ _ _ H12 (appends_save _ _ _ _ _ Esave)) as H3.
    + destruct r1 as [u | e1].
      * rewrite last_message_eq. destruct (messages s3).
        -- intros H; injection H as <- <-. eexists; exact H3.
        -- destruct (get _ "role" VNone);
             intros H; injection H as <- <-; eexists; exact H3.
      * intros H; injection H as <- <-. eexists; exact H3.
    + intros H; injection H as <- <-. eexists; exact H3.
Qed.

Lemma appends_run_loop (fuel : nat) : forall (s : agent W) r s',
  run_loop fuel s = Some (r, s') -> exists ms, appends s s' ms.
Proof.
  induction fuel as [ | fuel IH ]; intros s r s' Hrun; simpl in Hrun; [ discriminate | ].
  destruct (turn s) as [[[ | ] | e] s1] eqn:Eturn;
    destruct (appends_turn _ _ _ Eturn) as [ms1 H1].
  - unfold result, bind, lift in Hrun. rewrite last_message_eq in Hrun.
    destruct (messages s1).
    + injection Hrun as <- <-. eexists; exact H1.
    + destruct (get _ "extra" (VDict [])); injection Hrun as <- <-; eexists; exact H1.
  - destruct (IH _ _ _ Hrun) as [ms2 H2].
    eexists. exact (appends_trans _ _ _ _ _ H1 H2).
  - injection Hrun as <- <-. eexists; exact H1.
Qed.

End LiveLog.

(** ** Before the loop *)

Section BeforeTheLoop.
Context {W : Type} `{MW : Model W} `{EW : Environment W} `{SW : Storage W} `{L : Library}.

(** The entries of the log that setting up can leave: reads and updates of
    the context-window map, writes of the live log, warnings. *)
Definition setup_event (ev : event) : Prop :=
  match ev with
  | EvMapLoad _ | EvMapUpdate _ _ _ | EvLiveWrite _ _ _ | EvWarning _ _ => True
  | _ => False
  end.

(** Those of the context-window map among them. *)
Definition map_event (ev : event) : Prop :=
  match ev with
  | EvMapLoad _ | EvMapUpdate _ _ _ => True
  | _ => False
  end.

(** From [s] to [s'] the counters and the configuration are as they were,
    and the log has grown by entries of the kind [P] only. *)
Definition quiet (P : event -> Prop) (s s' : agent W) : Prop :=
  n_calls s' = n_calls s /\ cost s' = cost s /\ config s' = config s
  /\ exists evs, trace s' = trace s ++ evs /\ Forall P evs.

Lemma quiet_refl P (s : agent W) : quiet P s s.
Proof.
  repeat split; auto. exists []. rewrite app_nil_r. auto.
Qed.

Lemma quiet_weaken (P Q : event -> Prop) (s s' : agent W) :
  (forall ev, P ev -> Q ev) -> quiet P s s' -> quiet Q s s'.
Proof.
  intros HPQ [Hn [Hc [Hcfg [evs [Ht Hf]]]]]. repeat split; auto.
  exists evs. split; [ exact Ht | ]. eapply Forall_impl; [ exact HPQ | exact Hf ].
Qed.

Lemma quiet_trans P (s s1 s2 : agent W) :
  quiet P s s1 -> quiet P s1 s2 -> quiet P s s2.
Proof.
  intros [Hn [Hc [Hcfg [evs [Ht Hf]]]]] [Hn' [Hc' [Hcfg' [evs' [Ht' Hf']]]]].
  repeat split; try congruence.
  exists (evs ++ evs'). split; [ rewrite Ht', Ht, app_assoc; reflexivity | ].
  apply Forall_app. auto.
Qed.

Lemma quiet_world P (s : agent W) w : quiet P s (set_world w s).
Proof. repeat split; auto. exists []. cbn. rewrite app_nil_r. auto. Qed.

Lemma quiet_call P {A} (f : W -> outcome A * W) (s : agent W) r s' :
  call f s = (r, s') -> quiet P s s'.
Proof.
  unfold call. destruct (f (world s)) as [r0 w].
  intros H; injection H as <- <-. apply quiet_world.
Qed.

Lemma quiet_call_logged P {A} (f : W -> outcome A * W) (ev : outcome A -> event)
    (s : agent W) r s' :
  (forall o, P (ev o)) ->
  call_logged f ev s = (r, s') -> quiet P s s'.
Proof.
  intros Hev. unfold call_logged. destruct (f (world s)) as [r0 w].
  intros H; injection H as <- <-. repeat split; auto.
  exists [ev r0]. split; [ reflexivity | ]. constructor; [ apply Hev | constructor ].
Qed.

Lemma quiet_add_messages (msgs : list value) (s s' : agent W) r :
  add_messages msgs s = (r, s') -> quiet setup_event s s'.
Proof.
  unfold add_messages, bind, modify, gets, catch, call_logged, warning, ret. cbn.
  destruct (_live_trajectory_path s) as [p | ]; cbn.
  - destruct (append_lines p msgs (world s)) as [[u | e] w1]; cbn;
      intros H; injection H as _ <-; repeat split; auto; cbn.
    + eexists [_]. split; [ reflexivity | ]. repeat constructor.
    + eexists [_; _]. rewrite <- app_assoc. split; [ reflexivity | ]. repeat constructor.
  - intros H; injection H as _ <-. repeat split; auto.
    exists []. cbn. rewrite app_nil_r. auto.
Qed.

Lemma quiet_resolve (s : agent W) r s' :
  _resolve_context_window_max s = (r, s') -> quiet map_event s s'.
Proof.
  assert (Hmax : forall (s0 : agent W) n, quiet map_event s0 (set_context_window_max n s0)).
  { intros s0 n. repeat split; auto. exists []. cbn. rewrite app_nil_r. auto. }
  unfold _resolve_context_window_max, _prompt_for_context_window.
  unfold bind at 1. unfold gets at 1.
  destruct (context_window_max s) as [n0 | ];
    [ intros H; injection H as <- <-; apply quiet_refl | ].
  unfold bind at 1. unfold gets at 1.
  destruct (model_config_model_name (world s)) as [ | | | | raw | | | ];
    try (intros H; injection H as <- <-; apply quiet_refl).
  destruct (String.eqb raw "");
    [ intros H; injection H as <- <-; apply quiet_refl | ].
  destruct (String.eqb (strip raw) "");
    [ intros H; injection H as <- <-; apply quiet_refl | ].
  unfold bind at 1.
  destruct (call_logged load_context_window_map EvMapLoad s) as [[cm | e] s1] eqn:Eload;
    pose proof (quiet_call_logged map_event load_context_window_map EvMapLoad _ _ _
                  (fun _ => I) Eload) as H1;
    [ | intros H; injection H as <- <-; exact H1 ].
  unfold bind at 1. unfold gets at 1.
  destruct (lookup_context_window (strip raw) cm) as [n | ].
  - unfold bind at 1. unfold ret at 1. unfold bind at 1. unfold modify at 1.
    destruct (existsb _ _).
    + intros H; injection H as <- <-.
      exact (quiet_trans _ _ _ _ H1 (Hmax s1 (Some n))).
    + intros H. apply (quiet_call_logged map_event) in H; [ | intros; exact I ].
      exact (quiet_trans _ _ _ _ (quiet_trans _ _ _ _ H1 (Hmax s1 (Some n))) H).
  - destruct (String.eqb (context_window_mode s1) "interactive"); cbn;
      intros H; injection H as <- <-; exact H1.
Qed.

Lemma quiet_render_template (template : string) (s : agent W) r s' :
  _render_template template s = (r, s') -> quiet map_event s s' /\ appends s s' [].
Proof.
  unfold _render_template, bind, lift.
  destruct (get_template_vars [] s) as [[vars | e] s1] eqn:Evars;
    destruct (get_template_vars_frame _ _ _ _ Evars) as [w ->];
    intros H; injection H as _ <-; split; try apply quiet_world; apply appends_world.
Qed.

(** The state in which [run] starts setting up: the arguments are among
    the template variables and the sequence is empty. *)
Definition cleared (task : string) (kwargs : dict) (s : agent W) : agent W :=
  set_messages []
    (set_extra_template_vars
       (update (extra_template_vars s) (("task", VStr task) :: kwargs)) s).

(** What [run] does before the loop: the sequence starts anew with the
    two prompts as the model formats them, or stays empty when something
    raises; the counters are not reset; and neither the model is queried
    nor an action executed nor a snapshot written. *)
Lemma start_effect (task : string) (kwargs : dict) (s : agent W) r s1 :
  start task kwargs s = (r, s1) ->
  appends (cleared task kwargs s) s1 (messages s1)
  /\ match r with
     | Ok _ =>
         quiet setup_event s s1
         /\ exists system_content user_content w1 w1' w2 w2' system user,
              model_format_message
                [("role", VStr "system"); ("content", VStr system_content)] w1
              = (Ok system, w1')
              /\ model_format_message
                   [("role", VStr "user"); ("content", VStr user_content)] w2
                 = (Ok user, w2')
              /\ messages s1 = [system; user]
     | Raise _ => quiet map_event s s1 /\ messages s1 = []
     end.
Proof.
  unfold start. unfold bind at 1. unfold modify at 1.
  unfold bind at 1. unfold modify at 1.
  fold (cleared task kwargs s).
  assert (Q0 : quiet map_event s (cleared task kwargs s)).
  { repeat split; auto. exists []. cbn. rewrite app_nil_r. auto. }
  assert (Hm0 : messages (cleared task kwargs s) = []) by reflexivity.
  set (s0 := cleared task kwargs s) in *. clearbody s0.
  assert (Hfin : forall (sx : agent W) ms,
            appends s0 sx ms -> appends s0 sx (messages sx) /\ messages sx = ms).
  { intros sx ms A. pose proof A as [Hm _]. rewrite Hm0 in Hm. cbn in Hm.
    split; [ rewrite Hm; exact A | exact Hm ]. }
  unfold bind at 1.
  destruct (_resolve_context_window_max s0) as [[u | e] s2] eqn:Eres;
    pose proof (quiet_trans _ _ _ _ Q0 (quiet_resolve _ _ _ Eres)) as Q2;
    pose proof (appends_resolve _ _ _ Eres) as A2.
  2:{ intros H; injection H as <- <-. destruct (Hfin _ _ A2) as [H2 H3]. auto. }
  unfold bind at 1. unfold gets at 1.
  unfold bind at 1.
  destruct (_render_template (system_template (config s2)) s2) as [[sc | e] s3] eqn:Er1;
    destruct (quiet_render_template _ _ _ _ Er1) as [Q3' A3'];
    pose proof (quiet_trans _ _ _ _ Q2 Q3') as Q3;
    pose proof (appends_nil_l _ _ _ _ A2 A3') as A3.
  2:{ intros H; injection H as <- <-. destruct (Hfin _ _ A3) as [H2 H3]. auto. }
  unfold bind at 1.
  destruct (call (model_format_message [("role", VStr "system"); ("content", VStr sc)]) s3)
    as [[sys | e] s4] eqn:Ec1;
    pose proof (quiet_trans _ _ _ _ Q3 (quiet_call map_event _ _ _ _ Ec1)) as Q4;
    pose proof (appends_nil_l _ _ _ _ A3 (appends_call _ _ _ _ Ec1)) as A4.
  2:{ intros H; injection H as <- <-. destruct (Hfin _ _ A4) as [H2 H3]. auto. }
  unfold bind at 1.
  destruct (_render_template (instance_template (config s2)) s4) as [[uc | e] s5] eqn:Er2;
    destruct (quiet_render_template _ _ _ _ Er2) as [Q5' A5'];
    pose proof (quiet_trans _ _ _ _ Q4 Q5') as Q5;
    pose proof (appends_nil_l _ _ _ _ A4 A5') as A5.
  2:{ intros H; injection H as <- <-. destruct (Hfin _ _ A5) as [H2 H3]. auto. }
  unfold bind at 1.
  destruct (call (model_format_message [("role", VStr "user"); ("content", VStr uc)]) s5)
    as [[usr | e] s6] eqn:Ec2;
    pose proof (quiet_trans _ _ _ _ Q5 (quiet_call map_event _ _ _ _ Ec2)) as Q6;
    pose proof (appends_nil_l _ _ _ _ A5 (appends_call _ _ _ _ Ec2)) as A6.
  2:{ intros H; injection H as <- <-. destruct (Hfin _ _ A6) as [H2 H3]. auto. }
  unfold bind at 1.
  destruct (appends_add_messages [sys; usr] s6) as [s7 [Hadd A7']].
  rewrite Hadd. unfold ret. intros H; injection H as <- <-.
  assert (Q7 : quiet setup_event s s7).
  { apply (quiet_trans _ _ s6); [ | exact (quiet_add_messages _ _ _ _ Hadd) ].
    apply (quiet_weaken map_event); [ | exact Q6 ].
    intros ev Hev. destruct ev; try destruct Hev; exact I. }
  pose proof (appends_nil_l _ _ _ _ A6 A7') as A7.
  destruct (Hfin _ _ A7) as [H2 H3].
  split; [ exact H2 | ]. split; [ exact Q7 | ].
  unfold call in Ec1, Ec2.
  destruct (model_format_message _ (world s3)) as [r1 w1'] eqn:E1.
  destruct (model_format_message _ (world s5)) as [r2 w2'] eqn:E2.
  injection Ec1 as -> _. injection Ec2 as -> _.
  exists sc, uc, (world s3), w1', (world s5), w2', sys, usr. auto.
Qed.


(** An exception raised before the loop (by the context-window map, by
    the rendering of a template, by [format_message]) leaves [run] as it
    is, and no record of it is made: the message sequence is empty, no
    exit message is formatted, nothing goes to the live log, no snapshot
    is written. *)
Theorem run_raises_unrecorded_before_loop
    (task : string) (kwargs : dict) (s : agent W) (e : exn) (s1 : agent W) :
  start task kwargs s = (Raise e, s1) ->
  (forall fuel, run fuel task kwargs s = Some (Raise e, s1))
  /\ messages s1 = []
  /\ n_calls s1 = n_calls s /\ cost s1 = cost s
  /\ exists evs,
       trace s1 = trace s ++ evs
       /\ (forall ev, In ev evs -> map_event ev).
Proof.
  intros Hstart.
  destruct (start_effect _ _ _ _ _ Hstart)
    as [_ [[Hn [Hc [_ [evs [Ht Hq]]]]] Hm]].
  split; [ intros fuel; unfold run; rewrite Hstart; reflexivity | ].
  split; [ exact Hm | ]. split; [ exact Hn | ]. split; [ exact Hc | ].
  exists evs. split; [ exact Ht | ].
  intros ev Hin. rewrite Forall_forall in Hq. exact (Hq ev Hin).
Qed.

(** The sequence that [run] leaves starts with the two prompts, whatever
    it held before, and every message in it was handed to the live log,
    in order and nothing else, when the agent has one: [run] empties the
    sequence but not the file, and the loop only appends to both. *)
Theorem run_hands_messages_to_live_log
    (fuel : nat) (task : string) (kwargs : dict) (s : agent W) r s' :
  run fuel task kwargs s = Some (r, s') ->
  _live_trajectory_path s' = _live_trajectory_path s
  /\ (exists evs,
        trace s' = trace s ++ evs
        /\ live_lines evs = lines_due (_live_trajectory_path s) (messages s'))
  /\ forall u s1,
       start task kwargs s = (Ok u, s1) ->
       exists system_content user_content w1 w1' w2 w2' system user rest,
         model_format_message
           [("role", VStr "system"); ("content", VStr system_content)] w1
         = (Ok system, w1')
         /\ model_format_message
              [("role", VStr "user"); ("content", VStr user_content)] w2
            = (Ok user, w2')
         /\ messages s' = system :: user :: rest.
Proof.
  unfold run. destruct (start task kwargs s) as [r0 s1] eqn:Estart.
  destruct (start_effect _ _ _ _ _ Estart) as [A1 Hr0].
  assert (Hfrom : forall sx ms,
            appends (cleared task kwargs s) sx ms ->
            messages sx = ms
            /\ _live_trajectory_path sx = _live_trajectory_path s
            /\ exists evs,
                 trace sx = trace s ++ evs
                 /\ live_lines evs = lines_due (_live_trajectory_path s) (messages sx)).
  { intros sx ms [Hm [Hp [evs [Ht Hl]]]]. cbn in Hm, Hp, Ht, Hl.
    split; [ exact Hm | ]. split; [ exact Hp | ].
    exists evs. rewrite Hm. auto. }
  destruct r0 as [u | e].
  - intros Hloop. destruct (appends_run_loop _ _ _ _ Hloop) as [ms A2].
    destruct (Hfrom _ _ (appends_trans _ _ _ _ _ A1 A2)) as [Hm [Hp Hev]].
    split; [ exact Hp | ]. split; [ exact Hev | ].
    intros u' s1' H; injection H as _ <-.
    destruct Hr0 as [_ [sc [uc [w1 [w1' [w2 [w2' [sys [usr [H1 [H2 H3]]]]]]]]]]].
    exists sc, uc, w1, w1', w2, w2', sys, usr, ms.
    split; [ exact H1 | ]. split; [ exact H2 | ]. rewrite Hm, H3. reflexivity.
  - intros H; injection H as <- <-.
    destruct (Hfrom _ _ A1) as [_ [Hp Hev]].
    split; [ exact Hp | ]. split; [ exact Hev | ]. intros u s1' H. discriminate.
Qed.

Lemma tolerant_cost (c : F64.float) :
  tolerant (fun s : agent W => cost s = c) any any.
Proof.
  constructor; intros; cbn; auto; try exact I. apply Forall_any.
Qed.


End BeforeTheLoop.

(** ** Setting the live log up *)

Section LiveTrajectory.
Context {W : Type} `{MW : Model W} `{EW : Environment W} `{SW : Storage W} `{L : Library}.

(** The warning that a failed file operation leaves in the log. *)
Definition warned (text : string) (r : outcome unit) : list event :=
  match r with
  | Ok _ => []
  | Raise e => [EvWarning text e]
  end.

(** Setting the live path and then adding messages.  Neither raises,
    whatever the file system does: a failure to clear the file or to
    write to it leaves one warning in the log.  The path is set and the
    messages are in the sequence in any case.  With a path, the file is
    removed once and the messages are then handed to it in one write;
    without one, the file system is not touched. *)
Theorem live_trajectory_set_then_written
    (path : option string) (msgs : list value) (s : agent W) :
  exists s1 s2,
    set_live_trajectory_path path s = (Ok tt, s1)
    /\ _live_trajectory_path s1 = path
    /\ messages s1 = messages s
    /\ add_messages msgs s1 = (Ok msgs, s2)
    /\ _live_trajectory_path s2 = path
    /\ messages s2 = messages s ++ msgs
    /\ n_calls s2 = n_calls s /\ cost s2 = cost s
    /\ match path with
       | None => trace s2 = trace s /\ world s2 = world s
       | Some p =>
           exists ru w1 ra w2,
             unlink p (world s) = (ru, w1)
             /\ append_lines p msgs w1 = (ra, w2)
             /\ world s2 = w2
             /\ trace s2
                = trace s
                  ++ EvUnlink p ru
                     :: warned "Failed to initialize live trajectory file" ru
                  ++ EvLiveWrite p msgs ra
                     :: warned "Failed to write live trajectory" ra
       end.
Proof.
  destruct path as [p | ].
  - destruct (unlink p (world s)) as [ru w1] eqn:Eu.
    pose (s1 := set_trace
                  (trace s ++ EvUnlink p ru
                             :: warned "Failed to initialize live trajectory file" ru)
                  (set_world w1 (set__live_trajectory_path (Some p) s))).
    assert (H1 : set_live_trajectory_path (Some p) s = (Ok tt, s1)).
    { unfold set_live_trajectory_path, bind, modify, catch, call_logged, warning, s1.
      cbn. rewrite Eu. destruct ru as [[] | e]; cbn; unfold modify; cbn;
        rewrite <- ?app_assoc; reflexivity. }
    destruct (append_lines p msgs w1) as [ra w2] eqn:Ea.
    pose (s2 := set_trace
                  (trace s1 ++ EvLiveWrite p msgs ra
                              :: warned "Failed to write live trajectory" ra)
                  (set_world w2 (set_messages (messages s1 ++ msgs) s1))).
    assert (H2 : add_messages msgs s1 = (Ok msgs, s2)).
    { unfold add_messages, bind, modify, gets, catch, call_logged, warning, ret, s2.
      cbn. rewrite Ea. destruct ra as [[] | e]; cbn; unfold modify; cbn;
        rewrite <- ?app_assoc; reflexivity. }
    exists s1, s2. repeat (split; [ first [ assumption | reflexivity ] | ]).
    exists ru, w1, ra, w2. repeat (split; [ first [ assumption | reflexivity ] | ]).
    cbn. rewrite <- app_assoc. reflexivity.
  - exists (set__live_trajectory_path None s),
           (set_messages (messages s ++ msgs) (set__live_trajectory_path None s)).
    repeat (split; [ reflexivity | ]). split; reflexivity.
Qed.

End LiveTrajectory.

(** ** The counters over a run *)

Section CountersOfARun.
Context {W : Type} `{MW : Model W} `{EW : Environment W} `{SW : Storage W} `{L : Library}.

(** What a query does to [cost]: nothing when it raises, and the
    addition of the cost that the returned response declares when it
    returns. *)
Lemma query_cost (s : agent W) r s' :
  query s = (r, s') ->
  match r with
  | Ok m =>
      exists extra declared,
        get m "extra" (VDict []) = Ok extra
        /\ get extra "cost" (VFloat F64.zero) = Ok declared
        /\ float_plus (cost s) declared = Ok (cost s')
  | Raise _ => cost s' = cost s
  end.
Proof.
  intros Hq. destruct (limits_exceeded s) eqn:Hlim.
  { rewrite query_unfold in Hq. unfold bind, gets in Hq. rewrite Hlim in Hq.
    injection Hq as <- <-. reflexivity. }
  destruct (query_stages s _ _ Hlim Hq) as [rres [s1 [Hres Hrest]]].
  pose proof (resolve_or_skip_effect _ _ _ Hres) as [_ [_ [Hc1 _]]].
  destruct rres as [u | e]; [ | destruct Hrest as [-> ->]; exact Hc1 ].
  destruct Hrest as [rq [w [_ Hrest]]]. cbn zeta in Hrest.
  destruct rq as [m0 | e]; [ | destruct Hrest as [-> ->]; exact Hc1 ].
  pose proof (record_response_effect _ _ _ _ Hrest) as [_ [_ [_ Hr]]].
  destruct r as [m | e].
  - destruct Hr as [_ [_ [extra [declared [H1 [H2 H3]]]]]].
    exists extra, declared. cbn in H3. rewrite <- Hc1. auto.
  - destruct Hr as [_ [Hc _]]. cbn in Hc. congruence.
Qed.

(** Past its query, a turn leaves [cost] alone. *)
Lemma turn_cost (s : agent W) r s' :
  turn s = (r, s') -> exists rq sq, query s = (rq, sq) /\ cost s' = cost sq.
Proof.
  rewrite turn_after_query.
  destruct (query s) as [rq sq] eqn:Eq. intros Hturn. exists rq, sq.
  split; [ reflexivity | ].
  assert (Hframe : forall body,
            triple (fun sx : agent W => cost sx = cost sq) any body any ->
            conclude body sq = (r, s') -> cost s' = cost sq).
  { intros body Hbody Hrun.
    pose proof (triple_conclude _ any any body (tolerant_cost _) rely_any Hbody sq
                  eq_refl) as Ht.
    rewrite Hrun in Ht. destruct r; exact (proj1 Ht). }
  destruct rq as [m | e].
  - apply (Hframe _) with (2 := Hturn).
    eapply triple_bind with (mid := any).
    + apply (triple_execute_actions _ any any (tolerant_cost _) rely_any).
    + intros _ _. apply triple_ret. exact I.
  - apply (Hframe _) with (2 := Hturn). apply triple_raise. exact I.
Qed.

Lemma triple_resolve_issued (N : Z) (s0 : agent W) :
  triple (issued N s0) any _resolve_context_window_max any.
Proof.
  apply triple_resolve_generic with (good := any).
  - apply tolerant_issued.
  - intros s n Hs. exact Hs.
  - apply behaves_any.
  - intros name n. apply behaves_any.
Qed.

Lemma issued_start (s : agent W) : issued (step_limit (config s)) s s.
Proof.
  split; [ reflexivity | ]. exists []. rewrite app_nil_r. split; [ reflexivity | cbn; lia ].
Qed.

(** C6, as the code has it.  Over a turn of the loop and over a run,
    [n_calls] grows by the number of queries issued to the model: it is
    incremented before the model is called, so a query that raises is
    counted as well.  In a turn [cost] changes in [query] only: not at
    all when the query raises, and by the addition of the cost that the
    response declares when it returns, which is [0.0] when its [extra]
    has no [cost], so that [cost] is then what it was (a negative zero
    becomes the positive one).  With declared costs that are not
    negative, [cost] never decreases, over a turn and over a run. *)
Theorem n_calls_counts_issued_queries :
  (forall (s : agent W) r s',
     turn s = (r, s') ->
     (exists evs,
        trace s' = trace s ++ evs /\ n_calls s' = n_calls s + queries_issued evs)
     /\ exists rq sq,
          query s = (rq, sq)
          /\ cost s' = cost sq
          /\ match rq with
             | Ok m =>
                 exists extra declared,
                   get m "extra" (VDict []) = Ok extra
                   /\ get extra "cost" (VFloat F64.zero) = Ok declared
                   /\ float_plus (cost s) declared = Ok (cost sq)
             | Raise _ => cost sq = cost s
             end)
  /\ (forall fuel task kwargs (s : agent W) r s',
        run fuel task kwargs s = Some (r, s') ->
        exists evs,
          trace s' = trace s ++ evs /\ n_calls s' = n_calls s + queries_issued evs)
  /\ (forall (s : agent W) (m : value) s' (extra : dict),
        query s = (Ok m, s') ->
        get m "extra" (VDict []) = Ok (VDict extra) ->
        lookup "cost" extra = None ->
        cost s' = F64.add (cost s) F64.zero
        /\ (cost s' = cost s
            \/ (cost s = S754_zero true /\ cost s' = S754_zero false)))
  /\ ((forall h, behaves any (model_query h) declares_payable_cost) ->
      (forall (s : agent W) r s',
         F64.payable (cost s) -> turn s = (r, s') ->
         F64.payable (cost s') /\ F64.le (cost s) (cost s'))
      /\ (forall fuel task kwargs (s : agent W) r s',
            F64.payable (cost s) -> run fuel task kwargs s = Some (r, s') ->
            F64.payable (cost s') /\ F64.le (cost s) (cost s'))).
Proof.
  split; [ | split; [ | split ] ].
  - intros s r s' Hturn. split.
    + pose proof (triple_turn (issued (step_limit (config s)) s) any any
                    (tolerant_issued _ s) rely_any (triple_query_issued _ s)
                    s (issued_start s)) as Ht.
      rewrite Hturn in Ht. destruct r; exact (proj2 (proj1 Ht)).
    + destruct (turn_cost _ _ _ Hturn) as [rq [sq [Hq Hc]]].
      exists rq, sq. split; [ exact Hq | ]. split; [ exact Hc | ].
      exact (query_cost _ _ _ Hq).
  - intros fuel task kwargs s r s' Hrun.
    exact (proj2 (run_invariant (issued (step_limit (config s)) s) any any
                    (tolerant_issued _ s) rely_any
                    (triple_resolve_issued _ s) (triple_query_issued _ s)
                    fuel task kwargs s r s' (issued_start s) Hrun)).
  - intros s m s' extra Hq Hex Hcost.
    pose proof (query_cost _ _ _ Hq) as [extra' [declared [H1 [H2 H3]]]].
    rewrite Hex in H1. injection H1 as <-.
    cbn in H2. unfold dict_get in H2. rewrite Hcost in H2. injection H2 as <-.
    cbn in H3. injection H3 as H3. split; [ symmetry; exact H3 | ].
    rewrite <- H3.
    destruct (cost s) as [[ | ] | [ | ] | | sx mx ex]; cbn; auto.
  - intros Hq. split.
    + intros s r s' Hp Hturn.
      pose proof (triple_turn (counted s) any any (tolerant_counted s) rely_any
                    (triple_query_counted s Hq) s (counted_start s Hp)) as Ht.
      rewrite Hturn in Ht.
      assert (Hc : counted s s') by (destruct r; tauto).
      destruct Hc as [_ [_ [Hp' Hle]]]. auto.
    + intros fuel task kwargs s r s' Hp Hrun.
      pose proof (run_invariant (counted s) any any (tolerant_counted s) rely_any
                    (triple_resolve_counted s) (triple_query_counted s Hq)
                    fuel task kwargs s r s' (counted_start s Hp) Hrun)
        as [_ [_ [Hp' Hle]]].
      auto.
Qed.

End CountersOfARun.

(** ** What a snapshot needs *)

Section SnapshotErrors.
Context {W : Type} `{MW : Model W} `{EW : Environment W} `{SW : Storage W} `{L : Library}.

(** The snapshot reads [exit_status] and [submission] off the last
    message's ["extra"].  When that is there but is no mapping ([None],
    say), [serialize] raises the [AttributeError] of calling [get] on it
    before it asks the model or the environment anything, and [save]
    raises it before it writes: nothing at all has changed. *)
Theorem snapshot_needs_mapping_extra
    (path : option string) (extra_dicts : list value) (s : agent W)
    (earlier : list value) (d : dict) (v : value) :
  messages s = earlier ++ [VDict d] ->
  lookup "extra" d = Some v ->
  is_dict v = false ->
  serialize extra_dicts s = (Raise (AttributeError v "get"), s)
  /\ save path extra_dicts s = (Raise (AttributeError v "get"), s).
Proof.
  intros Hm Hex Hv.
  assert (Hser : serialize extra_dicts s = (Raise (AttributeError v "get"), s)).
  { unfold serialize, bind, gets, lift. rewrite Hm, last_last. cbn.
    unfold dict_get. rewrite Hex.
    destruct v; try discriminate; reflexivity. }
  split; [ exact Hser | ].
  unfold save, bind. rewrite Hser. reflexivity.
Qed.

End SnapshotErrors.

(** ** Resolving an agent class ([minisweagent/agents/__init__.py]) *)

Module Agents.

(** [s.rsplit(sep, 1)] for a separator of one character: the pieces
    around the last [sep] of [s], or [None] when [s] has no [sep] (Python
    then returns the one-element list [[s]]). *)
Fixpoint rsplit1 (sep : ascii) (s : string) : option (string * string) :=
  match s with
  | EmptyString => None
  | String c rest =>
      match rsplit1 sep rest with
      | Some (before, after) => Some (String c before, after)
      | None => if Ascii.eqb c sep then Some (EmptyString, rest) else None
      end
  end.

(** [sep not in s] *)
Fixpoint lacks (sep : ascii) (s : string) : bool :=
  match s with
  | EmptyString => true
  | String c rest => negb (Ascii.eqb c sep) && lacks sep rest
  end.

Definition _AGENT_CLASS_MAPPING : list (string * string) :=
  [ ("default", "minisweagent.agents.default.DefaultAgent");
    ("interactive", "minisweagent.agents.interactive.InteractiveAgent");
    ("toolcall_only", "minisweagent.agents.tool_call_only.ToolCallOnlyAgent") ].

(** [mapping.get(key, default)] *)
Fixpoint mapping_get (key : string) (mapping : list (string * string)) (default : string)
  : string :=
  match mapping with
  | [] => default
  | (k, v) :: rest => if String.eqb k key then v else mapping_get key rest default
  end.

Section Resolve.

(** Classes and modules, and Python's import machinery: [import_module]
    is [importlib.import_module], [getattr] is the built-in on a module,
    and [subclass_of c b] says that the exception class named [c] is a
    proper subclass of the one named [b]. *)
Variable Klass : Type.
Variable PyModule : Type.
Variable import_module : string -> outcome PyModule.
Variable getattr : PyModule -> string -> outcome Klass.
Variable subclass_of : string -> string -> bool.

(** The argument [agent_class: str | type | None]. *)
Inductive agent_class_arg : Type :=
| NoClass
| AClass (c : Klass)
| Named (name : string).

(** [isinstance(e, base)] for an exception. *)
Definition isinstance (e : exn) (base : string) : bool :=
  String.eqb (exn_class e) base || subclass_of (exn_class e) base.

(** [except (ValueError, ImportError, AttributeError)] *)
Definition caught (e : exn) : bool :=
  isinstance e "ValueError" || isinstance e "ImportError" || isinstance e "AttributeError".

Definition unknown_agent_class (agent_class full_path : string) : exn :=
  Exception "ValueError"
    ("Unknown agent class: " ++ agent_class ++ " (resolved to " ++ full_path ++ ")")%string.

(** The body of the [try]. *)
Definition load_class (full_path : string) : outcome Klass :=
  match rsplit1 "." full_path with
  | None =>
      Raise (Exception "ValueError" "not enough values to unpack (expected 2, got 1)")
  | Some (module_name, class_name) =>
      module <~ import_module module_name ;;
      getattr module class_name
  end.

Definition resolve_agent_class (agent_class : agent_class_arg) (default : Klass)
  : outcome Klass :=
  match agent_class with
  | NoClass => Ok default
  | AClass c => Ok c
  | Named name =>
      let full_path := mapping_get name _AGENT_CLASS_MAPPING name in
      match load_class full_path with
      | Ok c => Ok c
      | Raise e =>
          if caught e then Raise (unknown_agent_class name full_path) else Raise e
      end
  end.

Lemma rsplit1_lacks sep s : lacks sep s = true -> rsplit1 sep s = None.
Proof.
  induction s as [ | c rest IH ]; simpl; [ reflexivity | ].
  intros H. apply andb_true_iff in H. destruct H as [Hc Hrest].
  rewrite (IH Hrest). apply negb_true_iff in Hc. rewrite Hc. reflexivity.
Qed.

(** Splitting undoes joining, at the last separator. *)
Lemma rsplit1_join sep before after :
  lacks sep after = true ->
  rsplit1 sep (before ++ String sep after) = Some (before, after).
Proof.
  intros Hafter. induction before as [ | c rest IH ]; simpl.
  - rewrite (rsplit1_lacks _ _ Hafter), Ascii.eqb_refl. reflexivity.
  - rewrite IH. reflexivity.
Qed.

Lemma lacks_join sep before after : lacks sep (before ++ String sep after) = false.
Proof.
  induction before as [ | c rest IH ]; simpl.
  - rewrite Ascii.eqb_refl. reflexivity.
  - rewrite IH. apply andb_false_r.
Qed.

(** A name that is no key of the mapping stands for itself; one with a
    dot is no key. *)
Lemma mapping_get_dotted before after :
  mapping_get (before ++ String "." after) _AGENT_CLASS_MAPPING
    (before ++ String "." after)
  = (before ++ String "." after)%string.
Proof.
  assert (Hkey : forall k, lacks "." k = true ->
                   String.eqb k (before ++ String "." after) = false).
  { intros k Hk. destruct (String.eqb k _) eqn:E; [ | reflexivity ].
    apply String.eqb_eq in E. subst k. rewrite lacks_join in Hk. discriminate. }
  unfold _AGENT_CLASS_MAPPING. cbn [mapping_get].
  rewrite !Hkey by reflexivity. reflexivity.
Qed.

(** A dotted path [module.Class]: the module named by everything before
    the last dot is imported and the attribute named by what follows it
    is returned, whatever it is.  A [ValueError], [ImportError] or
    [AttributeError] on the way (of these classes or of subclasses)
    becomes the [ValueError] "Unknown agent class"; any other exception
    of the import passes through as it is.  The three short names stand
    for their paths. *)
Theorem resolve_agent_class_dotted
    (name module_name class_name : string) (default : Klass) :
  lacks "." class_name = true ->
  name = (module_name ++ "." ++ class_name)%string
  \/ (name, (module_name ++ "." ++ class_name)%string) = ("default", "minisweagent.agents.default.DefaultAgent")
  \/ (name, (module_name ++ "." ++ class_name)%string)
     = ("interactive", "minisweagent.agents.interactive.InteractiveAgent")
  \/ (name, (module_name ++ "." ++ class_name)%string)
     = ("toolcall_only", "minisweagent.agents.tool_call_only.ToolCallOnlyAgent") ->
  resolve_agent_class (Named name) default
  = match (module <~ import_module module_name ;; getattr module class_name) with
    | Ok c => Ok c
    | Raise e =>
        if caught e
        then Raise (unknown_agent_class name (module_name ++ "." ++ class_name))
        else Raise e
    end.
Proof.
  intros Hclass Hname.
  assert (Hfull : mapping_get name _AGENT_CLASS_MAPPING name
                  = (module_name ++ "." ++ class_name)%string).
  { destruct Hname as [-> | [H | [H | H]]].
    - change ("." ++ class_name)%string with (String "." class_name).
      apply mapping_get_dotted.
    - injection H as -> H. symmetry in H. etransitivity; [ | exact H ]. reflexivity.
    - injection H as -> H. symmetry in H. etransitivity; [ | exact H ]. reflexivity.
    - injection H as -> H. symmetry in H. etransitivity; [ | exact H ]. reflexivity. }
  unfold resolve_agent_class. cbv zeta. rewrite Hfull.
  unfold load_class. change ("." ++ class_name)%string with (String "." class_name).
  rewrite (rsplit1_join _ _ _ Hclass). reflexivity.
Qed.

(** A name without a dot that is none of the short names: nothing is
    imported, and the [ValueError] names it twice. *)
Theorem resolve_agent_class_undotted (name : string) (default : Klass) :
  lacks "." name = true ->
  name <> "default" -> name <> "interactive" -> name <> "toolcall_only" ->
  resolve_agent_class (Named name) default = Raise (unknown_agent_class name name).
Proof.
  intros Hname H1 H2 H3.
  assert (Hfull : mapping_get name _AGENT_CLASS_MAPPING name = name).
  { unfold _AGENT_CLASS_MAPPING. cbn [mapping_get].
    apply not_eq_sym in H1, H2, H3.
    apply String.eqb_neq in H1, H2, H3. rewrite H1, H2, H3. reflexivity. }
  unfold resolve_agent_class. cbv zeta. rewrite Hfull.
  unfold load_class. rewrite (rsplit1_lacks _ _ Hname).
  unfold caught, isinstance. cbn. reflexivity.
Qed.

End Resolve.

End Agents.

(** ** The agent that forces tool calls ([minisweagent/agents/tool_call_only.py]) *)

Module ToolCallOnly.

(** The configuration object of a model, as the attributes it has.
    [hasattr(config, name)] and [config.name = v] on such an object. *)
Definition hasattr (attrs : dict) (name : string) : bool :=
  match lookup name attrs with Some _ => true | None => false end.

Definition setattr (name : string) (v : value) (attrs : dict) : dict :=
  store name v attrs.

(** [_configure_tool_calling], on [getattr(self.model, "config", None)]:
    [None] when the model has no configuration. *)
Definition _configure_tool_calling (config : option dict) : option dict :=
  match config with
  | None => None
  | Some attrs =>
      let attrs :=
        if hasattr attrs "tool_choice"
        then setattr "tool_choice" (VStr "required") attrs else attrs in
      let attrs :=
        if hasattr attrs "require_reasoning"
        then setattr "require_reasoning" (VBool true) attrs else attrs in
      Some attrs
  end.

Lemma store_keys k v d :
  hasattr d k = true -> map fst (store k v d) = map fst d.
Proof.
  unfold hasattr. induction d as [ | [k' v'] rest IH ]; simpl; [ discriminate | ].
  destruct (String.eqb k' k) eqn:E.
  - intros _. apply String.eqb_eq in E. subst k'. reflexivity.
  - intros H. simpl. rewrite (IH H). reflexivity.
Qed.

Lemma store_same_value k v d :
  lookup k d = Some v -> store k v d = d.
Proof.
  induction d as [ | [k' v'] rest IH ]; simpl; [ discriminate | ].
  destruct (String.eqb k' k) eqn:E.
  - intros H; injection H as <-. apply String.eqb_eq in E. subst k'. reflexivity.
  - intros H. rewrite (IH H). reflexivity.
Qed.

(** What configuring changes.  A model without a configuration is left
    alone.  Otherwise the configuration keeps exactly the attributes it
    had, in their order: [tool_choice] becomes ["required"] and
    [require_reasoning] becomes [True] where they exist, neither is
    created where it does not, and no other attribute changes.
    Configuring again changes nothing. *)
Theorem configure_tool_calling_keeps_attributes (attrs : dict) :
  _configure_tool_calling None = None
  /\ exists attrs',
       _configure_tool_calling (Some attrs) = Some attrs'
       /\ map fst attrs' = map fst attrs
       /\ lookup "tool_choice" attrs'
          = (if hasattr attrs "tool_choice" then Some (VStr "required") else None)
       /\ lookup "require_reasoning" attrs'
          = (if hasattr attrs "require_reasoning" then Some (VBool true) else None)
       /\ (forall name,
             String.eqb "tool_choice" name = false ->
             String.eqb "require_reasoning" name = false ->
             lookup name attrs' = lookup name attrs)
       /\ _configure_tool_calling (Some attrs') = Some attrs'.
Proof.
  split; [ reflexivity | ].
  unfold _configure_tool_calling, setattr. cbv zeta.
  set (a1 := if hasattr attrs "tool_choice"
             then store "tool_choice" (VStr "required") attrs else attrs).
  set (a2 := if hasattr a1 "require_reasoning"
             then store "require_reasoning" (VBool true) a1 else a1).
  assert (Hk1 : map fst a1 = map fst attrs).
  { unfold a1. destruct (hasattr attrs "tool_choice") eqn:E; [ | reflexivity ].
    apply store_keys. exact E. }
  assert (Hk2 : map fst a2 = map fst a1).
  { unfold a2. destruct (hasattr a1 "require_reasoning") eqn:E; [ | reflexivity ].
    apply store_keys. exact E. }
  assert (Ht1 : lookup "tool_choice" a1
                = if hasattr attrs "tool_choice" then Some (VStr "required") else None).
  { unfold a1. destruct (hasattr attrs "tool_choice") eqn:E.
    - apply lookup_store_same.
    - unfold hasattr in E. destruct (lookup "tool_choice" attrs); [ discriminate | reflexivity ]. }
  assert (Hr1 : lookup "require_reasoning" a1 = lookup "require_reasoning" attrs).
  { unfold a1. destruct (hasattr attrs "tool_choice"); [ | reflexivity ].
    apply lookup_store_other. reflexivity. }
  assert (Hh1 : hasattr a1 "require_reasoning" = hasattr attrs "require_reasoning").
  { unfold hasattr. rewrite Hr1. reflexivity. }
  assert (Ht2 : lookup "tool_choice" a2 = lookup "tool_choice" a1).
  { unfold a2. destruct (hasattr a1 "require_reasoning"); [ | reflexivity ].
    apply lookup_store_other. reflexivity. }
  assert (Hr2 : lookup "require_reasoning" a2
                = if hasattr attrs "require_reasoning" then Some (VBool true) else None).
  { unfold a2. rewrite <- Hh1. destruct (hasattr a1 "require_reasoning") eqn:E.
    - apply lookup_store_same.
    - unfold hasattr in E.
      destruct (lookup "require_reasoning" a1); [ discriminate | reflexivity ]. }
  exists a2. split; [ reflexivity | ]. split; [ congruence | ].
  split; [ congruence | ]. split; [ exact Hr2 | ]. split.
  - intros name Hn1 Hn2. unfold a2, a1.
    destruct (hasattr _ "require_reasoning"), (hasattr attrs "tool_choice");
      rewrite ?lookup_store_other by assumption; reflexivity.
  - f_equal.
    assert (Hh : forall d k, hasattr d k = match lookup k d with
                                           | Some _ => true
                                           | None => false
                                           end) by reflexivity.
    assert (Hs1 : (if hasattr a2 "tool_choice"
                   then store "tool_choice" (VStr "required") a2 else a2) = a2).
    { rewrite (Hh a2), Ht2, Ht1.
      destruct (hasattr attrs "tool_choice") eqn:E; [ | reflexivity ].
      apply store_same_value. rewrite Ht2, Ht1, ?E. reflexivity. }
    rewrite Hs1. rewrite (Hh a2), Hr2.
    destruct (hasattr attrs "require_reasoning") eqn:E; [ | reflexivity ].
    apply store_same_value. rewrite Hr2, ?E. reflexivity.
Qed.

End ToolCallOnly.

(** ** The scripted world keeps to the contracts *)

Section DemoFacts.
Import Demo.

Lemma demo_answer_well_formed actions declared tokens :
  well_formed (answer actions declared tokens).
Proof. intros d Hd Hrole. injection Hd as <-. cbn in Hrole. discriminate. Qed.

Lemma demo_honours : honours_data_model (W := sandbox).
Proof.
  constructor.
  - constructor.
    + intros kw Hkw w. cbn. exact Hkw.
    + intros m outputs vars w. cbn.
      induction outputs as [ | o rest IH ]; constructor; [ | exact IH ].
      intros d Hd Hrole. injection Hd as <-. cbn in Hrole. discriminate.
    + intros w. exact I.
    + intros w. exact I.
    + intros a w. cbn.
      destruct (eq_str a "submit").
      * cbn. constructor; [ | constructor ].
        intros d Hd _. injection Hd as <-. eexists. split; [ reflexivity | ].
        split; discriminate.
      * destruct (eq_str a "crash"); exact I.
    + intros w. exact I.
    + intros w. exact I.
    + intros p d w. cbn. destruct (disk_full w); exact I.
    + intros t v. exact I.
  - intros h w. cbn. destruct (script w) as [ | [actions declared tokens | | ] rest ]; cbn.
    + exact I.
    + apply demo_answer_well_formed.
    + constructor; [ | constructor ].
      intros d Hd Hrole. injection Hd as <-. cbn in Hrole. discriminate.
    + exact I.
  - intros w. exact I.
  - intros name n w. exact I.
Qed.

Lemma demo_price_payable p : F64.payable (price_float p).
Proof. destruct p; cbn; repeat split; unfold F64.prec, emin, F64.emax; lia. Qed.

Lemma demo_declares_payable :
  forall h, behaves any (model_query (W := sandbox) h) declares_payable_cost.
Proof.
  intros h w. cbn. destruct (script w) as [ | [actions declared tokens | | ] rest ]; cbn;
    try exact I.
  intros extra c Hex Hc. cbn in Hex. injection Hex as <-.
  destruct declared as [p | ], tokens as [n | ]; cbn in Hc; injection Hc as <-; cbn;
    try apply demo_price_payable; exact I.
Qed.

Lemma demo_unknown_model : unknown_model (W := sandbox).
Proof.
  intros w raw cm w' Hname Hload. cbn in Hname, Hload.
  injection Hname as <-. injection Hload as <- _. reflexivity.
Qed.

Lemma demo_serialize_reads :
  (forall w : sandbox, snd (model_serialize w) = w)
  /\ (forall w : sandbox, snd (env_serialize w) = w).
Proof. split; intros w; reflexivity. Qed.

Lemma demo_map_plain :
  behaves plain (load_context_window_map (W := sandbox)) any
  /\ forall name n, behaves plain (update_context_window_map (W := sandbox) name n) any.
Proof. split; intros; intros w; exact I. Qed.

End DemoFacts.

(** ** Concrete runs *)

Section Runs.
Import Demo.

Ltac evaluate H t :=
  let v := eval vm_compute in t in
  assert (H : t = v) by (vm_compute; reflexivity).

(** A run that lists a directory and then submits. *)
Lemma run_returns_terminal_extra_witness :
  exists s' extra,
    run 5 "task" []
      (fresh 0 [Say [VStr "ls"] None None; Say [VStr "submit"] None None] false)
    = Some (Ok (VDict extra), s')
    /\ lookup "exit_status" extra <> None
    /\ lookup "submission" extra <> None.
Proof.
  evaluate E (run 5 "task" []
                (fresh 0 [Say [VStr "ls"] None None; Say [VStr "submit"] None None] false)).
  lazymatch type of E with
  | _ = Some (Ok ?r, ?s') =>
      destruct (run_returns_terminal_extra 5 "task" [] _ r s' E)
        as [d [_ [_ [_ [_ Hextra]]]]];
      destruct (Hextra demo_honours) as [extra [_ [Hr [Hes Hsub]]]];
      exists s', extra
  end.
  rewrite <- Hr. split; [ exact E | split; assumption ].
Defined.

(** A step in which the environment breaks. *)
Lemma uncaught_exception_recorded_witness :
  exists (s1 s3 : agent sandbox) m,
    run_loop 1 (started (fresh 0 [Say [VStr "crash"] None None] false))
    = Some (Raise (Exception "RuntimeError" "environment crashed"), s3)
    /\ messages s3 = messages s1 ++ [m]
    /\ get m "role" VNone = Ok (VStr "exit").
Proof.
  evaluate Hstep (step (started (fresh 0 [Say [VStr "crash"] None None] false))).
  lazymatch type of Hstep with
  | _ = (Raise ?e, ?s1) =>
      evaluate Hsave
        (save (output_path (config s1)) []
           (snd (add_messages [VDict (exit_kwargs e)] (set_world (world s1) s1))));
      lazymatch type of Hsave with
      | _ = (Ok ?data, ?s3) =>
          destruct (uncaught_exception_recorded 0 _ s1 _ _ (VDict (exit_kwargs e))
                      (world s1) data s3 Hstep eq_refl
                      (ex_intro _ (exit_kwargs e) (conj eq_refl (conj eq_refl eq_refl)))
                      Hsave)
            as [Hrun [Hmsgs [Hrole _]]];
          exists s1, s3, (VDict (exit_kwargs e))
      end
  end.
  split; [ exact Hrun | split; [ exact Hmsgs | exact Hrole ] ].
Defined.

(** A window of 1000 and a response that reports 250 prompt tokens. *)
Lemma update_context_window_stats_truncates_witness :
  context_left_percent
    (snd (_update_context_window_stats (VDict (usage_message 250)) (windowed [])))
  = Some 75.
Proof.
  destruct (update_context_window_stats_truncates (windowed []) (usage_message 250)
              (VInt 250) 250 1000 eq_refl ltac:(lia) eq_refl eq_refl)
    as [Hreturns Hsets].
  destruct (Hsets 75 ltac:(vm_compute; reflexivity)) as [_ [Hleft _]].
  exact Hleft.
Defined.

(** The code truncates where the formula of the specification rounds:
    333 tokens of 1000 leave 66.7 percent, recorded as 66, not 67. *)
Lemma left_percent_is_truncated_not_rounded :
  context_left_percent
    (snd (_update_context_window_stats (VDict (usage_message 333)) (windowed [])))
  = Some 66
  /\ spec_left_percent 333 1000 = Ok 67
  /\ spec_left_percent_exact 333 1000 = 67.
Proof. vm_compute. repeat split; reflexivity. Qed.

(** Binary64 at work: 900 tokens of 1000 leave 9, not 10, because
    [1 - 0.9] is a little less than [0.1]. *)
Example left_of_900_1000 : left_of 900 1000 = Ok 9.
Proof. vm_compute. reflexivity. Qed.

(** The model rejects its first output, then answers twice. *)
Lemma n_calls_counts_issued_queries_witness :
  exists r s' evs,
    run 5 "task" []
      (fresh 0 [Malformed; Say [VStr "ls"] (Some Half) None;
                Say [VStr "submit"] (Some Quarter) None] false)
    = Some (r, s')
    /\ trace s'
       = trace (fresh 0 [Malformed; Say [VStr "ls"] (Some Half) None;
                         Say [VStr "submit"] (Some Quarter) None] false) ++ evs
    /\ n_calls s' = 0 + queries_issued evs
    /\ F64.le F64.zero (cost s').
Proof.
  evaluate E (run 5 "task" []
                (fresh 0 [Malformed; Say [VStr "ls"] (Some Half) None;
                          Say [VStr "submit"] (Some Quarter) None] false)).
  pose proof (n_calls_counts_issued_queries (W := sandbox)) as [_ [Hcalls [_ Hcost]]].
  lazymatch type of E with
  | _ = Some (?r, ?s') =>
      destruct (Hcalls _ _ _ _ r s' E) as [evs [Ht Hn]];
      assert (Hle : F64.le F64.zero (cost s'))
        by (refine (proj2 (proj2 (Hcost demo_declares_payable)
                             5%nat "task" [] _ r s' _ E)); exact I);
      exists r, s', evs
  end.
  split; [ exact E | split; [ exact Ht | split; [ exact Hn | exact Hle ] ] ].
Defined.

(** A query that raises is counted: after this run [n_calls] is 2, and
    one query has completed. *)
Lemma n_calls_exceeds_completed_queries :
  exists r s',
    run 5 "task" [] (fresh 0 [Malformed; Say [VStr "submit"] None None] false)
    = Some (Ok r, s')
    /\ n_calls s' = 2
    /\ queries_completed (trace s') = 1
    /\ n_calls s' <> queries_completed (trace s').
Proof.
  evaluate E (run 5 "task" [] (fresh 0 [Malformed; Say [VStr "submit"] None None] false)).
  lazymatch type of E with
  | _ = Some (Ok ?r, ?s') => exists r, s'
  end.
  split; [ exact E | ]. vm_compute. repeat split; try reflexivity. discriminate.
Qed.

(** A run with a model the map does not know, whose answer reports its
    prompt tokens: the run returns, the window and the percentage are
    still unset. *)
Lemma unknown_window_leaves_percent_unset_witness :
  exists r s',
    run 5 "task" []
      (fresh 0 [Say [VStr "ls"] None (Some (VInt 250));
                Say [VStr "submit"] None None] false)
    = Some (Ok r, s')
    /\ context_window_max s' = None
    /\ context_left_percent s' = None.
Proof.
  evaluate E (run 5 "task" []
                (fresh 0 [Say [VStr "ls"] None (Some (VInt 250));
                          Say [VStr "submit"] None None] false)).
  lazymatch type of E with
  | _ = Some (Ok ?r, ?s') => exists r, s'
  end.
  split; [ exact E | ].
  refine (proj2 (proj2 (proj2 (unknown_window_leaves_percent_unset demo_unknown_model)))
            5%nat "task" []
            (fresh 0 [Say [VStr "ls"] None (Some (VInt 250));
                      Say [VStr "submit"] None None] false)
            _ _ _ E).
  reflexivity.
Defined.

(** With the window unknown the token count is recorded all the same:
    [context_window_prompt_tokens] does not stay unset. *)
Lemma prompt_tokens_recorded_without_window :
  context_window_max (fresh 0 [] false) = None
  /\ context_window_prompt_tokens (fresh 0 [] false) = VNone
  /\ context_window_prompt_tokens
       (snd (_update_context_window_stats (VDict (usage_message 250)) (fresh 0 [] false)))
     = VInt 250
  /\ context_window_prompt_tokens
       (snd (_update_context_window_stats (VDict (usage_message 250)) (fresh 0 [] false)))
     <> VNone.
Proof. vm_compute. repeat split; try reflexivity. discriminate. Qed.

(** A message that declares two actions. *)
Lemma execute_actions_once_per_action_witness :
  exists observations s' outputs w1,
    execute_actions (answer [VStr "ls"; VStr "pwd"] None None)
      (started (fresh 0 [] false))
    = (Ok observations, s')
    /\ env_calls [VStr "ls"; VStr "pwd"] (world (started (fresh 0 [] false))) outputs w1
    /\ List.length outputs = 2%nat
    /\ messages s' = messages (started (fresh 0 [] false)) ++ observations.
Proof.
  evaluate E (execute_actions (answer [VStr "ls"; VStr "pwd"] None None)
                (started (fresh 0 [] false))).
  lazymatch type of E with
  | _ = (Ok ?obs, ?s') =>
      destruct (execute_actions_once_per_action _ _ obs s' E)
        as [actions [outputs [w1 [vars [w2 [w3 [evs
             [Hdecl [Hcalls [Hlen [_ [_ [Hmsgs _]]]]]]]]]]]]];
      exists obs, s', outputs, w1
  end.
  vm_compute in Hdecl. injection Hdecl as <-.
  split; [ exact E | ]. split; [ exact Hcalls | ]. split; [ exact Hlen | exact Hmsgs ].
Defined.

(** Two snapshots of the same agent. *)
Lemma serialize_idempotent_witness :
  exists data s',
    serialize [] (started (fresh 0 [] false)) = (Ok data, s')
    /\ s' = started (fresh 0 [] false)
    /\ serialize [] s' = (Ok data, s').
Proof.
  evaluate E (serialize [] (started (fresh 0 [] false))).
  lazymatch type of E with
  | _ = (Ok ?data, ?s') =>
      destruct (serialize_idempotent [] _ (Ok data) s'
                  (proj1 demo_serialize_reads) (proj2 demo_serialize_reads) E)
        as [Hsame [Hagain _]];
      exists data, s'
  end.
  split; [ exact E | split; [ exact Hsame | exact Hagain ] ].
Defined.

(** Three answers against a limit of two steps. *)
Lemma step_limit_ends_run_witness :
  exists s',
    run 3 "task" [] (fresh 2 (repeat (Say [VStr "ls"] None None) 3) false)
    = Some (Ok (VDict [ ("exit_status", VStr "LimitsExceeded"); ("submission", VStr "") ]),
            s')
    /\ n_calls s' <= 2
    /\ queries_issued (trace s') <= 2.
Proof.
  destruct (step_limit_ends_run (proj1 demo_map_plain) (proj2 demo_map_plain) "task" []
              (fresh 2 (repeat (Say [VStr "ls"] None None) 3) false)
              ltac:(cbn; lia) ltac:(cbn; lia)) as [Hends [Hbound _]].
  destruct (Hends 3%nat ltac:(cbn; lia)) as [r [s' Hrun]].
  destruct (Hbound 3%nat r s' Hrun) as [Hle [evs [Ht [_ Hq]]]].
  exists s'. cbn in Hle, Ht, Hq. rewrite Ht.
  split; [ | split; [ exact Hle | lia ] ].
  rewrite Hrun. vm_compute in Hrun. injection Hrun as <- <-. reflexivity.
Defined.

(** A model that rejects its own output. *)
Lemma interrupt_messages_appended_witness :
  exists (s1 s2 s' : agent sandbox) data,
    turn (started (fresh 0 [Malformed] false)) = (Ok false, s')
    /\ save (output_path (config s2)) [] s2 = (Ok data, s')
    /\ messages s'
       = messages s1
         ++ [VDict [ ("role", VStr "user");
                     ("content", VStr "Please give exactly one action.") ]].
Proof.
  evaluate Hstep (step (started (fresh 0 [Malformed] false))).
  evaluate Hturn (turn (started (fresh 0 [Malformed] false))).
  lazymatch type of Hstep with
  | _ = (Raise (InterruptAgentFlow ?cls ?msgs), ?s1) =>
      lazymatch type of Hturn with
      | _ = (?r, ?s') =>
          destruct (interrupt_messages_appended _ s1 cls msgs r s' Hstep Hturn)
            as [s2 [saved [_ [_ [Hsave [Hm [_ [_ Hr]]]]]]]];
          exists s1, s2, s'
      end
  end.
  destruct saved as [data | e]; [ | discriminate Hr ].
  exists data. split; [ exact Hturn | split; [ exact Hsave | exact Hm ] ].
Defined.

(** C3: an exception of a step against a save that raises.  On a full
    disk the environment breaks in the step; the exit message for that
    exception is formatted and appended; the save of the [finally] clause
    is attempted and raises, and its exception, not the one of the step,
    is what [run] raises. *)
Theorem uncaught_exception_replaced_by_save_failure :
  exists s1 s',
    step (started (fresh 0 [Say [VStr "crash"] None None] true))
    = (Raise (Exception "RuntimeError" "environment crashed"), s1)
    /\ run 5 "task" [] (fresh 0 [Say [VStr "crash"] None None] true)
       = Some (Raise OSError, s')
    /\ OSError <> Exception "RuntimeError" "environment crashed"
    /\ last (messages s') VNone
       = VDict (exit_kwargs (Exception "RuntimeError" "environment crashed"))
    /\ exists before data,
         trace s' = before ++ [EvSnapshotWrite "out/traj.json" data (Raise OSError)].
Proof.
  evaluate Hstep (step (started (fresh 0 [Say [VStr "crash"] None None] true))).
  evaluate Hrun (run 5 "task" [] (fresh 0 [Say [VStr "crash"] None None] true)).
  lazymatch type of Hstep with
  | _ = (_, ?s1) =>
      lazymatch type of Hrun with
      | _ = Some (_, ?s') => exists s1, s'
      end
  end.
  split; [ exact Hstep | ]. split; [ exact Hrun | ]. split; [ discriminate | ].
  split; [ vm_compute; reflexivity | ].
  lazymatch goal with
  | |- exists before data, trace ?s = _ => exists (removelast (trace s))
  end.
  eexists. vm_compute. reflexivity.
Qed.

(** C5: the live log against the snapshot.  With a full disk,
    [add_messages] logs a warning, still extends the sequence and returns;
    [save] raises what the write raised and returns no snapshot, and the
    run ends with that exception after its first step. *)
Theorem snapshot_write_failure_is_raised :
  (exists s',
     add_messages [VStr "m"] (logging (fresh 0 [] true)) = (Ok [VStr "m"], s')
     /\ messages s' = messages (logging (fresh 0 [] true)) ++ [VStr "m"]
     /\ exists before e, trace s' = before ++ [EvWarning "Failed to write live trajectory" e])
  /\ fst (save (Some "out/traj.json") [] (fresh 0 [] true)) = Raise OSError
  /\ (exists s',
        run 5 "task" [] (fresh 0 [Say [VStr "ls"] None None] true)
        = Some (Raise OSError, s')
        /\ n_calls s' = 1
        /\ queries_completed (trace s') = 1).
Proof.
  split; [ | split ].
  - evaluate E (add_messages [VStr "m"] (logging (fresh 0 [] true))).
    lazymatch type of E with
    | _ = (_, ?s') => exists s'
    end.
    split; [ exact E | ]. split; [ vm_compute; reflexivity | ].
    eexists [_; _], _. vm_compute. reflexivity.
  - vm_compute. reflexivity.
  - evaluate E (run 5 "task" [] (fresh 0 [Say [VStr "ls"] None None] true)).
    lazymatch type of E with
    | _ = Some (_, ?s') => exists s'
    end.
    split; [ exact E | ]. vm_compute. split; reflexivity.
Qed.

End Runs.

(** ** A second scripted world

    A model that returns what it is given to return, as it is, under a
    name of one's choice, and a context-window map that can be made
    unreadable. *)

Module Lab.

Record lab : Type := {
  answers : list value;
  model_name : value;
  window_table : list (string * Z);
  map_unreadable : bool
}.

Definition set_answers (v : list value) (w : lab) : lab :=
  {| answers := v; model_name := model_name w;
     window_table := window_table w; map_unreadable := map_unreadable w |}.

Definition set_window_table (v : list (string * Z)) (w : lab) : lab :=
  {| answers := answers w; model_name := model_name w;
     window_table := v; map_unreadable := map_unreadable w |}.

#[export] Instance lab_model : Model lab := {
  model_query _ w :=
    match answers w with
    | [] => (Raise (Exception "RuntimeError" "no answer left"), w)
    | a :: rest => (Ok a, set_answers rest w)
    end;
  model_format_message kwargs w := (Ok (VDict kwargs), w);
  model_format_observation_messages _ outputs _ w := (Ok outputs, w);
  model_get_template_vars w := (Ok (VDict []), w);
  model_serialize w := (Ok (VDict []), w);
  model_config_model_name w := model_name w
}.

#[export] Instance lab_env : Environment lab := {
  env_execute action w := (Ok action, w);
  env_get_template_vars w := (Ok (VDict []), w);
  env_serialize w := (Ok (VDict []), w)
}.

#[export] Instance lab_storage : Storage lab := {
  append_lines p ls w := (Ok tt, w);
  write_text p data w := (Ok tt, w);
  unlink p w := (Ok tt, w);
  load_context_window_map w :=
    if map_unreadable w
    then (Raise (Exception "OSError" "cannot read the map"), w)
    else (Ok (window_table w), w);
  update_context_window_map name size w :=
    (Ok tt, set_window_table (window_table w ++ [(name, size)]) w)
}.

Definition lab_config : AgentConfig :=
  {| system_template := "You are an agent.";
     instance_template := "Do the task.";
     step_limit := 0;
     cost_limit := F64.zero;
     output_path := None |}.

(** A model that answers once, with an [extra] that is [None]. *)
Definition careless : lab :=
  {| answers := [VDict [ ("role", VStr "assistant"); ("content", VStr "hi");
                         ("extra", VNone) ]];
     model_name := VNone;
     window_table := [];
     map_unreadable := false |}.

(** A model that the map knows. *)
Definition known : lab :=
  {| answers := [];
     model_name := VStr " gpt-4o ";
     window_table := [("gpt-4o", 128000)];
     map_unreadable := false |}.

(** A map that cannot be read. *)
Definition unreadable : lab :=
  {| answers := [];
     model_name := VStr "gpt-4o";
     window_table := [];
     map_unreadable := true |}.

End Lab.

(** ** More concrete runs *)

Section MoreRuns.
Import Demo.
Import Lab.

Ltac evaluate H t :=
  let v := eval vm_compute in t in
  assert (H : t = v) by (vm_compute; reflexivity).

(** One query that is answered. *)
Lemma query_appends_response_witness :
  exists m s',
    query (started (fresh 0 [Say [VStr "ls"] (Some Half) None] false)) = (Ok m, s')
    /\ messages s'
       = messages (started (fresh 0 [Say [VStr "ls"] (Some Half) None] false)) ++ [m]
    /\ n_calls s'
       = n_calls (started (fresh 0 [Say [VStr "ls"] (Some Half) None] false)) + 1.
Proof.
  evaluate E (query (started (fresh 0 [Say [VStr "ls"] (Some Half) None] false))).
  lazymatch type of E with
  | _ = (Ok ?m, ?s') =>
      destruct (query_appends_response _ m s' E) as [_ [Hm [Hn _]]];
      exists m, s'
  end.
  split; [ exact E | split; [ exact Hm | exact Hn ] ].
Defined.

(** An answer whose [extra] is [None]. *)
Lemma query_drops_answer_without_mapping_extra_witness :
  exists s',
    query (init lab_config careless) = (Raise (AttributeError VNone "get"), s')
    /\ messages s' = messages (init lab_config careless)
    /\ n_calls s' = n_calls (init lab_config careless) + 1.
Proof.
  evaluate E (query (init lab_config careless)).
  lazymatch type of E with
  | _ = (?r, ?s') =>
      evaluate Ht (trace s');
      lazymatch type of Ht with
      | _ = ?evs =>
          destruct (query_drops_answer_without_mapping_extra
                      (init lab_config careless) s' r evs []
                      [ ("role", VStr "assistant"); ("content", VStr "hi");
                        ("extra", VNone) ]
                      VNone E Ht ltac:(left; reflexivity)
                      ltac:(reflexivity) ltac:(reflexivity))
            as [[e [He Hclass]] [Hm [Hn _]]]
      end;
      exists s'
  end.
  split; [ | split; [ exact Hm | exact Hn ] ].
  rewrite E. rewrite He. rewrite (Hclass eq_refl). reflexivity.
Defined.

(** A model name that the map knows, with blanks around it. *)
Lemma resolve_context_window_max_hit_witness :
  exists s',
    _resolve_context_window_max (init lab_config known) = (Ok tt, s')
    /\ context_window_max s' = Some 128000
    /\ _resolve_context_window_max s' = (Ok tt, s').
Proof.
  evaluate E (_resolve_context_window_max (init lab_config known)).
  lazymatch type of E with
  | _ = (?r, ?s') =>
      destruct (resolve_context_window_max_hit (init lab_config known) " gpt-4o "
                  [("gpt-4o", 128000)] known 128000 r s'
                  ltac:(reflexivity) ltac:(reflexivity) ltac:(vm_compute; discriminate)
                  ltac:(reflexivity) ltac:(reflexivity) E)
        as [Hmax [_ [_ [_ [_ Hagain]]]]];
      exists s'
  end.
  split; [ exact E | split; [ exact Hmax | exact Hagain ] ].
Defined.

(** A model name that the map does not know. *)
Lemma resolve_context_window_max_miss_witness :
  _resolve_context_window_max (fresh 0 [] false)
  = (Ok tt,
     set_trace (trace (fresh 0 [] false) ++ [EvMapLoad (Ok table)])
       (set_world (demo_world [] false) (fresh 0 [] false))).
Proof.
  destruct (resolve_context_window_max_miss (fresh 0 [] false) ltac:(reflexivity))
    as [_ Hmiss].
  destruct (Hmiss " demo-model " (Ok table) (demo_world [] false)
              ltac:(reflexivity) ltac:(vm_compute; discriminate) ltac:(reflexivity))
    as [Hres _].
  - intros cm Hcm. injection Hcm as <-. reflexivity.
  - exact Hres.
Defined.

(** A map that cannot be read when [run] sets up. *)
Lemma run_raises_unrecorded_before_loop_witness :
  exists s1,
    run 3 "task" [] (init lab_config unreadable)
    = Some (Raise (Exception "OSError" "cannot read the map"), s1)
    /\ messages s1 = [].
Proof.
  evaluate E (start "task" [] (init lab_config unreadable)).
  lazymatch type of E with
  | _ = (Raise ?e, ?s1) =>
      destruct (run_raises_unrecorded_before_loop "task" [] _ e s1 E)
        as [Hrun [Hm _]];
      exists s1
  end.
  split; [ exact (Hrun 3%nat) | exact Hm ].
Defined.

(** A run with a live log. *)
Lemma run_hands_messages_to_live_log_witness :
  exists r s' evs,
    run 5 "task" []
      (logging (fresh 0 [Say [VStr "ls"] None None; Say [VStr "submit"] None None] false))
    = Some (r, s')
    /\ trace s'
       = trace (logging (fresh 0 [Say [VStr "ls"] None None;
                                  Say [VStr "submit"] None None] false)) ++ evs
    /\ live_lines evs = map (pair "out/live.jsonl") (messages s').
Proof.
  evaluate E (run 5 "task" []
                (logging (fresh 0 [Say [VStr "ls"] None None;
                                   Say [VStr "submit"] None None] false))).
  lazymatch type of E with
  | _ = Some (?r, ?s') =>
      destruct (run_hands_messages_to_live_log 5 "task" [] _ r s' E)
        as [_ [[evs [Ht Hl]] _]];
      exists r, s', evs
  end.
  split; [ exact E | split; [ exact Ht | exact Hl ] ].
Defined.


(** An importer that knows one module with one class in it. *)
Definition only_default (module_name : string) : outcome nat :=
  if String.eqb module_name "minisweagent.agents.default" then Ok 1%nat
  else Raise (Exception "ModuleNotFoundError" "No module of that name").

Definition only_agent (module : nat) (class_name : string) : outcome nat :=
  if String.eqb class_name "DefaultAgent" then Ok module
  else Raise (Exception "AttributeError" "module has no such attribute").

Definition builtin_subclass (c b : string) : bool :=
  String.eqb c "ModuleNotFoundError" && String.eqb b "ImportError".

Lemma resolve_agent_class_dotted_witness :
  Agents.resolve_agent_class nat nat only_default only_agent builtin_subclass
    (Agents.Named nat "default") 0%nat = Ok 1%nat
  /\ Agents.resolve_agent_class nat nat only_default only_agent builtin_subclass
       (Agents.Named nat "minisweagent.agents.missing.DefaultAgent") 0%nat
     = Raise (Agents.unknown_agent_class "minisweagent.agents.missing.DefaultAgent"
                "minisweagent.agents.missing.DefaultAgent").
Proof.
  split.
  - rewrite (Agents.resolve_agent_class_dotted nat nat only_default only_agent
               builtin_subclass "default" "minisweagent.agents.default" "DefaultAgent"
               0%nat eq_refl (or_intror (or_introl eq_refl))).
    reflexivity.
  - rewrite (Agents.resolve_agent_class_dotted nat nat only_default only_agent
               builtin_subclass "minisweagent.agents.missing.DefaultAgent"
               "minisweagent.agents.missing" "DefaultAgent"
               0%nat eq_refl (or_introl eq_refl)).
    reflexivity.
Defined.

Lemma resolve_agent_class_undotted_witness :
  Agents.resolve_agent_class nat nat only_default only_agent builtin_subclass
    (Agents.Named nat "Default") 0%nat
  = Raise (Agents.unknown_agent_class "Default" "Default").
Proof.
  apply Agents.resolve_agent_class_undotted; [ reflexivity | discriminate .. ].
Defined.

(** A last message whose [extra] is [None]. *)
Lemma snapshot_needs_mapping_extra_witness :
  save (Some "out/traj.json") []
    (set_messages [VDict [("role", VStr "user"); ("extra", VNone)]] (fresh 0 [] false))
  = (Raise (AttributeError VNone "get"),
     set_messages [VDict [("role", VStr "user"); ("extra", VNone)]] (fresh 0 [] false)).
Proof.
  exact (proj2 (snapshot_needs_mapping_extra (Some "out/traj.json") []
                  (set_messages [VDict [("role", VStr "user"); ("extra", VNone)]]
                     (fresh 0 [] false))
                  [] [("role", VStr "user"); ("extra", VNone)] VNone
                  ltac:(reflexivity) ltac:(reflexivity) ltac:(reflexivity))).
Defined.

End MoreRuns.
